(** * Sports tracker front end: session store, event-stream connection and
      live statistics

    A shallow embedding of the three JavaScript modules that make up the core
    of the dashboard:

    - [contexts/SessionContext.js]: the reducer-based session store
      ([initialState], [sessionReducer]) and its asynchronous operations;
    - [contexts/WebSocketContext.js]: the event-stream connection
      ([connect], [disconnect], [sendMessage] and the socket handlers);
    - [components/RealTimeTracker.js]: the consumer that turns inbound
      messages into statistics ([handleActionDetected]).

    Conventions of the embedding.

    - A JavaScript value is a [JsVal].  Numbers are IEEE 754 binary64 values
      in the program.  A finite binary64 value is a rational, so a number is
      held as a [Qc], and every arithmetic operation of the program is the
      exact operation followed by rounding to the nearest binary64 value,
      ties to even ([Binary64]).  [NaN] and the infinities have no
      representation: an operation that produces one has no value here.
    - An object used as a keyed record by the store ([stats], [settings], the
      payloads merged into them) is a [gmap string JsVal]; object spread is
      the left-biased union with the later operand on the left.  An object
      that travels on the wire keeps its fields as an ordered list.
    - A React state cell is a field of a record; a closure created during a
      render carries the values it captured as explicit arguments. *)

From Stdlib Require Import QArith Qcanon Qround Qpower Lqa Ascii.
From stdpp Require Import gmap strings list pretty.

Set Default Proof Using "Type".

(** ** JavaScript values *)

Module Js.

#[local] Unset Elimination Schemes.
Inductive JsVal : Type :=
| JUndefined
| JNull
| JBool (b : bool)
| JNum (q : Qc)
| JStr (s : string)
| JArr (items : list JsVal)
| JObj (fields : list (string * JsVal)).
#[local] Set Elimination Schemes.

(** [ToBoolean]: the values that an [if], [?:] or [||] treats as false are
    [undefined], [null], [false], [0] and the empty string. *)
Definition truthy (v : JsVal) : bool :=
  match v with
  | JUndefined | JNull => false
  | JBool b => b
  | JNum q => negb (Qc_eq_bool q 0)
  | JStr s => negb (String.eqb s "")
  | JArr _ | JObj _ => true
  end.

(** [a || b] *)
Definition js_or (a b : JsVal) : JsVal := if truthy a then a else b.

Fixpoint assoc (k : string) (fields : list (string * JsVal)) : option JsVal :=
  match fields with
  | [] => None
  | (k', v) :: rest => if String.eqb k k' then Some v else assoc k rest
  end.

(** [v.k] for a base value that is neither [undefined] nor [null]: the field
    of an object, [undefined] when the field is missing or the base is a
    primitive or an array (no model of [length] and friends). *)
Definition prop (v : JsVal) (k : string) : JsVal :=
  match v with
  | JObj fields => default JUndefined (assoc k fields)
  | _ => JUndefined
  end.

(** [v.k] in general: reading a property of [undefined] or [null] raises a
    [TypeError], rendered as [None]. *)
Definition get (v : JsVal) (k : string) : option JsVal :=
  match v with
  | JUndefined | JNull => None
  | _ => Some (prop v k)
  end.

(** [v?.k] *)
Definition get_opt (v : JsVal) (k : string) : JsVal :=
  match v with
  | JUndefined | JNull => JUndefined
  | _ => prop v k
  end.

(** [a === b] on primitives.  Objects and arrays compare by reference in
    JavaScript; two values that reached the store through different parses
    are never the same reference, so they compare unequal here. *)
Definition strict_eq (a b : JsVal) : bool :=
  match a, b with
  | JUndefined, JUndefined => true
  | JNull, JNull => true
  | JBool x, JBool y => Bool.eqb x y
  | JNum x, JNum y => Qc_eq_bool x y
  | JStr x, JStr y => String.eqb x y
  | _, _ => false
  end.

(** [ToNumber] on the values it sends to a finite number: a number is
    itself, [null] is 0, [true] is 1 and [false] is 0.  [undefined] (also a
    missing property) goes to [NaN], which has no representation; strings,
    arrays and objects are converted through their text, which is not
    modelled.  With such an operand [+] would also concatenate rather than
    add. *)
Definition to_number (v : option JsVal) : option Qc :=
  match v with
  | Some (JNum q) => Some q
  | Some JNull => Some 0%Qc
  | Some (JBool b) => Some (if b then 1%Qc else 0%Qc)
  | _ => None
  end.

Definition of_nat (n : nat) : Qc := Qc_of_Z (Z.of_nat n).

End Js.
Export Js.

(** ** Binary64 arithmetic

    JavaScript's [+], [-], [*] and [/] on numbers are the IEEE 754 binary64
    operations: the exact result, rounded to the nearest value of the format,
    ties going to the value with an even significand.  A finite value of the
    format is [m * 2^p] with [|m| < 2^53] and [-1074 <= p]; a result whose
    rounding reaches [2^1024] overflows to an infinity, and a division by zero
    gives an infinity or [NaN]: those have no value here ([None]).  The sign
    of a zero is not kept. *)

Module Binary64.

#[local] Open Scope Q_scope.

Definition pow2 (p : Z) : Q := 2 ^ p.

(** The nearest integer, a tie going to the even one. *)
Definition rne (x : Q) : Z :=
  let f := Qfloor x in
  match Qcompare (x - inject_Z f) (1 # 2) with
  | Lt => f
  | Gt => (f + 1)%Z
  | Eq => if Z.even f then f else (f + 1)%Z
  end.

(** For [0 < x], the exponent [e] with [2^e <= x < 2^(e+1)]. *)
Definition binade (x : Q) : Z :=
  let e0 := (Z.log2 (Qnum x) - Z.log2 (Zpos (Qden x)))%Z in
  if Qle_bool (pow2 e0) x then e0 else (e0 - 1)%Z.

(** Rounding of [0 < x]: to a multiple of [2^p], where [p] leaves 53 bits to
    the significand and is not below the exponent of the subnormal values. *)
Definition nearest_pos (x : Q) : Q :=
  let p := Z.max (binade x - 52) (-1074) in
  inject_Z (rne (x / pow2 p)) * pow2 p.

Definition nearestQ (x : Q) : Q :=
  match Qnum x with
  | Z0 => 0
  | Zpos _ => nearest_pos x
  | Zneg _ => - nearest_pos (- x)
  end.

(** The reduction to lowest terms changes no value; it keeps the results of
    closed computations in one form. *)
Definition nearest (q : Qc) : Qc := Q2Qc (Qred (nearestQ q)).

(** A rounded result is a value of the format unless it has reached
    [2^1024]. *)
Definition finite (q : Qc) : option Qc :=
  if Qle_bool (pow2 1024) q || Qle_bool q (- pow2 1024) then None else Some q.

Definition add (a b : Qc) : option Qc := finite (nearest (a + b)).
Definition sub (a b : Qc) : option Qc := finite (nearest (a - b)).
Definition mul (a b : Qc) : option Qc := finite (nearest (a * b)).
Definition div (a b : Qc) : option Qc :=
  if Qc_eq_bool b 0 then None else finite (nearest (a / b)).

End Binary64.

(** ** The session store ([contexts/SessionContext.js]) *)

Module Store.

Record State : Type := mkState {
  currentSession : JsVal;
  sessions : list JsVal;
  isTracking : bool;
  selectedSport : string;
  settings : gmap string JsVal;
  stats : gmap string JsVal;
  loading : bool;
  error : option string
}.

Definition initialStats : gmap string JsVal :=
  {[ "totalActions" := JNum 0;
     "successfulActions" := JNum 0;
     "successRate" := JNum 0;
     "averageScore" := JNum 0 ]}.

Definition initialState : State := {|
  currentSession := JNull;
  sessions := [];
  isTracking := false;
  selectedSport := "basketball";
  settings :=
    {[ "feedbackTypes" := JArr [JStr "audio"; JStr "visual"];
       "sensitivity" := JNum (Q2Qc (7 # 10));
       "minConfidence" := JNum (Q2Qc (8 # 10));
       "cameraSource" := JNum 0 ]};
  stats := initialStats;
  loading := false;
  error := None
|}.

(** The actions of the reducer, with payloads typed as the dispatching code
    supplies them.  [OTHER] stands for any action type the [switch] does not
    list. *)
Inductive Action : Type :=
| SET_LOADING (payload : bool)
| SET_ERROR (payload : option string)
| SET_SESSIONS (payload : list JsVal)
| SET_CURRENT_SESSION (payload : JsVal)
| CREATE_SESSION (payload : JsVal)
| UPDATE_SESSION (payload : JsVal)
| SET_TRACKING (payload : bool)
| SET_SELECTED_SPORT (payload : string)
| UPDATE_SETTINGS (payload : gmap string JsVal)
| UPDATE_STATS (payload : gmap string JsVal)
| RESET_STATS
| OTHER (type : string).

(** [{ ...a, ...b }]: every key of [b], then the keys of [a] that [b] lacks. *)
Definition spread (a b : gmap string JsVal) : gmap string JsVal := b ∪ a.

(** [sessions.map(session => session.id === payload.id ? payload : session)];
    [session.id] raises on a [null] or [undefined] element. *)
Fixpoint replace_by_id (payload : JsVal) (pid : JsVal) (l : list JsVal)
  : option (list JsVal) :=
  match l with
  | [] => Some []
  | session :: rest =>
      sid ← get session "id";
      rest' ← replace_by_id payload pid rest;
      Some ((if strict_eq sid pid then payload else session) :: rest')
  end.

(** The reducer.  It is total except for [UPDATE_SESSION], whose property
    reads can raise; [None] is a raised [TypeError]. *)
Definition sessionReducer (state : State) (action : Action) : option State :=
  match action with
  | SET_LOADING p =>
      Some {| currentSession := currentSession state; sessions := sessions state;
              isTracking := isTracking state; selectedSport := selectedSport state;
              settings := settings state; stats := stats state;
              loading := p; error := error state |}
  | SET_ERROR p =>
      Some {| currentSession := currentSession state; sessions := sessions state;
              isTracking := isTracking state; selectedSport := selectedSport state;
              settings := settings state; stats := stats state;
              loading := false; error := p |}
  | SET_SESSIONS p =>
      Some {| currentSession := currentSession state; sessions := p;
              isTracking := isTracking state; selectedSport := selectedSport state;
              settings := settings state; stats := stats state;
              loading := false; error := error state |}
  | SET_CURRENT_SESSION p =>
      Some {| currentSession := p; sessions := sessions state;
              isTracking := isTracking state; selectedSport := selectedSport state;
              settings := settings state; stats := stats state;
              loading := loading state; error := error state |}
  | CREATE_SESSION p =>
      Some {| currentSession := p; sessions := p :: sessions state;
              isTracking := isTracking state; selectedSport := selectedSport state;
              settings := settings state; stats := stats state;
              loading := loading state; error := error state |}
  | UPDATE_SESSION p =>
      pid ← get p "id";
      updatedSessions ← replace_by_id p pid (sessions state);
      Some {| currentSession :=
                (if strict_eq (get_opt (currentSession state) "id") pid
                 then p else currentSession state);
              sessions := updatedSessions;
              isTracking := isTracking state; selectedSport := selectedSport state;
              settings := settings state; stats := stats state;
              loading := loading state; error := error state |}
  | SET_TRACKING p =>
      Some {| currentSession := currentSession state; sessions := sessions state;
              isTracking := p; selectedSport := selectedSport state;
              settings := settings state; stats := stats state;
              loading := loading state; error := error state |}
  | SET_SELECTED_SPORT p =>
      Some {| currentSession := currentSession state; sessions := sessions state;
              isTracking := isTracking state; selectedSport := p;
              settings := settings state; stats := stats state;
              loading := loading state; error := error state |}
  | UPDATE_SETTINGS p =>
      Some {| currentSession := currentSession state; sessions := sessions state;
              isTracking := isTracking state; selectedSport := selectedSport state;
              settings := spread (settings state) p; stats := stats state;
              loading := loading state; error := error state |}
  | UPDATE_STATS p =>
      Some {| currentSession := currentSession state; sessions := sessions state;
              isTracking := isTracking state; selectedSport := selectedSport state;
              settings := settings state; stats := spread (stats state) p;
              loading := loading state; error := error state |}
  | RESET_STATS =>
      Some {| currentSession := currentSession state; sessions := sessions state;
              isTracking := isTracking state; selectedSport := selectedSport state;
              settings := settings state; stats := stats initialState;
              loading := loading state; error := error state |}
  | OTHER _ => Some state
  end.

End Store.
Export Store.

(** ** Asynchronous store operations

    An operation of the provider is a small program: it dispatches actions,
    awaits HTTP responses, returns or throws.  [Op R] is the syntax of such a
    program; [run] executes it against a server and the reducer.

    [getSessions] is left out: it stores the body of the response as the
    session list whatever that body is, and [sessions] here is a list. *)

Module Api.

Inductive ReqBody : Type :=
| NoBody
| JsonBody (v : JsVal)
| StartBody (sport : string) (settings : gmap string JsVal).

Record Request : Type := mkRequest {
  req_method : string;
  req_url : string;
  req_body : ReqBody
}.

(** What [await response.json()] yields. *)
Inductive JsonResult : Type :=
| JsonValue (v : JsVal)
| JsonRejected (msg : string).

(** What [await fetch(...)] yields: a rejected promise (network failure) or a
    response with its [ok] flag and body. *)
Inductive FetchOutcome : Type :=
| FetchRejected (msg : string)
| FetchResponse (ok : bool) (json : JsonResult).

Inductive Op (R : Type) : Type :=
| Ret (r : R)
| Throw (msg : string)
| Dispatch (a : Action) (k : Op R)
| Fetch (req : Request) (k : FetchOutcome → Op R).
Arguments Ret {R} r.
Arguments Throw {R} msg.
Arguments Dispatch {R} a k.
Arguments Fetch {R} req k.

(** [try { body } catch (error) { handler(error.message) }] *)
Fixpoint try_catch {R} (body : Op R) (handler : string → Op R) : Op R :=
  match body with
  | Ret r => Ret r
  | Throw msg => handler msg
  | Dispatch a k => Dispatch a (try_catch k handler)
  | Fetch req k => Fetch req (λ o, try_catch (k o) handler)
  end.

(** The [catch] block shared by every operation:
    [dispatch({ type: 'SET_ERROR', payload: error.message }); throw error]. *)
Definition report {R} (msg : string) : Op R :=
  Dispatch (SET_ERROR (Some msg)) (Throw msg).

(** [await fetch(req)] followed by the [response.ok] test. *)
Definition fetch_ok {R} (req : Request) (failure : string)
    (k : JsonResult → Op R) : Op R :=
  Fetch req (λ o,
    match o with
    | FetchRejected msg => Throw msg
    | FetchResponse false _ => Throw failure
    | FetchResponse true json => k json
    end).

(** [await response.json()] *)
Definition json_of {R} (json : JsonResult) (k : JsVal → Op R) : Op R :=
  match json with
  | JsonValue v => k v
  | JsonRejected msg => Throw msg
  end.

Section Provider.
(** [process.env.REACT_APP_API_URL || 'http://localhost:8000'] *)
Variable API_BASE : string.
(** The [state] of the render whose closures are being called. *)
Variable state : State.

Definition createSession (sessionData : JsVal) : Op JsVal :=
  Dispatch (SET_LOADING true)
    (try_catch
       (fetch_ok (mkRequest "POST" (API_BASE +:+ "/api/sessions") (JsonBody sessionData))
          "Failed to create session"
          (λ json, json_of json (λ session,
             Dispatch (CREATE_SESSION session) (Ret session))))
       report).

Definition getSession (sessionId : string) : Op JsVal :=
  Dispatch (SET_LOADING true)
    (try_catch
       (fetch_ok (mkRequest "GET" (API_BASE +:+ "/api/sessions/" +:+ sessionId) NoBody)
          "Failed to fetch session"
          (λ json, json_of json (λ session,
             Dispatch (SET_CURRENT_SESSION session) (Ret session))))
       report).

Definition startTracking : Op bool :=
  try_catch
    (fetch_ok (mkRequest "POST" (API_BASE +:+ "/api/tracking/start")
                 (StartBody (selectedSport state) (settings state)))
       "Failed to start tracking"
       (λ _, Dispatch (SET_TRACKING true) (Ret true)))
    report.

Definition stopTracking : Op bool :=
  try_catch
    (fetch_ok (mkRequest "POST" (API_BASE +:+ "/api/tracking/stop") NoBody)
       "Failed to stop tracking"
       (λ _, Dispatch (SET_TRACKING false) (Ret true)))
    report.

Definition getAnalytics (sessionId : string) : Op JsVal :=
  try_catch
    (fetch_ok (mkRequest "GET" (API_BASE +:+ "/api/analytics/session/" +:+ sessionId) NoBody)
       "Failed to fetch analytics"
       (λ json, json_of json (λ analytics, Ret analytics)))
    report.

Definition updateSettings (newSettings : gmap string JsVal) : Op unit :=
  Dispatch (UPDATE_SETTINGS newSettings) (Ret tt).

Definition setSelectedSport (sport : string) : Op unit :=
  Dispatch (SET_SELECTED_SPORT sport) (Ret tt).

Definition updateStats (stats : gmap string JsVal) : Op unit :=
  Dispatch (UPDATE_STATS stats) (Ret tt).

Definition clearError : Op unit :=
  Dispatch (SET_ERROR None) (Ret tt).
End Provider.

(** How a run ends. *)
Inductive Outcome (R : Type) : Type :=
| Returned (r : R)
| Thrown (msg : string)
| Crashed.
Arguments Returned {R} r.
Arguments Thrown {R} msg.
Arguments Crashed {R}.

(** What a run does, in order. *)
Inductive Obs : Type :=
| Requested (req : Request)
| Dispatched (a : Action).

Record Run (R : Type) : Type := mkRun {
  run_trace : list Obs;
  run_state : State;
  run_outcome : Outcome R
}.
Arguments mkRun {R}.
Arguments run_trace {R}.
Arguments run_state {R}.
Arguments run_outcome {R}.

(** Executes an operation: every dispatch goes through [sessionReducer] on the
    store's state at that moment, every fetch is answered by [server].  A
    reducer that raises stops the run ([Crashed]) with the last good state. *)
Fixpoint run {R} (server : Request → FetchOutcome) (m : Op R) (st : State)
  : Run R :=
  match m with
  | Ret r => mkRun [] st (Returned r)
  | Throw msg => mkRun [] st (Thrown msg)
  | Dispatch a k =>
      match sessionReducer st a with
      | Some st' =>
          let r := run server k st' in
          mkRun (Dispatched a :: run_trace r) (run_state r) (run_outcome r)
      | None => mkRun [Dispatched a] st Crashed
      end
  | Fetch req k =>
      let r := run server (k (server req)) st in
      mkRun (Requested req :: run_trace r) (run_state r) (run_outcome r)
  end.

Definition requests {R} (r : Run R) : list Request :=
  omap (λ o, match o with Requested q => Some q | Dispatched _ => None end)
       (run_trace r).

Definition dispatched {R} (r : Run R) : list Action :=
  omap (λ o, match o with Dispatched a => Some a | Requested _ => None end)
       (run_trace r).

End Api.
Export Api.

(** ** JSON text

    [JSON.stringify] on the values the program sends, and a reference decoder
    for the text it emits.  Both cover the same fragment: [null], booleans,
    integers, strings, arrays and objects.  A number with a fractional part
    has no rational-to-decimal printer here and is outside the fragment
    ([None]); so is a top-level [undefined], for which JavaScript returns no
    string at all. *)

Module Json.

#[local] Open Scope nat_scope.

Definition dquote : ascii := "034"%char.
Definition backslash : ascii := "\"%char.

Definition hex_digit (n : nat) : ascii :=
  if n <? 10 then ascii_of_nat (48 + n) else ascii_of_nat (87 + n).

(** One character of a string literal, escaped as [JSON.stringify] does. *)
Definition escape_char (c : ascii) : string :=
  let n := nat_of_ascii c in
  if n =? 34 then String backslash (String dquote "")
  else if n =? 92 then String backslash (String backslash "")
  else if n =? 8 then String backslash "b"
  else if n =? 9 then String backslash "t"
  else if n =? 10 then String backslash "n"
  else if n =? 12 then String backslash "f"
  else if n =? 13 then String backslash "r"
  else if n <? 32 then
    String backslash
      (String "u" (String "0" (String "0"
         (String (hex_digit (n / 16)) (String (hex_digit (n mod 16)) "")))))
  else String c "".

Fixpoint escape (s : string) : string :=
  match s with
  | EmptyString => ""
  | String c rest => escape_char c +:+ escape rest
  end.

Definition quote (s : string) : string :=
  String dquote (escape s +:+ String dquote "").

Fixpoint join_comma (parts : list string) : string :=
  match parts with
  | [] => ""
  | [p] => p
  | p :: rest => p +:+ "," +:+ join_comma rest
  end.

(** The integer a number denotes, when it is one that JavaScript prints in
    plain decimal digits (magnitude below [10^21]). *)
Definition integer_of (q : Qc) : option Z :=
  match this q with
  | Qmake n 1 => if (Z.abs n <? 10 ^ 21)%Z then Some n else None
  | _ => None
  end.

Fixpoint JSON_stringify (v : JsVal) : option string :=
  match v with
  | JUndefined => None
  | JNull => Some "null"
  | JBool true => Some "true"
  | JBool false => Some "false"
  | JNum q => pretty <$> integer_of q
  | JStr s => Some (quote s)
  | JArr items =>
      let fix elems (l : list JsVal) : option (list string) :=
        match l with
        | [] => Some []
        | x :: rest =>
            s ← match x with JUndefined => Some "null" | _ => JSON_stringify x end;
            ss ← elems rest;
            Some (s :: ss)
        end in
      parts ← elems items;
      Some ("[" +:+ join_comma parts +:+ "]")
  | JObj fields =>
      let fix members (l : list (string * JsVal)) : option (list string) :=
        match l with
        | [] => Some []
        | (k, x) :: rest =>
            match x with
            | JUndefined => members rest
            | _ =>
                s ← JSON_stringify x;
                ss ← members rest;
                Some ((quote k +:+ ":" +:+ s) :: ss)
            end
        end in
      parts ← members fields;
      Some ("{" +:+ join_comma parts +:+ "}")
  end.

(** *** The decoder *)

Definition is_ws (c : ascii) : bool :=
  let n := nat_of_ascii c in
  (n =? 32) || (n =? 9) || (n =? 10) || (n =? 13).

Fixpoint skip_ws (s : string) : string :=
  match s with
  | String c rest => if is_ws c then skip_ws rest else s
  | EmptyString => s
  end.

Definition digit_of (c : ascii) : option nat :=
  let n := nat_of_ascii c in
  if (48 <=? n) && (n <=? 57) then Some (n - 48) else None.

Definition hex_of (c : ascii) : option nat :=
  let n := nat_of_ascii c in
  if (48 <=? n) && (n <=? 57) then Some (n - 48)
  else if (97 <=? n) && (n <=? 102) then Some (n - 87)
  else if (65 <=? n) && (n <=? 70) then Some (n - 55)
  else None.

(** Strips [lit] from the front of [s]. *)
Fixpoint expect (lit s : string) : option string :=
  match lit, s with
  | EmptyString, _ => Some s
  | String a lit', String b s' => if Ascii.eqb a b then expect lit' s' else None
  | String _ _, EmptyString => None
  end.

(** The body of a string literal, after the opening quote: the decoded
    characters and the text after the closing quote. *)
Fixpoint string_body (s : string) : option (string * string) :=
  match s with
  | EmptyString => None
  | String c rest =>
      if Ascii.eqb c dquote then Some ("", rest)
      else if Ascii.eqb c backslash then
        match rest with
        | String e rest' =>
            let plain (ch : ascii) :=
              '(body, tail) ← string_body rest'; Some (String ch body, tail) in
            if Ascii.eqb e dquote then plain dquote
            else if Ascii.eqb e backslash then plain backslash
            else if Ascii.eqb e "/" then plain "/"%char
            else if Ascii.eqb e "b" then plain (ascii_of_nat 8)
            else if Ascii.eqb e "t" then plain (ascii_of_nat 9)
            else if Ascii.eqb e "n" then plain (ascii_of_nat 10)
            else if Ascii.eqb e "f" then plain (ascii_of_nat 12)
            else if Ascii.eqb e "r" then plain (ascii_of_nat 13)
            else if Ascii.eqb e "u" then
              match rest' with
              | String h1 (String h2 (String h3 (String h4 rest''))) =>
                  a ← hex_of h1; b ← hex_of h2; c' ← hex_of h3; d ← hex_of h4;
                  let code := ((a * 16 + b) * 16 + c') * 16 + d in
                  if code <? 256 then
                    '(body, tail) ← string_body rest'';
                    Some (String (ascii_of_nat code) body, tail)
                  else None
              | _ => None
              end
            else None
        | EmptyString => None
        end
      else if nat_of_ascii c <? 32 then None
      else '(body, tail) ← string_body rest; Some (String c body, tail)
  end.

(** A run of decimal digits, most significant first. *)
Fixpoint digits (acc : Z) (s : string) : Z * string :=
  match s with
  | String c rest =>
      match digit_of c with
      | Some d => digits (acc * 10 + Z.of_nat d) rest
      | None => (acc, s)
      end
  | EmptyString => (acc, s)
  end.

Definition starts_with_digit (s : string) : bool :=
  match s with
  | String c _ => bool_decide (is_Some (digit_of c))
  | EmptyString => false
  end.

(** An integer literal; a fraction or an exponent after it is outside the
    fragment. *)
Definition integer (s : string) : option (JsVal * string) :=
  let '(neg, s') :=
    match s with
    | String "-" rest => (true, rest)
    | _ => (false, s)
    end in
  if starts_with_digit s' then
    let '(n, rest) := digits 0 s' in
    match rest with
    | String "." _ | String "e" _ | String "E" _ => None
    | _ => Some (JNum (Qc_of_Z (if neg then - n else n)), rest)
    end
  else None.

(** Recursive descent with fuel; [JSON_parse] supplies enough of it. *)
Fixpoint value (fuel : nat) (s : string) : option (JsVal * string) :=
  match fuel with
  | 0 => None
  | S fuel' =>
      match skip_ws s with
      | EmptyString => None
      | String c rest =>
          if Ascii.eqb c "n" then rest' ← expect "ull" rest; Some (JNull, rest')
          else if Ascii.eqb c "t" then rest' ← expect "rue" rest; Some (JBool true, rest')
          else if Ascii.eqb c "f" then rest' ← expect "alse" rest; Some (JBool false, rest')
          else if Ascii.eqb c dquote then
            '(str, tail) ← string_body rest; Some (JStr str, tail)
          else if Ascii.eqb c "[" then
            match skip_ws rest with
            | String "]" tail => Some (JArr [], tail)
            | _ => '(items, tail) ← elements fuel' rest; Some (JArr items, tail)
            end
          else if Ascii.eqb c "{" then
            match skip_ws rest with
            | String "}" tail => Some (JObj [], tail)
            | _ => '(fields, tail) ← members fuel' rest; Some (JObj fields, tail)
            end
          else integer (String c rest)
      end
  end
with elements (fuel : nat) (s : string) : option (list JsVal * string) :=
  match fuel with
  | 0 => None
  | S fuel' =>
      '(v, rest) ← value fuel' s;
      match skip_ws rest with
      | String "," tail => '(vs, tail') ← elements fuel' tail; Some (v :: vs, tail')
      | String "]" tail => Some ([v], tail)
      | _ => None
      end
  end
with members (fuel : nat) (s : string) : option (list (string * JsVal) * string) :=
  match fuel with
  | 0 => None
  | S fuel' =>
      match skip_ws s with
      | String c rest =>
          if Ascii.eqb c dquote then
            '(k, rest1) ← string_body rest;
            match skip_ws rest1 with
            | String ":" rest2 =>
                '(v, rest3) ← value fuel' rest2;
                match skip_ws rest3 with
                | String "," tail =>
                    '(ms, tail') ← members fuel' tail; Some ((k, v) :: ms, tail')
                | String "}" tail => Some ([(k, v)], tail)
                | _ => None
                end
            | _ => None
            end
          else None
      | EmptyString => None
      end
  end.

(** Decodes a whole text: one value, then only white space. *)
Definition JSON_parse (s : string) : option JsVal :=
  '(v, rest) ← value (2 * String.length s + 2) s;
  match skip_ws rest with
  | EmptyString => Some v
  | String _ _ => None
  end.

End Json.
Export Json.


(** ** The event-stream connection ([contexts/WebSocketContext.js]) *)

Module Conn.

#[local] Open Scope nat_scope.

Definition MAX_RECONNECT_ATTEMPTS : nat := 5.
Definition RECONNECT_DELAY : nat := 3000.

(** The React state of the provider.  [socket] holds the identity of a
    [WebSocket] object: its rank among the sockets created so far. *)
Record WsState : Type := mkWs {
  socket : option nat;
  isConnected : bool;
  reconnectAttempts : nat;
  lastMessage : JsVal;
  connectionError : option string;
  sessionId : string
}.

(** What the provider asks of the browser. *)
Inductive Effect : Type :=
| NewWebSocket (url : string)
| SocketSend (sock : nat) (payload : string)
| SocketClose (sock : nat) (code : nat) (reason : string)
| SetTimeout (delay : nat).

(** The provider together with what lives outside its React state.

    - [sockets]: one entry per socket created; the entry is the value of
      [reconnectAttempts] that the handlers of that socket read.  The handlers
      are closures made by one call of [connect], and [connect] reads
      [reconnectAttempts] from the render that made it.
    - [timers]: the pending reconnect timers, oldest first; the entry is the
      [reconnectAttempts] of the [connect] the timer will call again, since
      the callback names [connect] in the scope of the render that made it.
    - [frames]: how many inbound frames have been stored in [lastMessage];
      it stands for the identity of the stored object.
    - [effects]: the requests made to the browser, oldest first.
    - [opened]: the sockets whose [open] event the browser has fired, that
      is, those no longer in the [CONNECTING] state. *)
Record World : Type := mkWorld {
  react : WsState;
  sockets : list nat;
  timers : list nat;
  frames : nat;
  effects : list Effect;
  opened : gset nat
}.

(** What the browser supplies to a call of [connect]: the persisted session
    id ([localStorage.getItem('current_session_id')]) and whether the
    [WebSocket] constructor accepts the URL. *)
Record ConnectEnv : Type := mkEnv {
  stored_id : option string;
  accepts : bool
}.

Definition initialWs (stored : option string) : WsState := {|
  socket := None;
  isConnected := false;
  reconnectAttempts := 0;
  lastMessage := JNull;
  connectionError := None;
  sessionId := match stored with
               | Some s => if String.eqb s "" then "default" else s
               | None => "default"
               end
|}.

Definition initialWorld (stored : option string) : World :=
  mkWorld (initialWs stored) [] [] 0 [] ∅.

(** [localStorage.getItem('current_session_id') || sessionId], read at each
    call. *)
Definition getWsUrl (stored : option string) (sessionId : string) : string :=
  "ws://localhost:8000/ws/" +:+
  match stored with
  | Some s => if String.eqb s "" then sessionId else s
  | None => sessionId
  end.

Definition set_react (w : World) (r : WsState) : World :=
  mkWorld r (sockets w) (timers w) (frames w) (effects w) (opened w).

Definition emit (w : World) (e : Effect) : World :=
  mkWorld (react w) (sockets w) (timers w) (frames w) (effects w ++ [e]) (opened w).

(** [connect], as made by a render in which [reconnectAttempts] was
    [captured].  It creates a socket whose handlers read that same value; a
    constructor that throws sets the connection error instead.

    The dependency list of the [useCallback] that makes [connect] is
    [[WS_URL, reconnectAttempts]]; the module binds no [WS_URL].  The embedding
    follows the body of the callback and takes the list to mean that a render
    makes a new [connect] whenever [reconnectAttempts] has changed. *)
Definition connect (captured : nat) (env : ConnectEnv) (w : World) : World :=
  let wsUrl := getWsUrl (stored_id env) (sessionId (react w)) in
  if accepts env then
    mkWorld (react w) (sockets w ++ [captured]) (timers w) (frames w)
            (effects w ++ [NewWebSocket wsUrl]) (opened w)
  else
    let r := react w in
    set_react w (mkWs (socket r) (isConnected r) (reconnectAttempts r)
                      (lastMessage r) (Some "Unable to establish connection")
                      (sessionId r)).

(** [ws.onopen] of socket [ws]. *)
Definition onopen (ws : nat) (w : World) : World :=
  let r := react w in
  set_react w (mkWs (Some ws) true 0 (lastMessage r) None (sessionId r)).

(** [ws.onmessage].  [parsed] is what [JSON.parse(event.data)] produced:
    [None] when it threw. *)
Definition onmessage (parsed : option JsVal) (w : World) : World :=
  match parsed with
  | Some data =>
      let r := react w in
      mkWorld (mkWs (socket r) (isConnected r) (reconnectAttempts r) data
                    (connectionError r) (sessionId r))
              (sockets w) (timers w) (S (frames w)) (effects w) (opened w)
  | None => w
  end.

(** [ws.onclose] of a socket whose handlers read [captured]. *)
Definition onclose (captured : nat) (code : nat) (w : World) : World :=
  let r := react w in
  let r' := mkWs None false (reconnectAttempts r) (lastMessage r)
                 (connectionError r) (sessionId r) in
  if negb (code =? 1000) && (captured <? MAX_RECONNECT_ATTEMPTS) then
    mkWorld r' (sockets w) (timers w ++ [captured]) (frames w)
            (effects w ++ [SetTimeout RECONNECT_DELAY]) (opened w)
  else set_react w r'.

(** [ws.onerror] *)
Definition onerror (w : World) : World :=
  let r := react w in
  set_react w (mkWs (socket r) (isConnected r) (reconnectAttempts r)
                    (lastMessage r) (Some "Failed to connect to tracking service")
                    (sessionId r)).

(** The callback of a reconnect timer:
    [setReconnectAttempts(prev => prev + 1); connect()]. *)
Definition reconnect (captured : nat) (env : ConnectEnv) (w : World) : World :=
  let r := react w in
  connect captured env
    (set_react w (mkWs (socket r) (isConnected r) (S (reconnectAttempts r))
                       (lastMessage r) (connectionError r) (sessionId r))).

(** [disconnect], as made by a render in which [socket] was [sock]. *)
Definition disconnect (sock : option nat) (w : World) : World :=
  match sock with
  | Some ws => emit w (SocketClose ws 1000 "Manual disconnect")
  | None => w
  end.

(** [socket.send(data)] throws on a socket that is still connecting
    ([InvalidStateError]) and takes the data otherwise; a socket that has
    closed takes it too, and the browser discards it. *)
Definition socket_send (ws : nat) (data : string) (w : World) : option World :=
  if bool_decide (ws ∈ opened w) then Some (emit w (SocketSend ws data)) else None.

(** [sendMessage], as made by a render in which [socket] and [isConnected]
    were [sock] and [connected]; the [catch] block answers a [send] that
    threw.  The result is [None] for a message outside the fragment
    [JSON_stringify] covers. *)
Definition sendMessage (sock : option nat) (connected : bool)
    (message : JsVal) (w : World) : option (bool * World) :=
  match sock with
  | Some ws =>
      if connected then
        payload ← JSON_stringify message;
        Some (match socket_send ws payload w with
              | Some w' => (true, w')
              | None => (false, w)
              end)
      else Some (false, w)
  | None => Some (false, w)
  end.

End Conn.
Export Conn.

(** *** Runs of the connection

    The browser and the consumers drive the provider through events.  A
    consumer that calls [connect], [disconnect] or [sendMessage] calls the
    closure of the current render, which captured the current state.  The
    browser fires the [open] event of a socket once it has left the
    [CONNECTING] state. *)

Module ConnRun.

Inductive Event : Type :=
| Connect (env : ConnectEnv)
| Open (ws : nat)
| Message (ws : nat) (parsed : option JsVal)
| Close (ws : nat) (code : nat)
| Error (ws : nat)
| Timer (env : ConnectEnv)
| Disconnect
| Send (message : JsVal).

Definition step (w : World) (e : Event) : World :=
  match e with
  | Connect env => connect (reconnectAttempts (react w)) env w
  | Open ws =>
      match sockets w !! ws with
      | Some _ =>
          onopen ws (mkWorld (react w) (sockets w) (timers w) (frames w)
                             (effects w) ({[ws]} ∪ opened w))
      | None => w
      end
  | Message ws parsed =>
      match sockets w !! ws with Some _ => onmessage parsed w | None => w end
  | Close ws code =>
      match sockets w !! ws with Some captured => onclose captured code w | None => w end
  | Error ws =>
      match sockets w !! ws with Some _ => onerror w | None => w end
  | Timer env =>
      match timers w with
      | captured :: rest =>
          reconnect captured env
            (mkWorld (react w) (sockets w) rest (frames w) (effects w) (opened w))
      | [] => w
      end
  | Disconnect => disconnect (socket (react w)) w
  | Send message =>
      match sendMessage (socket (react w)) (isConnected (react w)) message w with
      | Some (_, w') => w'
      | None => w
      end
  end.

Definition run_events (evs : list Event) (w : World) : World :=
  fold_left step evs w.

(** The provider after its mount effect has called [connect]. *)
Definition mounted (env : ConnectEnv) : World :=
  step (initialWorld (stored_id env)) (Connect env).

Definition reachable (w : World) : Prop :=
  ∃ env evs, w = run_events evs (mounted env).

(** The reconnect attempts scheduled so far, each with its delay. *)
Definition scheduled (w : World) : list nat :=
  omap (λ e, match e with SetTimeout delay => Some delay | _ => None end) (effects w).

(** The frames handed to the transport so far. *)
Definition transmitted (w : World) : list (nat * string) :=
  omap (λ e, match e with SocketSend ws p => Some (ws, p) | _ => None end) (effects w).

(** Closures in a row.  Socket [first] closes with the first code, after a
    transport error when the flag says so; its reconnect timer fires and
    creates the next socket, which closes with the next code, and so on. *)
Fixpoint closures (first : nat) (env : ConnectEnv) (cs : list (bool * nat))
  : list Event :=
  match cs with
  | [] => []
  | (errored, code) :: rest =>
      (if errored then [Error first] else []) ++
      Close first code :: Timer env :: closures (S first) env rest
  end.

End ConnRun.
Export ConnRun.

(** ** The live tracker ([components/RealTimeTracker.js]) *)

Module Tracker.

Record NewAction : Type := mkNewAction {
  na_id : Z;
  na_type : JsVal;
  na_successful : JsVal;
  na_confidence : JsVal;
  na_timestamp : Z;
  na_details : JsVal
}.

Record PerformanceData : Type := mkPerf {
  streak : nat;
  lastAction : option NewAction;
  sessionActions : nat;
  sessionSuccesses : nat
}.

(** The component's own state.  [feedbackTimers] counts the pending timers
    that will clear [currentFeedback]. *)
Record Local : Type := mkLocal {
  cameraActive : JsVal;
  recentActions : list NewAction;
  currentFeedback : JsVal;
  performanceData : PerformanceData;
  feedbackTimers : nat
}.

Definition initialLocal : Local := {|
  cameraActive := JBool false;
  recentActions := [];
  currentFeedback := JNull;
  performanceData := mkPerf 0 None 0 0;
  feedbackTimers := 0
|}.

(** The object handed to [updateStats] by [handleActionDetected], computed
    from the [stats] of the render that made the handler, each operation
    being the binary64 one.  [None] when an operand or a result is not a
    finite number ([NaN], an infinity, or a value [to_number] leaves out). *)
Definition aggregate (stats : gmap string JsVal) (successful confidence : JsVal)
  : option (gmap string JsVal) :=
  total ← to_number (stats !! "totalActions");
  successes ← to_number (stats !! "successfulActions");
  average ← to_number (stats !! "averageScore");
  conf ← to_number (Some confidence);
  let inc : Qc := if truthy successful then 1%Qc else 0%Qc in
  total' ← Binary64.add total 1%Qc;
  successes' ← Binary64.add successes inc;
  ratio ← Binary64.div successes' total';
  rate ← Binary64.mul ratio (Qc_of_Z 100);
  weighted ← Binary64.mul average total;
  sum ← Binary64.add weighted conf;
  mean ← Binary64.div sum total';
  Some ({[ "totalActions" := JNum total';
           "successfulActions" := JNum successes';
           "successRate" := JNum rate;
           "averageScore" := JNum mean ]} : gmap string JsVal).

(** [handleActionDetected(actionData)] of a render whose [stats] is the first
    argument.  [now] is the clock reading behind [Date.now()] and
    [new Date()].  It yields the component's next state and the payload it
    passes to [updateStats]; [None] when [actionData] is [null] or
    [undefined] (a [TypeError]) or when [aggregate] has no value. *)
Definition handleActionDetected (stats : gmap string JsVal) (actionData : JsVal)
    (now : Z) (t : Local) : option (Local * gmap string JsVal) :=
  action ← get actionData "action";
  let newAction := {|
    na_id := now;
    na_type := action;
    na_successful := prop actionData "successful";
    na_confidence := prop actionData "confidence";
    na_timestamp := now;
    na_details := js_or (prop actionData "details") (JObj [])
  |} in
  let prev := performanceData t in
  let ok := truthy (na_successful newAction) in
  payload ← aggregate stats (na_successful newAction) (na_confidence newAction);
  Some ({| cameraActive := cameraActive t;
           recentActions := newAction :: take 9 (recentActions t);
           currentFeedback := currentFeedback t;
           performanceData := {|
             streak := if ok then S (streak prev) else 0;
             lastAction := Some newAction;
             sessionActions := S (sessionActions prev);
             sessionSuccesses := sessionSuccesses prev + (if ok then 1 else 0)
           |};
           feedbackTimers := feedbackTimers t |},
        payload).

(** The consumer: its component state, the [stats] its current render read
    from the store, and the store itself. *)
Record Consumer : Type := mkConsumer {
  snapshot : gmap string JsVal;
  local : Local;
  store : State
}.

Definition initialConsumer : Consumer :=
  mkConsumer (stats initialState) initialLocal initialState.

(** A re-render: the closures of the component now read the store's [stats]. *)
Definition render (c : Consumer) : Consumer :=
  mkConsumer (stats (store c)) (local c) (store c).

(** One call of the current render's [handleActionDetected]: the component
    state moves on and [updateStats] dispatches [UPDATE_STATS]. *)
Definition deliver (actionData : JsVal) (now : Z) (c : Consumer) : option Consumer :=
  '(t, payload) ← handleActionDetected (snapshot c) actionData now (local c);
  st ← sessionReducer (store c) (UPDATE_STATS payload);
  Some (mkConsumer (snapshot c) t st).

(** The body of the effect that watches [lastMessage]. *)
Definition onLastMessage (lastMessage : JsVal) (now : Z) (c : Consumer)
  : option Consumer :=
  if truthy lastMessage then
    let type := prop lastMessage "type" in
    let data := prop lastMessage "data" in
    if strict_eq type (JStr "action_detected") then deliver data now c
    else if strict_eq type (JStr "feedback") then
      let t := local c in
      Some (mkConsumer (snapshot c)
              (mkLocal (cameraActive t) (recentActions t) data
                       (performanceData t) (S (feedbackTimers t)))
              (store c))
    else if strict_eq type (JStr "camera_status") then
      active ← get data "active";
      let t := local c in
      Some (mkConsumer (snapshot c)
              (mkLocal active (recentActions t) (currentFeedback t)
                       (performanceData t) (feedbackTimers t))
              (store c))
    else Some c
  else Some c.

(** A schedule of the consumer: re-renders and calls of the handler. *)
Inductive Step : Type :=
| Render
| Deliver (actionData : JsVal) (now : Z).

Definition step (c : Consumer) (s : Step) : option Consumer :=
  match s with
  | Render => Some (render c)
  | Deliver actionData now => deliver actionData now c
  end.

Fixpoint schedule (steps : list Step) (c : Consumer) : option Consumer :=
  match steps with
  | [] => Some c
  | s :: rest => c' ← step c s; schedule rest c'
  end.

(** The payload of an [action_detected] frame, per the event contract. *)
Record ActionDetected : Type := mkActionDetected {
  ad_action : string;
  ad_successful : bool;
  ad_confidence : Qc;
  ad_details : JsVal
}.

Definition actionData (e : ActionDetected) : JsVal :=
  JObj [("action", JStr (ad_action e));
        ("successful", JBool (ad_successful e));
        ("confidence", JNum (ad_confidence e));
        ("details", ad_details e)].

(** The events all reach the handler of one and the same render. *)
Definition unobserved (events : list (ActionDetected * Z)) : list Step :=
  Render :: map (λ '(e, now), Deliver (actionData e) now) events.

Definition successes (events : list (ActionDetected * Z)) : nat :=
  length (filter (λ p, ad_successful (fst p) = true) events).

Definition confidences (events : list (ActionDetected * Z)) : list Qc :=
  map (λ p, ad_confidence (fst p)) events.

End Tracker.
Export Tracker.

(** ** The assembled application

    The provider publishes inbound frames through the single state cell
    [lastMessage]; the tracker reads it when it renders, and its effect runs
    when the stored object is a new one. *)

Module App.

Record App : Type := mkApp {
  conn : World;
  consumer : Consumer;
  handled : option nat
}.

(** The tracker is mounted on a provider in world [w]; its effect has not run
    yet. *)
Definition initialApp (w : World) : App :=
  mkApp w initialConsumer None.

Inductive AppStep : Type :=
| Frame (ws : nat) (parsed : option JsVal)
| Rerender (now : Z).

(** A frame goes to the handler of its socket.  A render gives the tracker's
    closures the store's current [stats]; its effect then runs if
    [lastMessage] is not the object the effect last ran for ([handled] is the
    frame count at that time), and always after the first render. *)
Definition app_step (a : App) (s : AppStep) : option App :=
  match s with
  | Frame ws parsed =>
      Some (mkApp (ConnRun.step (conn a) (Message ws parsed)) (consumer a) (handled a))
  | Rerender now =>
      let c := render (consumer a) in
      if bool_decide (handled a = Some (frames (conn a)))
      then Some (mkApp (conn a) c (handled a))
      else
        c' ← onLastMessage (lastMessage (react (conn a))) now c;
        Some (mkApp (conn a) c' (Some (frames (conn a))))
  end.

Fixpoint app_run (steps : list AppStep) (a : App) : option App :=
  match steps with
  | [] => Some a
  | s :: rest => a' ← app_step a s; app_run rest a'
  end.

(** The frame that carries one detected action. *)
Definition action_frame (e : ActionDetected) : JsVal :=
  JObj [("type", JStr "action_detected"); ("data", actionData e)].

(** Every event arrives on socket [ws] and is seen by a render of the tracker
    before the next one arrives. *)
Definition arrivals (ws : nat) (events : list (ActionDetected * Z)) : list AppStep :=
  flat_map (λ '(e, now), [Frame ws (Some (action_frame e)); Rerender now]) events.

(** The events arrive on socket [ws] one after the other, and the tracker
    renders once, at [now], after the last. *)
Definition burst (ws : nat) (events : list (ActionDetected * Z)) (now : Z)
  : list AppStep :=
  map (λ '(e, _), Frame ws (Some (action_frame e))) events ++ [Rerender now].

(** The commands the tracker sends: the object literals of
    [handleStartTracking] and [handleStopTracking]. *)
Inductive CameraAction : Type := start | stop.

Inductive OutboundCommand : Type :=
| CameraControl (action : CameraAction).

Definition command_message (cmd : OutboundCommand) : JsVal :=
  match cmd with
  | CameraControl start =>
      JObj [("type", JStr "camera_control"); ("action", JStr "start")]
  | CameraControl stop =>
      JObj [("type", JStr "camera_control"); ("action", JStr "stop")]
  end.

Section Handlers.
Variable API_BASE : string.
Variable server : Request → FetchOutcome.

Definition send_command (cmd : OutboundCommand) (w : World) : World :=
  match sendMessage (socket (react w)) (isConnected (react w))
          (command_message cmd) w with
  | Some (_, w') => w'
  | None => w
  end.

(** [await startTracking(); sendMessage({...})], failures logged. *)
Definition handleStartTracking (a : App) : App :=
  let c := consumer a in
  let r := run server (startTracking API_BASE (store c)) (store c) in
  let c' := mkConsumer (snapshot c) (local c) (run_state r) in
  match run_outcome r with
  | Returned _ => mkApp (send_command (CameraControl start) (conn a)) c' (handled a)
  | _ => mkApp (conn a) c' (handled a)
  end.

(** [await stopTracking(); sendMessage({...}); setCameraActive(false)] *)
Definition handleStopTracking (a : App) : App :=
  let c := consumer a in
  let r := run server (stopTracking API_BASE) (store c) in
  match run_outcome r with
  | Returned _ =>
      let t := local c in
      mkApp (send_command (CameraControl stop) (conn a))
            (mkConsumer (snapshot c)
               (mkLocal (JBool false) (recentActions t) (currentFeedback t)
                        (performanceData t) (feedbackTimers t))
               (run_state r))
            (handled a)
  | _ => mkApp (conn a) (mkConsumer (snapshot c) (local c) (run_state r)) (handled a)
  end.
End Handlers.

(** The vocabulary of the design: the two-valued flags of the program seen as
    the states of the specification.  The program has no cell for an attempt
    in flight, so [Connecting], [Starting] and [Stopping] are never
    reported. *)
Inductive ConnectionState : Type := Disconnected | Connecting | Connected.

Definition connectionState (w : World) : ConnectionState :=
  if isConnected (react w) then Connected else Disconnected.

Inductive TrackingState : Type := Idle | Starting | Active | Stopping.

Definition trackingState (st : State) : TrackingState :=
  if isTracking st then Active else Idle.

End App.
Export App.

(** * The callers of the store and of the connection

    The components that invoke the operations above: the session manager,
    the navigation bar, the settings panel, the analytics page, and the
    remounting of the tracker. *)

(** ** Sequences of awaited operations *)

Module Seq.

(** [const a = await m; k(a)] inside one [async] function: a throw of [m]
    skips [k]. *)
Fixpoint bind {A B} (m : Op A) (k : A → Op B) : Op B :=
  match m with
  | Ret a => k a
  | Throw msg => Throw msg
  | Dispatch a m' => Dispatch a (bind m' k)
  | Fetch req f => Fetch req (λ o, bind (f o) k)
  end.

(** [await m;] with the result dropped. *)
Definition await {A} (m : Op A) : Op unit := bind m (λ _, Ret tt).

(** [try { body } catch (error) { console.error(...) }]: the failure is
    logged and the function returns normally. *)
Definition logged (body : Op unit) : Op unit := try_catch body (λ _, Ret tt).

End Seq.

(** ** The session manager ([components/SessionManager.js]) *)

Module SessionManager.

Section Component.
(** [API_BASE] and [state] are those of the render whose closures run;
    [template] is the conversion a template literal applies to the session
    id it embeds in the URL. *)
Variable API_BASE : string.
Variable state : State.
Variable template : JsVal → string.

(** [handleStartTracking(sessionId)]: fetch the session first unless it is
    the current one, then start. *)
Definition handleStartTracking (sessionId : JsVal) : Op unit :=
  Seq.logged
    (Seq.bind
       (if truthy sessionId &&
           negb (strict_eq sessionId (get_opt (currentSession state) "id"))
        then Seq.await (getSession API_BASE (template sessionId))
        else Ret tt)
       (λ _, Seq.await (startTracking API_BASE state))).

(** [handleStopTracking()] *)
Definition handleStopTracking : Op unit :=
  Seq.logged (Seq.await (stopTracking API_BASE)).

End Component.

End SessionManager.

(** ** The navigation bar ([components/Navigation.js]) *)

Module Navigation.

Section Component.
Variable API_BASE : string.
Variable state : State.

(** [handleTrackingToggle()]: stop when the render saw tracking on, start
    otherwise; a failure is logged. *)
Definition handleTrackingToggle : Op unit :=
  Seq.logged
    (if isTracking state
     then Seq.await (stopTracking API_BASE)
     else Seq.await (startTracking API_BASE state)).

End Component.

End Navigation.

(** ** The settings panel ([components/SettingsPanel.js]) *)

Module Panel.

(** The own enumerable properties an object spread copies from a value:
    the fields of an object, the indexed elements of an array, the indexed
    characters of a string, nothing for the other values. *)
Definition spread_fields (v : JsVal) : list (string * JsVal) :=
  match v with
  | JObj fields => fields
  | JArr items => imap (λ i x, (pretty i, x)) items
  | JStr s =>
      imap (λ i ch, (pretty i, JStr (String ch EmptyString)))
           (String.list_ascii_of_string s)
  | _ => []
  end.

(** [{ ...fields, [k]: v }] on the ordered fields of an object: a key that is
    present keeps its place and takes the new value, a new key goes last. *)
Fixpoint obj_assign (fields : list (string * JsVal)) (k : string) (v : JsVal)
  : list (string * JsVal) :=
  match fields with
  | [] => [(k, v)]
  | (k', v') :: rest =>
      if String.eqb k k' then (k, v) :: rest
      else (k', v') :: obj_assign rest k v
  end.

(** The settings the panel starts from and resets to. *)
Definition defaultSettings : gmap string JsVal :=
  list_to_map
    [("feedbackTypes", JArr [JStr "audio"; JStr "visual"]);
     ("sensitivity", JNum (Q2Qc (7 # 10)));
     ("minConfidence", JNum (Q2Qc (8 # 10)));
     ("cameraSource", JNum (Qc_of_Z 0));
     ("resolution", JStr "640x480");
     ("fps", JNum (Qc_of_Z 30));
     ("sportSettings",
      JObj [("basketball",
             JObj [("shotDetectionSensitivity", JNum (Q2Qc (8 # 10)));
                   ("minimumArcHeight", JNum (Q2Qc (3 # 10)));
                   ("basketPosition", JStr "auto")]);
            ("tennis",
             JObj [("serveDetectionSensitivity", JNum (Q2Qc (7 # 10)));
                   ("minimumRacketSpeed", JNum (Qc_of_Z 15));
                   ("courtPosition", JStr "baseline")]);
            ("soccer",
             JObj [("kickDetectionSensitivity", JNum (Q2Qc (6 # 10)));
                   ("minimumBallSpeed", JNum (Qc_of_Z 10));
                   ("goalPosition", JStr "auto")]);
            ("golf",
             JObj [("swingDetectionSensitivity", JNum (Q2Qc (8 # 10)));
                   ("minimumClubSpeed", JNum (Qc_of_Z 20));
                   ("ballPosition", JStr "tee")])]);
     ("audioVolume", JNum (Q2Qc (8 # 10)));
     ("successSound", JStr "cheer");
     ("failureSound", JStr "buzzer");
     ("showPoseOverlay", JBool true);
     ("showConfidenceScore", JBool true);
     ("overlayOpacity", JNum (Q2Qc (7 # 10)));
     ("hapticEnabled", JBool false);
     ("hapticIntensity", JNum (Q2Qc (5 # 10)));
     ("processingQuality", JStr "medium");
     ("maxFPS", JNum (Qc_of_Z 30));
     ("saveRawData", JBool false);
     ("autoExport", JBool false);
     ("dataRetentionDays", JNum (Qc_of_Z 30))].

(** The state of the component.  [statusTimers] counts the pending timers
    that will clear [saveStatus]. *)
Record Panel : Type := mkPanel {
  localSettings : gmap string JsVal;
  hasChanges : bool;
  saveStatus : option string;
  statusTimers : nat
}.

Definition initialPanel : Panel := mkPanel defaultSettings false None 0.

(** The effect that watches the store's [settings]:
    [setLocalSettings(prev => ({ ...prev, ...settings }))].  It runs at mount
    and after every change of the store's settings. *)
Definition sync (settings : gmap string JsVal) (p : Panel) : Panel :=
  mkPanel (spread (localSettings p) settings) (hasChanges p) (saveStatus p)
          (statusTimers p).

(** The updater inside [handleSettingChange(category, setting, value)].
    [category] is [null] or a property name; the empty name is as good as
    [null]. *)
Definition change (category : option string) (setting : string) (value : JsVal)
    (prev : gmap string JsVal) : gmap string JsVal :=
  match category with
  | Some c =>
      if String.eqb c "" then <[setting := value]> prev
      else
        <[c := JObj (obj_assign (spread_fields (default JUndefined (prev !! c)))
                                setting value)]> prev
  | None => <[setting := value]> prev
  end.

Definition handleSettingChange (category : option string) (setting : string)
    (value : JsVal) (p : Panel) : Panel :=
  mkPanel (change category setting value (localSettings p)) true (saveStatus p)
          (statusTimers p).

(** [currentTypes.includes(type)] on an array, for a string [type]. *)
Definition includes (items : list JsVal) (type : string) : bool :=
  existsb (λ x, strict_eq x (JStr type)) items.

(** The [newTypes] of [handleFeedbackTypeToggle(type)]. *)
Definition toggled (items : list JsVal) (type : string) : list JsVal :=
  if includes items type
  then List.filter (λ t, negb (strict_eq t (JStr type))) items
  else items ++ [JStr type].

(** [handleFeedbackTypeToggle(type)], as made by a render whose
    [localSettings] was [seen].  The list is read from [seen]; the update goes
    to the panel's current state.  [None] when [feedbackTypes] is not an
    array: JavaScript then raises, or takes a string for a sequence of
    characters, which is not modelled. *)
Definition handleFeedbackTypeToggle (seen : gmap string JsVal) (type : string)
    (p : Panel) : option Panel :=
  match seen !! "feedbackTypes" with
  | Some (JArr currentTypes) =>
      Some (handleSettingChange None "feedbackTypes"
              (JArr (toggled currentTypes type)) p)
  | _ => None
  end.

(** [handleSaveSettings()], as made by a render whose [localSettings] was
    [seen]: the store merges [seen], then the panel reports success.  The
    [catch] branch answers a rejected [updateSettings], which dispatches and
    cannot reject; it is kept for a reducer that raises.  [updateSettings]
    sends no request, so the server handed to [run] is never consulted. *)
Definition handleSaveSettings (seen : gmap string JsVal) (p : Panel) (st : State)
  : Panel * State :=
  let r := run (λ _, FetchRejected "") (updateSettings seen) st in
  match run_outcome r with
  | Returned _ =>
      (mkPanel (localSettings p) false (Some "success") (S (statusTimers p)),
       run_state r)
  | _ =>
      (mkPanel (localSettings p) (hasChanges p) (Some "error") (S (statusTimers p)),
       run_state r)
  end.

(** [handleResetSettings()] *)
Definition handleResetSettings (p : Panel) : Panel :=
  mkPanel defaultSettings true (saveStatus p) (statusTimers p).

End Panel.

(** ** The analytics page ([components/Analytics.js]) *)

Module Analytics.

(** One point of the timeline built by [aggregateSessionData]. *)
Record TimelinePoint : Type := mkPoint {
  date : string;
  actions : Qc;
  successRate : Qc;
  confidence : Qc
}.

(** [items.reduce((sum, item) => sum + item.successRate, 0)] *)
Definition rate_sum (items : list TimelinePoint) : option Qc :=
  foldl (λ sum item, s ← sum; Binary64.add s (successRate item)) (Some 0%Qc) items.

(** [calculateTrend(data)]: the mean success rate of the last three points
    minus that of the points before them, in binary64.  [None] stands for a
    result that is not a finite number. *)
Definition calculateTrend (data : list TimelinePoint) : option Qc :=
  if (length data <? 2)%nat then Some 0%Qc
  else
    recent_sum ← rate_sum (drop (length data - 3) data);
    recent ← Binary64.div recent_sum (Qc_of_Z 3);
    let k := Nat.max 1 (length data - 3) in
    earlier_sum ← rate_sum (take k data);
    earlier ← Binary64.div earlier_sum (of_nat k);
    Binary64.sub recent earlier.

End Analytics.

(** ** Leaving and re-entering the tracker page

    The tracker is a route of its own: it is unmounted when the user leaves
    the page and mounted anew on return, with fresh component state, while
    the two providers above the router keep theirs. *)

Module Remount.

Definition mount_tracker (a : App) : App :=
  mkApp (conn a)
        (mkConsumer (stats (store (consumer a))) initialLocal (store (consumer a)))
        None.

End Remount.

(** ** Events that arrive during an [await]

    An [async] handler that awaits a REST call goes on, when the call has
    answered, with the closures of the render that made it, while the
    provider has meanwhile handled whatever events arrived. *)

Module Awaiting.

Section Handlers.
Variable API_BASE : string.
Variable server : Request → FetchOutcome.

(** The tracker's [handleStartTracking()] when the events [during] reach the
    provider while [startTracking()] is awaited.  [sendMessage] is the one of
    the render that made the handler: it tests the [socket] and [isConnected]
    of that render.  The second component is what [sendMessage] returned, if
    it was called ([console.error] is the only use the handler makes of a
    failure). *)
Definition handleStartTracking (during : list Event) (a : App) : App * option bool :=
  let c := consumer a in
  let r := run server (startTracking API_BASE (store c)) (store c) in
  let w := run_events during (conn a) in
  let c' := mkConsumer (snapshot c) (local c) (run_state r) in
  match run_outcome r with
  | Returned _ =>
      match sendMessage (socket (react (conn a))) (isConnected (react (conn a)))
              (command_message (CameraControl start)) w with
      | Some (sent, w') => (mkApp w' c' (handled a), Some sent)
      | None => (mkApp w c' (handled a), None)
      end
  | _ => (mkApp w c' (handled a), None)
  end.

End Handlers.

End Awaiting.

(** * Vocabulary of the statements *)

#[local] Open Scope list_scope.
#[local] Open Scope nat_scope.

Module Statements.

(** What [createSession] asks of the server. *)
Definition create_request (API_BASE : string) (sessionData : JsVal) : Request :=
  mkRequest "POST" (API_BASE +:+ "/api/sessions") (JsonBody sessionData).

(** What [startTracking] asks of the server. *)
Definition start_request (API_BASE : string) (seen : State) : Request :=
  mkRequest "POST" (API_BASE +:+ "/api/tracking/start")
            (StartBody (selectedSport seen) (settings seen)).

(** The message thrown by an operation that only looks at [response.ok]:
    [None] for an exchange that succeeded. *)
Definition status_failure (failure : string) (o : FetchOutcome) : option string :=
  match o with
  | FetchRejected msg => Some msg
  | FetchResponse false _ => Some failure
  | FetchResponse true _ => None
  end.

(** The message thrown by an operation that also reads the body. *)
Definition failure_of (failure : string) (o : FetchOutcome) : option string :=
  match o with
  | FetchRejected msg => Some msg
  | FetchResponse false _ => Some failure
  | FetchResponse true (JsonRejected msg) => Some msg
  | FetchResponse true (JsonValue _) => None
  end.

(** One update of the average as the handler writes it,
    [(average * total + confidence) / (total + 1)], each operation rounded. *)
Definition average_step (average : Qc) (total : nat) (confidence : Qc) : Qc :=
  Binary64.nearest
    (Binary64.nearest (Binary64.nearest (average * of_nat total) + confidence)
     / of_nat (S total)).

(** The average after the confidences [cs], taken in order from an average
    [average] over [total] earlier events. *)
Fixpoint averaged (cs : list Qc) (average : Qc) (total : nat) : Qc :=
  match cs with
  | [] => average
  | c :: rest => averaged rest (average_step average total c) (S total)
  end.

Definition running_average (cs : list Qc) : Qc := averaged cs 0%Qc 0%nat.

(** [s / n * 100] as binary64 computes it, 0 for no event. *)
Definition success_rate (n s : nat) : Qc :=
  match n with
  | 0%nat => 0%Qc
  | S _ => Binary64.nearest (Binary64.nearest (of_nat s / of_nat n) * Qc_of_Z 100)
  end.

(** The Stats that [n] events, [s] of them successful, should leave in the
    store when the average stands at [average]. *)
Definition tally (n s : nat) (average : Qc) : gmap string JsVal :=
  {[ "totalActions" := JNum (of_nat n);
     "successfulActions" := JNum (of_nat s);
     "successRate" := JNum (success_rate n s);
     "averageScore" := JNum average ]}.

Definition tally_of (events : list (ActionDetected * Z)) : gmap string JsVal :=
  tally (length events) (successes events) (running_average (confidences events)).

(** The arithmetic mean of rationals, exactly. *)
Definition mean (cs : list Qc) : Qc :=
  (foldr Qcplus 0 cs / of_nat (length cs))%Qc.

(** A finite binary64 value: [m * 2^p] with a significand of at most 53 bits
    and an exponent not below that of the subnormal values. *)
Definition representable (r : Qc) : Prop :=
  ∃ m p : Z, (- 2 ^ 53 ≤ m ≤ 2 ^ 53)%Z ∧ (-1074 ≤ p)%Z ∧
             (r == inject_Z m * Binary64.pow2 p)%Q.

(** [n * 2^j] as a number. *)
Definition scaled (n : nat) (j : Z) : Qc :=
  Q2Qc (inject_Z (Z.of_nat n) * Binary64.pow2 j).

(** [x] has magnitude at most [n * 2^j]. *)
Definition within (n : nat) (j : Z) (x : Qc) : Prop :=
  (- scaled n j ≤ x)%Qc ∧ (x ≤ scaled n j)%Qc.

(** The events whose confidence has magnitude at most [2^j]. *)
Definition bounded (j : Z) (events : list (ActionDetected * Z)) : Prop :=
  Forall (within 1 j) (confidences events).

(** What has to hold of the events seen so far and of the next one for the
    handler's arithmetic to stay exact on the counters and finite
    throughout. *)
Definition room (j : Z) (done : list (ActionDetected * Z)) (e : ActionDetected) : Prop :=
  (Z.of_nat (S (length done)) ≤ 2 ^ 53)%Z ∧ (-1074 ≤ j ≤ 970)%Z ∧
  within 1 j (running_average (confidences done)) ∧
  within 1 j (ad_confidence e).

(** The binary64 value that the decimal literal [n/d] denotes. *)
Definition double (n : Z) (d : positive) : Qc := Binary64.nearest (Q2Qc (n # d)).

(** The tracker's effect has not run for a frame that is yet to come. *)
Definition up_to_date (a : App) : Prop :=
  ∀ k, handled a = Some k → k ≤ frames (conn a).

(** The error [ws.onerror] surfaces, the only one the socket handlers set. *)
Definition transport_error : string := "Failed to connect to tracking service".

(** The provider is connected only while it holds a socket, and the socket
    it holds has opened. *)
Definition holds_socket (w : World) : Prop :=
  (isConnected (react w) = true → is_Some (socket (react w))) ∧
  (∀ ws, socket (react w) = Some ws → ws ∈ opened w).

(** The message types the tracker's effect acts on. *)
Definition acted_on (type : JsVal) : bool :=
  strict_eq type (JStr "action_detected") ||
  strict_eq type (JStr "feedback") ||
  strict_eq type (JStr "camera_status").

(** Sample inputs: a browser with no persisted session id that accepts the
    socket URL, two events of a short session with their clock readings, and
    a feedback frame. *)
Definition sample_env : ConnectEnv := mkEnv None true.

Definition sample_events : list (ActionDetected * Z) :=
  [(mkActionDetected "shot" true (Q2Qc (9 # 10)) JNull, 1000%Z);
   (mkActionDetected "shot" false (Q2Qc (6 # 10)) JNull, 2000%Z)].




Definition feedback_frame : JsVal :=
  JObj [("type", JStr "feedback");
        ("data", JObj [("type", JStr "success"); ("message", JStr "Nice shot")])].

(** The application once the first socket has opened. *)
Definition sample_app : App :=
  initialApp (run_events [Open 0] (mounted sample_env)).

End Statements.
Export Statements.

(** * Properties of the store *)

(** ** The reducer as a frame: which action touches which field *)

Lemma spread_lookup (a b : gmap string JsVal) (k : string) :
  spread a b !! k = match b !! k with Some v => Some v | None => a !! k end.
Proof.
  unfold spread. rewrite lookup_union. destruct (b !! k), (a !! k); reflexivity.
Qed.

(** Only [UPDATE_STATS] and [RESET_STATS] change [stats]. *)
Lemma reducer_stats_frame (st st' : State) (a : Action) :
  sessionReducer st a = Some st' →
  stats st' = stats st ∨ (∃ p, a = UPDATE_STATS p) ∨ a = RESET_STATS.
Proof.
  destruct a; simpl; intros H; try (injection H as <-; auto; fail).
  - destruct (get payload "id"); simpl in H; [|discriminate].
    destruct (replace_by_id _ _ _); simpl in H; [|discriminate].
    injection H as <-. auto.
  - right. left. eauto.
Qed.

(** The stats transitions leave the session record and the session list
    alone. *)
Lemma stats_actions_keep_sessions (st st' : State) (a : Action) :
  (a = RESET_STATS ∨ ∃ p, a = UPDATE_STATS p) →
  sessionReducer st a = Some st' →
  currentSession st' = currentSession st ∧ sessions st' = sessions st.
Proof.
  intros [-> | [p ->]]; simpl; intros H; injection H as <-; auto.
Qed.

(** ** Runs of the operations *)

(** C9.  [updateSettings(partial)] is one [UPDATE_SETTINGS] transition and no
    request.  Afterwards every key of the partial holds the supplied value as
    given, every other key of Settings holds its previous value, and no other
    field of the store has changed. *)
Theorem updateSettings_shallow_merge :
  ∀ (server : Request → FetchOutcome) (partial : gmap string JsVal) (st : State),
    let r := run server (updateSettings partial) st in
    run_outcome r = Returned tt ∧
    run_trace r = [Dispatched (UPDATE_SETTINGS partial)] ∧
    (∀ k v, partial !! k = Some v → settings (run_state r) !! k = Some v) ∧
    (∀ k, partial !! k = None → settings (run_state r) !! k = settings st !! k) ∧
    currentSession (run_state r) = currentSession st ∧
    sessions (run_state r) = sessions st ∧
    isTracking (run_state r) = isTracking st ∧
    selectedSport (run_state r) = selectedSport st ∧
    stats (run_state r) = stats st ∧
    loading (run_state r) = loading st ∧
    error (run_state r) = error st.
Proof.
  intros server partial st. simpl.
  repeat split; try reflexivity.
  - intros k v Hk. rewrite spread_lookup, Hk. reflexivity.
  - intros k Hk. rewrite spread_lookup, Hk. reflexivity.
Qed.

(** C10.  [updateStats(p)] is one [UPDATE_STATS] transition and no request:
    the reducer is applied once and its result is the whole new state.
    Every field named in [p] takes the supplied value as given, whatever it
    is; every other Stats field keeps its value; nothing outside Stats
    changes. *)
Theorem updateStats_merges_verbatim :
  ∀ (server : Request → FetchOutcome) (p : gmap string JsVal) (st : State),
    let r := run server (updateStats p) st in
    run_outcome r = Returned tt ∧
    run_trace r = [Dispatched (UPDATE_STATS p)] ∧
    sessionReducer st (UPDATE_STATS p) = Some (run_state r) ∧
    (∀ k v, p !! k = Some v → stats (run_state r) !! k = Some v) ∧
    (∀ k, p !! k = None → stats (run_state r) !! k = stats st !! k) ∧
    currentSession (run_state r) = currentSession st ∧
    sessions (run_state r) = sessions st ∧
    isTracking (run_state r) = isTracking st ∧
    selectedSport (run_state r) = selectedSport st ∧
    settings (run_state r) = settings st ∧
    loading (run_state r) = loading st ∧
    error (run_state r) = error st.
Proof.
  intros server p st. simpl.
  repeat split; try reflexivity.
  - intros k v Hk. rewrite spread_lookup, Hk. reflexivity.
  - intros k Hk. rewrite spread_lookup, Hk. reflexivity.
Qed.

(** A successful exchange.  When the server answers the POST with a session, that
    session is returned, becomes the current session and is put at the head of
    the session list. *)
Lemma createSession_success
    (API_BASE : string) (server : Request → FetchOutcome)
    (sessionData session : JsVal) (st : State) :
  server (create_request API_BASE sessionData) = FetchResponse true (JsonValue session) →
  let r := run server (createSession API_BASE sessionData) st in
  run_outcome r = Returned session ∧
  currentSession (run_state r) = session ∧
  sessions (run_state r) = session :: sessions st.
Proof.
  intros Hs. simpl. unfold create_request in Hs. rewrite Hs. simpl. auto.
Qed.

(** A failed exchange.  When the exchange fails, the operation throws the failure
    message, puts it in the store's [error] cell, and the current session and
    the session list are as before. *)
Lemma createSession_failure
    (API_BASE : string) (server : Request → FetchOutcome)
    (sessionData : JsVal) (st : State) (msg : string) :
  failure_of "Failed to create session"
    (server (create_request API_BASE sessionData)) = Some msg →
  let r := run server (createSession API_BASE sessionData) st in
  run_outcome r = Thrown msg ∧
  error (run_state r) = Some msg ∧
  currentSession (run_state r) = currentSession st ∧
  sessions (run_state r) = sessions st.
Proof.
  intros Hf. simpl. unfold create_request in Hf.
  destruct (server _) as [m | [] [v | m]]; simpl in *;
    try discriminate; injection Hf as <-; auto.
Qed.

(** Closes a failure case of [createSession]: the message is the one
    [failure_of] computes from the answer recorded in [E]. *)
Ltac failed_exchange E :=
  eexists; split; [reflexivity|];
  eapply createSession_failure; rewrite E; reflexivity.

(** C8.  [createSession(draft)]: on success the returned session becomes the
    current session and is prepended to the session list; on failure the
    error is surfaced (thrown and stored) and the current session and the
    session list are unchanged. *)
Theorem createSession_outcomes :
  ∀ (API_BASE : string) (server : Request → FetchOutcome)
    (draft : JsVal) (st : State),
    let r := run server (createSession API_BASE draft) st in
    requests r = [create_request API_BASE draft] ∧
    match server (create_request API_BASE draft) with
    | FetchResponse true (JsonValue session) =>
        run_outcome r = Returned session ∧
        currentSession (run_state r) = session ∧
        sessions (run_state r) = session :: sessions st
    | failed =>
        ∃ msg, failure_of "Failed to create session" failed = Some msg ∧
               run_outcome r = Thrown msg ∧
               error (run_state r) = Some msg ∧
               currentSession (run_state r) = currentSession st ∧
               sessions (run_state r) = sessions st
    end.
Proof.
  intros API_BASE server draft st r. split.
  - subst r. unfold requests, create_request. simpl.
    destruct (server _) as [m | [] [v | m]]; reflexivity.
  - destruct (server (create_request API_BASE draft)) as [m | [] [v | m]] eqn:E.
    + failed_exchange E.
    + apply (createSession_success API_BASE server draft v st E).
    + failed_exchange E.
    + failed_exchange E.
    + failed_exchange E.
Qed.

(** [startTracking] in full: one POST, then either [SET_TRACKING true] or the
    error report.  The operation is given the store's state and nothing of the
    connection. *)
Lemma startTracking_run
    (API_BASE : string) (server : Request → FetchOutcome) (seen st : State) :
  let r := run server (startTracking API_BASE seen) st in
  requests r = [start_request API_BASE seen] ∧
  match status_failure "Failed to start tracking" (server (start_request API_BASE seen)) with
  | Some msg =>
      run_trace r = [Requested (start_request API_BASE seen); Dispatched (SET_ERROR (Some msg))] ∧
      run_outcome r = Thrown msg ∧
      sessionReducer st (SET_ERROR (Some msg)) = Some (run_state r)
  | None =>
      run_trace r = [Requested (start_request API_BASE seen); Dispatched (SET_TRACKING true)] ∧
      run_outcome r = Returned true ∧
      sessionReducer st (SET_TRACKING true) = Some (run_state r)
  end.
Proof.
  simpl. unfold requests, start_request.
  destruct (server _) as [m | [] [v | m]]; simpl; auto.
Qed.

(** C3, as the code has it.  [startTracking()] makes no precondition check:
    whatever the current session and whatever the connection (of which the
    operation is told nothing), the first thing it does is the POST to
    [/api/tracking/start], and it makes no other request.  On REST success it
    dispatches [SET_TRACKING true] and returns [true]: the store goes from
    Idle straight to Active, there being no Starting state.  On REST failure
    it stores the message in [error], throws it, and the tracking state is
    unchanged. *)
Theorem startTracking_always_calls_api :
  ∀ (API_BASE : string) (server : Request → FetchOutcome) (seen st : State),
    let r := run server (startTracking API_BASE seen) st in
    head (run_trace r) = Some (Requested (start_request API_BASE seen)) ∧
    requests r = [start_request API_BASE seen] ∧
    match status_failure "Failed to start tracking"
            (server (start_request API_BASE seen)) with
    | None =>
        run_outcome r = Returned true ∧
        dispatched r = [SET_TRACKING true] ∧
        trackingState (run_state r) = Active
    | Some msg =>
        run_outcome r = Thrown msg ∧
        error (run_state r) = Some msg ∧
        trackingState (run_state r) = trackingState st
    end.
Proof.
  intros API_BASE server seen st r.
  destruct (startTracking_run API_BASE server seen st) as [Hreq Hrun].
  fold r in Hreq, Hrun. clearbody r.
  destruct (status_failure _ _) as [msg|].
  - destruct Hrun as (Htr & Hout & Hst). simpl in Hst. injection Hst as Hst.
    rewrite Htr, Hout, <- Hst. auto.
  - destruct Hrun as (Htr & Hout & Hst). simpl in Hst. injection Hst as Hst.
    unfold dispatched. rewrite Htr, Hout, <- Hst. auto.
Qed.

(** C3 fails as stated: with no current session and the connection down,
    [startTracking()] still sends the POST, and when the server accepts it the
    store reports Active. *)
Lemma startTracking_without_session_or_connection :
  let server := λ _ : Request, FetchResponse true (JsonValue JNull) in
  let r := run server (startTracking "http://localhost:8000" initialState) initialState in
  currentSession initialState = JNull ∧
  connectionState (initialWorld None) = Disconnected ∧
  requests r = [start_request "http://localhost:8000" initialState] ∧
  run_outcome r = Returned true ∧
  trackingState (run_state r) = Active.
Proof. repeat split. Qed.

(** C7, as the code has it.  A run of [startTracking], successful or not,
    dispatches no stats transition and leaves Stats, the current session and
    the session list as they were.  Stats are put back to their initial zero
    values by the [RESET_STATS] transition and by nothing else; apart from it
    only [UPDATE_STATS] changes them.  They belong to the store's state, which
    starts with zero Stats, and no stats transition touches the current
    session or the session list. *)
Theorem startTracking_leaves_stats :
  ∀ (API_BASE : string) (server : Request → FetchOutcome) (seen st : State),
    let r := run server (startTracking API_BASE seen) st in
    stats (run_state r) = stats st ∧
    currentSession (run_state r) = currentSession st ∧
    sessions (run_state r) = sessions st ∧
    (RESET_STATS ∉ dispatched r) ∧
    (∀ st0, ∃ st', sessionReducer st0 RESET_STATS = Some st' ∧
                   stats st' = initialStats ∧
                   currentSession st' = currentSession st0 ∧
                   sessions st' = sessions st0 ∧
                   isTracking st' = isTracking st0) ∧
    (∀ st0 st' a, sessionReducer st0 a = Some st' →
                  stats st' = stats st0 ∨ (∃ p, a = UPDATE_STATS p) ∨ a = RESET_STATS) ∧
    (∀ st0 st' p, sessionReducer st0 (UPDATE_STATS p) = Some st' →
                  currentSession st' = currentSession st0 ∧ sessions st' = sessions st0) ∧
    stats initialState = initialStats.
Proof.
  intros API_BASE server seen st r.
  destruct (startTracking_run API_BASE server seen st) as [_ Hrun].
  fold r in Hrun. clearbody r.
  assert (Hframe : stats (run_state r) = stats st ∧
                   currentSession (run_state r) = currentSession st ∧
                   sessions (run_state r) = sessions st ∧
                   RESET_STATS ∉ dispatched r).
  { unfold dispatched.
    destruct (status_failure _ _) as [msg|];
      destruct Hrun as (Htr & _ & Hst); simpl in Hst; injection Hst as Hst;
      rewrite Htr, <- Hst; simpl; repeat split; auto;
      intros Hin; apply list_elem_of_singleton in Hin; discriminate. }
  destruct Hframe as (H1 & H2 & H3 & H4).
  repeat split; auto.
  - intros st0. eexists. split; [reflexivity|]. simpl. auto.
  - intros st0 st' a. apply reducer_stats_frame.
  - eapply stats_actions_keep_sessions; [right; eauto | eassumption].
  - eapply stats_actions_keep_sessions; [right; eauto | eassumption].
Qed.

(** C7 fails as stated: after one detected action the store counts one
    action; a [startTracking] that succeeds then leaves that count in place
    instead of zero. *)
Lemma startTracking_does_not_reset_stats :
  let server := λ _ : Request, FetchResponse true (JsonValue JNull) in
  ∃ a, app_run (arrivals 0 (take 1 sample_events)) sample_app = Some a ∧
       let st := store (consumer a) in
       let r := run server (startTracking "http://localhost:8000" st) st in
       run_outcome r = Returned true ∧
       trackingState (run_state r) = Active ∧
       stats (run_state r) !! "totalActions" = Some (JNum 1) ∧
       initialStats !! "totalActions" = Some (JNum 0).
Proof.
  eexists. split; [vm_compute; reflexivity|]. vm_compute. repeat split.
Qed.

(** * Properties of binary64 rounding

    Rounding never crosses a value of the format: a bound that is itself a
    binary64 value survives rounding, and a binary64 value rounds to
    itself. *)

Section Rounding.
Import Binary64.
#[local] Open Scope Q_scope.

Lemma pow2_pos (p : Z) : 0 < pow2 p.
Proof. apply Qpower_0_lt. reflexivity. Qed.

Lemma pow2_add (a b : Z) : pow2 (a + b) == pow2 a * pow2 b.
Proof. apply Qpower_plus. discriminate. Qed.

Lemma pow2_int (k : Z) : (0 <= k)%Z → pow2 k == inject_Z (2 ^ k).
Proof. intros H. unfold pow2. rewrite (Zpower_Qpower 2 k H). reflexivity. Qed.

Lemma pow2_mono (a b : Z) : (a <= b)%Z → pow2 a <= pow2 b.
Proof. intros H. apply Qpower_le_compat_l; [exact H | discriminate]. Qed.

Lemma rne_bounds (x : Q) : (Qfloor x <= rne x <= Qfloor x + 1)%Z.
Proof.
  unfold rne. destruct (Qcompare _ _); [destruct (Z.even _)|..]; lia.
Qed.

Lemma rne_ge (x : Q) (k : Z) : inject_Z k <= x → (k <= rne x)%Z.
Proof.
  intros H. apply Qfloor_resp_le in H. rewrite Qfloor_Z in H.
  pose proof (rne_bounds x). lia.
Qed.

Lemma rne_le (x : Q) (k : Z) : x <= inject_Z k → (rne x <= k)%Z.
Proof.
  intros H. pose proof (rne_bounds x) as Hb.
  destruct (Z.eq_dec (rne x) (Qfloor x)) as [E | E].
  - rewrite E. apply Qfloor_resp_le in H. rewrite Qfloor_Z in H. exact H.
  - assert (Hlt : inject_Z (Qfloor x) < x).
    { unfold rne in E. pose proof (Qfloor_le x) as Hf.
      destruct (Qcompare (x - inject_Z (Qfloor x)) (1 # 2)) eqn:C.
      - apply Qeq_alt in C. lra.
      - congruence.
      - apply Qgt_alt in C. lra. }
    assert (Hk : inject_Z (Qfloor x) < inject_Z k) by lra.
    rewrite <- Zlt_Qlt in Hk. lia.
Qed.

Lemma log2_quotient (a : Z) (b : positive) :
  (0 < a)%Z → pow2 (Z.log2 a - Z.log2 (Zpos b) - 1) <= a # b.
Proof.
  intros Ha.
  pose proof (Z.log2_spec a Ha) as [Hla _].
  pose proof (Z.log2_spec (Zpos b) eq_refl) as [_ Hlb].
  pose proof (Z.log2_nonneg a) as Hna.
  pose proof (Z.log2_nonneg (Zpos b)) as Hnb.
  set (la := Z.log2 a) in *. set (lb := Z.log2 (Zpos b)) in *.
  assert (E1 : pow2 (la - lb - 1) == inject_Z (2 ^ la) / inject_Z (2 ^ (lb + 1))).
  { replace (la - lb - 1)%Z with (la + - (lb + 1))%Z by lia.
    rewrite pow2_add. unfold pow2 at 2. rewrite Qpower_opp.
    fold (pow2 (lb + 1)). rewrite !pow2_int by lia. reflexivity. }
  rewrite E1, (Qmake_Qdiv a b).
  assert (H1 : inject_Z (2 ^ la) <= inject_Z a) by (rewrite <- Zle_Qle; exact Hla).
  assert (H2 : inject_Z (Zpos b) < inject_Z (2 ^ (lb + 1))).
  { rewrite <- Zlt_Qlt. replace (lb + 1)%Z with (Z.succ lb) by lia. exact Hlb. }
  assert (H3 : 0 < inject_Z (Zpos b)) by (rewrite <- (Zlt_Qlt 0); lia).
  assert (H4 : 0 < inject_Z (2 ^ la)).
  { rewrite <- (Zlt_Qlt 0). apply Z.pow_pos_nonneg; lia. }
  set (A := inject_Z a) in *. set (L := inject_Z (2 ^ la)) in *.
  set (B := inject_Z (Zpos b)) in *. set (U := inject_Z (2 ^ (lb + 1))) in *.
  assert (HU : 0 < U) by lra.
  apply Qle_shift_div_l; [exact H3|].
  assert (E : L / U * B == L * (B / U)) by (field; lra).
  rewrite E.
  assert (HBU : B / U <= 1) by (apply Qle_shift_div_r; lra).
  assert (0 <= B / U) by (apply Qle_shift_div_l; lra).
  nra.
Qed.

Lemma binade_le (x : Q) : 0 < x → pow2 (binade x) <= x.
Proof.
  intros Hx. unfold binade.
  destruct (Qle_bool _ x) eqn:E; [apply Qle_bool_iff, E|].
  clear E. destruct x as [a b].
  apply log2_quotient. unfold Qlt in Hx. simpl in Hx. lia.
Qed.

Lemma nearest_pos_nonneg (x : Q) : 0 < x → 0 <= nearest_pos x.
Proof.
  intros Hx. unfold nearest_pos.
  set (p := Z.max _ _). pose proof (pow2_pos p) as Hp.
  assert (H : (0 <= rne (x / pow2 p))%Z).
  { apply rne_ge. change (inject_Z 0) with 0. apply Qle_shift_div_l; lra. }
  rewrite Zle_Qle in H. change (inject_Z 0) with 0 in H. nra.
Qed.

(** A multiple of a power of two that is a multiple of a smaller one. *)
Lemma grid_refine (m p p0 : Z) :
  (p0 <= p)%Z → inject_Z m * pow2 p == inject_Z (m * 2 ^ (p - p0)) * pow2 p0.
Proof.
  intros H. replace p with ((p - p0) + p0)%Z at 1 by lia.
  rewrite pow2_add, pow2_int by lia. rewrite inject_Z_mult. ring.
Qed.

Section Position.
Variables (x : Q) (m p : Z).
Hypothesis Hx : 0 < x.
Hypothesis Hm : (m <= 2 ^ 53)%Z.
Hypothesis Hp : (-1074 <= p)%Z.

Let e := binade x.
Let p0 := Z.max (e - 52) (-1074).

Lemma coarse_below_binade : (p < p0)%Z → inject_Z m * pow2 p <= pow2 e.
Proof using Hm Hp.
  intros Hlt. assert (Hp0 : p0 = (e - 52)%Z) by (subst p0; lia).
  assert (H1 : pow2 p <= pow2 (e - 53)) by (apply pow2_mono; lia).
  assert (H2 : pow2 e == inject_Z (2 ^ 53) * pow2 (e - 53)).
  { replace e with (53 + (e - 53))%Z at 1 by lia.
    rewrite pow2_add, pow2_int by lia. reflexivity. }
  pose proof (pow2_pos p). pose proof (pow2_pos (e - 53)).
  assert (H3 : inject_Z m <= inject_Z (2 ^ 53)) by (rewrite <- Zle_Qle; exact Hm).
  assert (H4 : 0 < inject_Z (2 ^ 53)) by reflexivity.
  rewrite H2.
  destruct (Qlt_le_dec (inject_Z m) 0); nra.
Qed.

Lemma binade_on_grid : (p < p0)%Z → pow2 e == inject_Z (2 ^ 52) * pow2 p0.
Proof using Hp.
  intros Hlt. assert (Hp0 : p0 = (e - 52)%Z) by (subst p0; lia).
  rewrite Hp0. replace e with (52 + (e - 52))%Z at 1 by lia.
  rewrite pow2_add, pow2_int by lia. reflexivity.
Qed.

Lemma nearest_pos_le : x <= inject_Z m * pow2 p → nearest_pos x <= inject_Z m * pow2 p.
Proof using Hx Hm Hp.
  intros HB. unfold nearest_pos. fold e. fold p0.
  pose proof (pow2_pos p0) as Hp0.
  destruct (Z_lt_le_dec p p0) as [Hlt | Hge].
  - pose proof (coarse_below_binade Hlt) as H1.
    pose proof (binade_on_grid Hlt) as H2.
    pose proof (binade_le x Hx) as H3. fold e in H3.
    assert (Hy : (rne (x / pow2 p0) <= 2 ^ 52)%Z).
    { apply rne_le. apply Qle_shift_div_r; [exact Hp0|]. lra. }
    rewrite Zle_Qle in Hy. nra.
  - rewrite (grid_refine m p p0 Hge) in *.
    assert (Hy : (rne (x / pow2 p0) <= m * 2 ^ (p - p0))%Z).
    { apply rne_le. apply Qle_shift_div_r; [exact Hp0 | exact HB]. }
    rewrite Zle_Qle in Hy. nra.
Qed.

Lemma nearest_pos_ge : inject_Z m * pow2 p <= x → inject_Z m * pow2 p <= nearest_pos x.
Proof using Hx Hm Hp.
  intros HB. unfold nearest_pos. fold e. fold p0.
  pose proof (pow2_pos p0) as Hp0.
  destruct (Z_lt_le_dec p p0) as [Hlt | Hge].
  - pose proof (coarse_below_binade Hlt) as H1.
    pose proof (binade_on_grid Hlt) as H2.
    pose proof (binade_le x Hx) as H3. fold e in H3.
    assert (Hy : (2 ^ 52 <= rne (x / pow2 p0))%Z).
    { apply rne_ge. apply Qle_shift_div_l; [exact Hp0|]. lra. }
    rewrite Zle_Qle in Hy. nra.
  - rewrite (grid_refine m p p0 Hge) in *.
    assert (Hy : (m * 2 ^ (p - p0) <= rne (x / pow2 p0))%Z).
    { apply rne_ge. apply Qle_shift_div_l; [exact Hp0 | exact HB]. }
    rewrite Zle_Qle in Hy. nra.
Qed.
End Position.

Lemma nearestQ_le (x : Q) (m p : Z) :
  (- 2 ^ 53 <= m <= 2 ^ 53)%Z → (-1074 <= p)%Z →
  x <= inject_Z m * pow2 p → nearestQ x <= inject_Z m * pow2 p.
Proof.
  intros Hm Hp HB. unfold nearestQ.
  destruct x as [a b]. destruct a as [|a|a]; simpl Qnum.
  - assert (E : 0 # b == 0) by reflexivity. rewrite E in HB. exact HB.
  - apply nearest_pos_le; [reflexivity | lia | exact Hp | exact HB].
  - assert (Hneg : 0 < - (Z.neg a # b)) by reflexivity.
    assert (E : inject_Z (- m) * pow2 p == - (inject_Z m * pow2 p))
      by (rewrite inject_Z_opp; ring).
    assert (H : inject_Z (- m) * pow2 p <= nearest_pos (- (Z.neg a # b))).
    { apply nearest_pos_ge; [exact Hneg | lia | exact Hp|].
      rewrite E. apply Qopp_le_compat, HB. }
    rewrite E in H. apply Qopp_le_compat in H. rewrite Qopp_involutive in H. exact H.
Qed.

Lemma nearestQ_ge (x : Q) (m p : Z) :
  (- 2 ^ 53 <= m <= 2 ^ 53)%Z → (-1074 <= p)%Z →
  inject_Z m * pow2 p <= x → inject_Z m * pow2 p <= nearestQ x.
Proof.
  intros Hm Hp HB. unfold nearestQ.
  destruct x as [a b]. destruct a as [|a|a]; simpl Qnum.
  - assert (E : 0 # b == 0) by reflexivity. rewrite E in HB. exact HB.
  - apply nearest_pos_ge; [reflexivity | lia | exact Hp | exact HB].
  - assert (Hneg : 0 < - (Z.neg a # b)) by reflexivity.
    assert (E : inject_Z (- m) * pow2 p == - (inject_Z m * pow2 p))
      by (rewrite inject_Z_opp; ring).
    assert (H : nearest_pos (- (Z.neg a # b)) <= inject_Z (- m) * pow2 p).
    { apply nearest_pos_le; [exact Hneg | lia | exact Hp|].
      rewrite E. apply Qopp_le_compat, HB. }
    rewrite E in H. apply Qopp_le_compat in H. rewrite Qopp_involutive in H. exact H.
Qed.

Lemma nearest_le (q b : Qc) : representable b → (q <= b)%Qc → (nearest q <= b)%Qc.
Proof.
  intros (m & p & Hm & Hp & E) H. unfold Qcle, nearest in *. simpl.
  rewrite !Qred_correct, E in *. apply nearestQ_le; assumption.
Qed.

Lemma nearest_ge (q b : Qc) : representable b → (b <= q)%Qc → (b <= nearest q)%Qc.
Proof.
  intros (m & p & Hm & Hp & E) H. unfold Qcle, nearest in *. simpl.
  rewrite !Qred_correct, E in *. apply nearestQ_ge; assumption.
Qed.

Lemma nearest_exact (q : Qc) : representable q → nearest q = q.
Proof.
  intros H. apply Qcle_antisym.
  - apply nearest_le; [exact H | apply Qcle_refl].
  - apply nearest_ge; [exact H | apply Qcle_refl].
Qed.

Lemma representable_opp (b : Qc) : representable b → representable (- b).
Proof.
  intros (m & p & Hm & Hp & E). exists (- m)%Z, p.
  split; [lia|]. split; [exact Hp|].
  simpl. rewrite Qred_correct, E, inject_Z_opp. ring.
Qed.

Lemma representable_scaled (n : nat) (j : Z) :
  (Z.of_nat n <= 2 ^ 53)%Z → (-1074 <= j)%Z → representable (scaled n j).
Proof.
  intros Hn Hj. exists (Z.of_nat n), j.
  split; [lia|]. split; [exact Hj|]. simpl. apply Qred_correct.
Qed.

Lemma scaled_0 (n : nat) : scaled n 0 = of_nat n.
Proof.
  apply Qc_is_canon. unfold scaled, of_nat. simpl.
  rewrite !Qred_correct. change (pow2 0) with 1. ring.
Qed.

Lemma scaled_below_overflow (n : nat) (j : Z) :
  (Z.of_nat n <= 2 ^ 53)%Z → (j <= 970)%Z → scaled n j < pow2 1024.
Proof.
  intros Hn Hj. unfold scaled. simpl. rewrite Qred_correct.
  assert (H1 : inject_Z (Z.of_nat n) <= inject_Z (2 ^ 53)) by (rewrite <- Zle_Qle; lia).
  assert (H2 : pow2 j <= pow2 970) by (apply pow2_mono, Hj).
  assert (H3 : 0 <= inject_Z (Z.of_nat n)) by (rewrite <- (Zle_Qle 0); lia).
  pose proof (pow2_pos j) as H4.
  assert (H5 : inject_Z (2 ^ 53) * pow2 970 < pow2 1024) by reflexivity.
  assert (H6 : 0 < inject_Z (2 ^ 53)) by reflexivity.
  set (N := inject_Z (Z.of_nat n)) in *. set (K := inject_Z (2 ^ 53)) in *.
  set (P := pow2 j) in *. set (P' := pow2 970) in *.
  assert (H7 : N * P <= K * P) by nra.
  assert (H8 : K * P <= K * P') by nra.
  eapply Qle_lt_trans; [|exact H5].
  eapply Qle_trans; [exact H7 | exact H8].
Qed.

Lemma scaled_nonneg (n : nat) (j : Z) : (0 <= scaled n j)%Qc.
Proof.
  unfold Qcle, scaled. simpl. rewrite !Qred_correct.
  apply Qmult_le_0_compat.
  - rewrite <- (Zle_Qle 0). lia.
  - apply Qlt_le_weak, pow2_pos.
Qed.

Lemma finite_within (r b : Qc) :
  b < pow2 1024 → (- b <= r)%Qc → (r <= b)%Qc → finite r = Some r.
Proof.
  intros Hb Hlo Hhi. unfold finite, Qcle in *. simpl in Hlo. rewrite Qred_correct in Hlo.
  destruct (Qle_bool (pow2 1024) r) eqn:E1.
  { apply Qle_bool_iff in E1. lra. }
  destruct (Qle_bool r (- pow2 1024)) eqn:E2; [|reflexivity].
  apply Qle_bool_iff in E2. lra.
Qed.

(** Rounding keeps a value inside a symmetric interval whose bound is a
    binary64 number, and a value inside such an interval does not overflow. *)
Lemma rounded_within (x : Qc) (n : nat) (j : Z) :
  (Z.of_nat n <= 2 ^ 53)%Z → (-1074 <= j <= 970)%Z →
  (- scaled n j <= x)%Qc → (x <= scaled n j)%Qc →
  finite (nearest x) = Some (nearest x) ∧
  (- scaled n j <= nearest x)%Qc ∧ (nearest x <= scaled n j)%Qc.
Proof.
  intros Hn Hj Hlo Hhi.
  assert (Hr : representable (scaled n j)) by (apply representable_scaled; lia).
  assert (H1 : (- scaled n j <= nearest x)%Qc)
    by (apply nearest_ge; [apply representable_opp, Hr | exact Hlo]).
  assert (H2 : (nearest x <= scaled n j)%Qc) by (apply nearest_le; assumption).
  split; [|split; assumption].
  apply (finite_within _ (scaled n j)); [apply scaled_below_overflow; lia | assumption..].
Qed.


End Rounding.

(** * Properties of the aggregation *)

Lemma of_nat_S (n : nat) : of_nat (S n) = (of_nat n + 1)%Qc.
Proof.
  unfold of_nat. rewrite Nat2Z.inj_succ, <- Z.add_1_r, Z2Qc_inj_add, Z2Qc_inj_1.
  reflexivity.
Qed.

Lemma of_nat_add (n m : nat) : of_nat (n + m) = (of_nat n + of_nat m)%Qc.
Proof. unfold of_nat. rewrite Nat2Z.inj_add, Z2Qc_inj_add. reflexivity. Qed.

Lemma of_nat_0 : of_nat 0 = 0%Qc.
Proof. change (of_nat 0) with (Qc_of_Z 0). apply Z2Qc_inj_0. Qed.

Lemma of_nat_1 : of_nat 1 = 1%Qc.
Proof. change (of_nat 1) with (Qc_of_Z 1). apply Z2Qc_inj_1. Qed.

Lemma of_nat_S_nonzero (n : nat) : of_nat (S n) ≠ 0%Qc.
Proof.
  unfold of_nat. rewrite <- Z2Qc_inj_0. intros H. apply Z2Qc_inj in H. lia.
Qed.

Lemma Qc_eq_bool_false (a b : Qc) : a ≠ b → Qc_eq_bool a b = false.
Proof.
  intros H. destruct (Qc_eq_bool a b) eqn:E; [|reflexivity].
  apply Qc_eq_bool_correct in E. contradiction.
Qed.

(** ** From canonical rationals to rationals, to use linear arithmetic *)

Section Underlying.
#[local] Open Scope Q_scope.

Lemma this_plus (a b : Qc) : this (a + b)%Qc == this a + this b.
Proof. apply Qred_correct. Qed.

Lemma this_mult (a b : Qc) : this (a * b)%Qc == this a * this b.
Proof. apply Qred_correct. Qed.

Lemma this_opp (a : Qc) : this (- a)%Qc == - this a.
Proof. apply Qred_correct. Qed.

Lemma this_div (a b : Qc) : this (a / b)%Qc == this a / this b.
Proof.
  unfold Qcdiv, Qcinv. rewrite this_mult. simpl. rewrite Qred_correct. reflexivity.
Qed.

Lemma this_of_nat (n : nat) : this (of_nat n) == inject_Z (Z.of_nat n).
Proof. reflexivity. Qed.

Lemma this_scaled (n : nat) (j : Z) :
  this (scaled n j) == inject_Z (Z.of_nat n) * Binary64.pow2 j.
Proof. unfold scaled. cbn [this Q2Qc]. apply Qred_correct. Qed.

Lemma this_hundred : this (Qc_of_Z 100) == 100.
Proof. reflexivity. Qed.

End Underlying.

Ltac underlying :=
  unfold Qcle, Qclt in *;
  rewrite ?this_div, ?this_plus, ?this_mult, ?this_opp, ?this_scaled, ?this_of_nat,
    ?this_hundred in *.

Lemma within_rounded (x : Qc) (n : nat) (j : Z) :
  (Z.of_nat n ≤ 2 ^ 53)%Z → (-1074 ≤ j ≤ 970)%Z → within n j x →
  Binary64.finite (Binary64.nearest x) = Some (Binary64.nearest x) ∧
  within n j (Binary64.nearest x).
Proof. intros Hn Hj [Hlo Hhi]. apply rounded_within; assumption. Qed.

Section Bounds.
Variables (n : nat) (j : Z).
#[local] Open Scope Q_scope.

Lemma within_mult (a : Qc) : within 1 j a → within n j (a * of_nat n).
Proof.
  intros [Hlo Hhi]. split; underlying;
    change (inject_Z (Z.of_nat 1)) with 1 in *;
    assert (HN : 0 <= inject_Z (Z.of_nat n)) by (rewrite <- (Zle_Qle 0); lia);
    pose proof (pow2_pos j) as HP;
    set (N := inject_Z (Z.of_nat n)) in *; set (P := Binary64.pow2 j) in *;
    set (A := this a) in *; nra.
Qed.

Lemma within_plus (a c : Qc) : within n j a → within 1 j c → within (S n) j (a + c).
Proof.
  intros [Hlo Hhi] [Hlo' Hhi']. split; underlying;
    change (inject_Z (Z.of_nat 1)) with 1 in *;
    rewrite Nat2Z.inj_succ, <- Z.add_1_r, inject_Z_plus;
    change (inject_Z 1) with 1;
    set (N := inject_Z (Z.of_nat n)) in *; set (P := Binary64.pow2 j) in *;
    set (A := this a) in *; set (C := this c) in *; lra.
Qed.

Lemma within_div (a : Qc) : within (S n) j a → within 1 j (a / of_nat (S n)).
Proof.
  intros [Hlo Hhi].
  assert (HN : 0 < inject_Z (Z.of_nat (S n))) by (rewrite <- (Zlt_Qlt 0); lia).
  pose proof (pow2_pos j) as HP.
  split; underlying; change (inject_Z (Z.of_nat 1)) with 1 in *;
    set (N := inject_Z (Z.of_nat (S n))) in *; set (P := Binary64.pow2 j) in *;
    set (A := this a) in *.
  - apply Qle_shift_div_l; [exact HN|]. lra.
  - apply Qle_shift_div_r; [exact HN|]. lra.
Qed.

End Bounds.

(** ** The handler's arithmetic, step by step *)

Lemma representable_of_nat (k : nat) :
  (Z.of_nat k ≤ 2 ^ 53)%Z → representable (of_nat k).
Proof. intros H. rewrite <- scaled_0. apply representable_scaled; lia. Qed.

Lemma within_of_nat (k : nat) : within k 0 (of_nat k).
Proof.
  rewrite <- scaled_0. split; [|apply Qcle_refl].
  apply Qcle_trans with 0%Qc; [|apply scaled_nonneg].
  pose proof (Qcopp_le_compat _ _ (scaled_nonneg k 0)) as H.
  exact H.
Qed.

(** Counters are exact: below [2^53] a sum of two counts is a binary64
    value, so rounding leaves it alone. *)
Lemma count_up (n m : nat) :
  (Z.of_nat (n + m) ≤ 2 ^ 53)%Z →
  Binary64.add (of_nat n) (of_nat m) = Some (of_nat (n + m)).
Proof.
  intros H. unfold Binary64.add. rewrite <- of_nat_add.
  rewrite nearest_exact by (apply representable_of_nat, H).
  destruct (within_of_nat (n + m)) as [Hlo Hhi].
  apply (finite_within _ (scaled (n + m) 0)); [|assumption..].
  apply scaled_below_overflow; lia.
Qed.

(** The success rate: a ratio of counts lies in [0, 1] and its hundredfold
    in [0, 100], so neither operation overflows. *)
Lemma rate_step (s n : nat) :
  s ≤ S n →
  ∃ ratio,
    Binary64.div (of_nat s) (of_nat (S n)) = Some ratio ∧
    Binary64.mul ratio (Qc_of_Z 100) = Some (success_rate (S n) s).
Proof.
  intros Hs. unfold Binary64.div, Binary64.mul, success_rate.
  rewrite Qc_eq_bool_false by apply of_nat_S_nonzero.
  assert (H1 : within 1 0 (of_nat s / of_nat (S n))).
  { assert (HN : (0 < inject_Z (Z.of_nat (S n)))%Q) by (rewrite <- (Zlt_Qlt 0); lia).
    assert (HS : (0 <= inject_Z (Z.of_nat s))%Q) by (rewrite <- (Zle_Qle 0); lia).
    assert (HSN : (inject_Z (Z.of_nat s) <= inject_Z (Z.of_nat (S n)))%Q)
      by (rewrite <- Zle_Qle; lia).
    split; underlying; change (inject_Z (Z.of_nat 1) * Binary64.pow2 0)%Q with 1%Q.
    - apply Qle_shift_div_l; [exact HN|]. lra.
    - apply Qle_shift_div_r; [exact HN|]. lra. }
  destruct (within_rounded _ 1 0 ltac:(lia) ltac:(lia) H1) as [-> H2].
  eexists. split; [reflexivity|].
  assert (H3 : within 100 0 (Binary64.nearest (of_nat s / of_nat (S n)) * Qc_of_Z 100)).
  { destruct H2 as [Hlo Hhi]. revert Hlo Hhi.
    generalize (Binary64.nearest (of_nat s / of_nat (S n))). intros r Hlo Hhi.
    split; underlying;
      change (inject_Z (Z.of_nat 1) * Binary64.pow2 0)%Q with 1%Q in *;
      change (inject_Z (Z.of_nat 100) * Binary64.pow2 0)%Q with 100%Q;
      lra. }
  destruct (within_rounded _ 100 0 ltac:(lia) ltac:(lia) H3) as [-> _].
  reflexivity.
Qed.

(** The average: with confidences of magnitude at most [2^j] the three
    operations stay within [n * 2^j], [(n+1) * 2^j] and [2^j]. *)
Lemma average_update (average c : Qc) (n : nat) (j : Z) :
  (Z.of_nat (S n) ≤ 2 ^ 53)%Z → (-1074 ≤ j ≤ 970)%Z →
  within 1 j average → within 1 j c →
  (weighted ← Binary64.mul average (of_nat n);
   sum ← Binary64.add weighted c;
   Binary64.div sum (of_nat (S n))) = Some (average_step average n c) ∧
  within 1 j (average_step average n c).
Proof.
  intros Hn Hj Ha Hc. unfold Binary64.mul, Binary64.add, Binary64.div, average_step.
  destruct (within_rounded _ n j ltac:(lia) Hj (within_mult n j average Ha)) as [-> H1].
  cbn [mbind option_bind].
  destruct (within_rounded _ (S n) j Hn Hj (within_plus n j _ c H1 Hc)) as [-> H2].
  cbn [mbind option_bind]. rewrite Qc_eq_bool_false by apply of_nat_S_nonzero.
  destruct (within_rounded _ 1 j ltac:(lia) Hj (within_div n j _ H2)) as [-> H3].
  split; [reflexivity | exact H3].
Qed.

Lemma averaged_snoc (cs : list Qc) (c average : Qc) (k : nat) :
  averaged (cs ++ [c]) average k
  = average_step (averaged cs average k) (k + length cs) c.
Proof.
  revert average k. induction cs as [|c0 cs IH]; intros average k; simpl.
  - rewrite Nat.add_0_r. reflexivity.
  - rewrite IH. f_equal. lia.
Qed.

Lemma running_average_snoc (cs : list Qc) (c : Qc) :
  running_average (cs ++ [c]) = average_step (running_average cs) (length cs) c.
Proof. unfold running_average. rewrite averaged_snoc. reflexivity. Qed.

Lemma tally_initial : initialStats = tally_of [].
Proof.
  unfold tally_of, tally, initialStats. simpl.
  change (successes []) with 0%nat. rewrite of_nat_0. reflexivity.
Qed.

Lemma successes_snoc (events : list (ActionDetected * Z)) (e : ActionDetected) (now : Z) :
  successes (events ++ [(e, now)]) = successes events + (if ad_successful e then 1 else 0).
Proof.
  unfold successes. rewrite filter_app, length_app. f_equal.
  rewrite filter_cons, filter_nil. simpl.
  destruct (ad_successful e); reflexivity.
Qed.

Lemma successes_le (events : list (ActionDetected * Z)) :
  successes events ≤ length events.
Proof. unfold successes. apply length_filter. Qed.

Lemma four_keys_override (a1 a2 a3 a4 b1 b2 b3 b4 : JsVal) :
  spread ({[ "totalActions" := b1; "successfulActions" := b2;
             "successRate" := b3; "averageScore" := b4 ]} : gmap string JsVal)
         {[ "totalActions" := a1; "successfulActions" := a2;
            "successRate" := a3; "averageScore" := a4 ]}
  = {[ "totalActions" := a1; "successfulActions" := a2;
       "successRate" := a3; "averageScore" := a4 ]}.
Proof.
  apply map_eq. intros k. rewrite spread_lookup.
  destruct (({[ "totalActions" := a1; "successfulActions" := a2;
                "successRate" := a3; "averageScore" := a4 ]} : gmap string JsVal) !! k)
    eqn:E; [reflexivity|].
  repeat (rewrite lookup_insert in E; case_decide; [discriminate|]).
  rewrite lookup_singleton in E. case_decide; [discriminate|].
  repeat (rewrite lookup_insert; case_decide; [congruence|]).
  rewrite lookup_singleton. case_decide; [congruence|]. reflexivity.
Qed.

Lemma tally_lookup (n s : nat) (average : Qc) :
  tally n s average !! "totalActions" = Some (JNum (of_nat n)) ∧
  tally n s average !! "successfulActions" = Some (JNum (of_nat s)) ∧
  tally n s average !! "successRate" = Some (JNum (success_rate n s)) ∧
  tally n s average !! "averageScore" = Some (JNum average).
Proof. repeat split. Qed.

(** One event, handled on a snapshot that is the tally of the events so far,
    produces the tally of the events so far and itself: no operation leaves
    the finite numbers, the two counters are exact, and the new average has
    magnitude at most [2^j] again. *)
Lemma aggregate_tally (events : list (ActionDetected * Z)) (e : ActionDetected)
    (now : Z) (j : Z) :
  (Z.of_nat (S (length events)) ≤ 2 ^ 53)%Z → (-1074 ≤ j ≤ 970)%Z →
  within 1 j (running_average (confidences events)) →
  within 1 j (ad_confidence e) →
  ∃ payload,
    aggregate (tally_of events) (JBool (ad_successful e)) (JNum (ad_confidence e))
    = Some payload ∧
    spread (tally_of events) payload = tally_of (events ++ [(e, now)]) ∧
    within 1 j (running_average (confidences (events ++ [(e, now)]))).
Proof.
  intros Hn Hj Ha Hc. unfold aggregate, tally_of.
  destruct (tally_lookup (length events) (successes events)
              (running_average (confidences events))) as (-> & -> & _ & ->).
  cbn [to_number mbind option_bind truthy].
  rewrite <- of_nat_1, count_up by lia. cbn [mbind option_bind].
  replace (if ad_successful e then of_nat 1 else 0%Qc)
    with (of_nat (if ad_successful e then 1 else 0))
    by (destruct (ad_successful e); [reflexivity | apply of_nat_0]).
  pose proof (successes_le events) as Hs.
  rewrite count_up by (destruct (ad_successful e); lia).
  cbn [mbind option_bind].
  rewrite Nat.add_1_r.
  destruct (rate_step (successes events + (if ad_successful e then 1 else 0))
              (length events)) as (ratio & Hr1 & Hr2).
  { destruct (ad_successful e); lia. }
  rewrite Hr1. cbn [mbind option_bind]. rewrite Hr2. cbn [mbind option_bind].
  destruct (average_update (running_average (confidences events)) (ad_confidence e)
              (length events) j Hn Hj Ha Hc) as [Hup Hw].
  unfold Binary64.mul, Binary64.add, Binary64.div in *.
  destruct (Binary64.finite (Binary64.nearest (_ * of_nat (length events))))
    as [weighted|]; [|discriminate].
  cbn [mbind option_bind] in *.
  destruct (Binary64.finite (Binary64.nearest (weighted + _))) as [sum|]; [|discriminate].
  cbn [mbind option_bind] in *. rewrite Hup. cbn [mbind option_bind].
  assert (Hav : running_average (confidences (events ++ [(e, now)]))
                = average_step (running_average (confidences events))
                    (length events) (ad_confidence e)).
  { unfold confidences. rewrite map_app. simpl map.
    rewrite running_average_snoc, length_map. reflexivity. }
  eexists. split; [reflexivity|]. split; [|rewrite Hav; exact Hw].
  unfold tally. rewrite four_keys_override.
  rewrite length_app, successes_snoc, Hav. simpl length. rewrite Nat.add_1_r.
  reflexivity.
Qed.

Lemma deliver_unfold (data : JsVal) (now : Z) (c c' : Consumer) :
  deliver data now c = Some c' →
  ∃ t payload,
    handleActionDetected (snapshot c) data now (local c) = Some (t, payload) ∧
    c' = mkConsumer (snapshot c) t
           (mkState (currentSession (store c)) (sessions (store c))
                    (isTracking (store c)) (selectedSport (store c))
                    (settings (store c)) (spread (stats (store c)) payload)
                    (loading (store c)) (error (store c))).
Proof.
  unfold deliver. intros H.
  destruct (handleActionDetected _ _ _ _) as [[t payload]|]; [|discriminate].
  simpl in H. injection H as <-. eauto.
Qed.

Lemma deliver_tally (done : list (ActionDetected * Z)) (e : ActionDetected)
    (now : Z) (j : Z) (c : Consumer) :
  room j done e →
  snapshot c = tally_of done →
  stats (store c) = tally_of done →
  ∃ c', deliver (actionData e) now c = Some c' ∧
        stats (store c') = tally_of (done ++ [(e, now)]) ∧
        within 1 j (running_average (confidences (done ++ [(e, now)]))).
Proof.
  intros (Hn & Hj & Ha & Hc) Hsnap Hstats.
  destruct (aggregate_tally done e now j Hn Hj Ha Hc) as (payload & Hagg & Hspread & Hw).
  unfold deliver, handleActionDetected. rewrite Hsnap. simpl.
  rewrite Hagg. simpl. eexists. split; [reflexivity|]. split; [|exact Hw].
  simpl. rewrite Hstats. exact Hspread.
Qed.

(** One arrival: the frame is stored, the tracker renders with the store's
    current Stats, and its effect hands the frame to the handler. *)
Lemma arrival_tally (ws : nat) (done : list (ActionDetected * Z))
    (e : ActionDetected) (now : Z) (j : Z) (a : App) :
  room j done e →
  is_Some (sockets (conn a) !! ws) →
  up_to_date a →
  stats (store (consumer a)) = tally_of done →
  ∃ a', app_run [Frame ws (Some (action_frame e)); Rerender now] a = Some a' ∧
        stats (store (consumer a')) = tally_of (done ++ [(e, now)]) ∧
        within 1 j (running_average (confidences (done ++ [(e, now)]))) ∧
        sockets (conn a') = sockets (conn a) ∧
        up_to_date a'.
Proof.
  intros Hroom [captured Hws] Hup Hstats.
  destruct (deliver_tally done e now j (render (consumer a)) Hroom)
    as (c' & Hd & Hc' & Hw); [exact Hstats..|].
  exists (mkApp (onmessage (Some (action_frame e)) (conn a)) c'
                (Some (S (frames (conn a))))).
  split; [|split; [exact Hc' | split; [exact Hw | split; [reflexivity|]]]].
  - simpl. rewrite Hws. simpl.
    rewrite bool_decide_eq_false_2.
    + unfold onLastMessage. simpl. rewrite Hd. reflexivity.
    + intros Hk. apply Hup in Hk. lia.
  - intros k Hk. simpl in *. injection Hk as <-. lia.
Qed.

Lemma app_run_app (l1 l2 : list AppStep) (a : App) :
  app_run (l1 ++ l2) a = a1 ← app_run l1 a; app_run l2 a1.
Proof.
  revert a. induction l1 as [|s l1 IH]; intros a; [reflexivity|].
  simpl. destruct (app_step a s) as [a'|]; [apply IH | reflexivity].
Qed.

Lemma bounded_app (j : Z) (l1 l2 : list (ActionDetected * Z)) :
  bounded j (l1 ++ l2) ↔ bounded j l1 ∧ bounded j l2.
Proof. unfold bounded, confidences. rewrite map_app. apply Forall_app. Qed.

Lemma within_zero (j : Z) : within 1 j 0%Qc.
Proof.
  split; [|apply scaled_nonneg].
  pose proof (Qcopp_le_compat _ _ (scaled_nonneg 1 j)) as H. exact H.
Qed.

(** Events seen one by one: after [done], the events [events] arrive, each
    followed by a render of the tracker. *)
Lemma arrivals_from (ws : nat) (j : Z) (events done : list (ActionDetected * Z)) (a : App) :
  (Z.of_nat (length (done ++ events)) ≤ 2 ^ 53)%Z → (-1074 ≤ j ≤ 970)%Z →
  bounded j events →
  within 1 j (running_average (confidences done)) →
  is_Some (sockets (conn a) !! ws) →
  up_to_date a →
  stats (store (consumer a)) = tally_of done →
  ∃ a', app_run (arrivals ws events) a = Some a' ∧
        stats (store (consumer a')) = tally_of (done ++ events) ∧
        within 1 j (running_average (confidences (done ++ events))) ∧
        sockets (conn a') = sockets (conn a) ∧
        up_to_date a'.
Proof.
  revert done a. induction events as [|[e now] events IH];
    intros done a Hn Hj Hb Hw Hws Hup Hst.
  - exists a. rewrite app_nil_r. auto.
  - apply (bounded_app j [(e, now)] events) in Hb as [He Hb].
    assert (Hroom : room j done e).
    { split; [|split; [exact Hj | split; [exact Hw|]]].
      - rewrite length_app in Hn. simpl in Hn. lia.
      - unfold bounded in He. simpl in He. apply Forall_inv in He. exact He. }
    destruct (arrival_tally ws done e now j a Hroom Hws Hup Hst)
      as (a1 & Hrun & H1 & Hw1 & Hs & Hup1).
    destruct (IH (done ++ [(e, now)]) a1) as (a2 & Hrun2 & H2 & Hw2 & Hs2 & Hup2); auto.
    { rewrite <- app_assoc. exact Hn. }
    { rewrite Hs. exact Hws. }
    rewrite <- app_assoc in H2, Hw2.
    exists a2. split; [|split; [exact H2 | split; [exact Hw2 | split; [congruence | exact Hup2]]]].
    change (arrivals ws ((e, now) :: events))
      with ([Frame ws (Some (action_frame e)); Rerender now] ++ arrivals ws events).
    rewrite app_run_app, Hrun. exact Hrun2.
Qed.





(** * Properties of the connection *)

Lemma scheduled_emit (w : World) (e : Effect) :
  scheduled (emit w e)
  = scheduled w ++ match e with SetTimeout delay => [delay] | _ => [] end.
Proof.
  unfold scheduled, emit. simpl. rewrite omap_app. destruct e; reflexivity.
Qed.

(** The close handler never touches the connection error, and always leaves
    the provider disconnected. *)
Lemma onclose_react (captured code : nat) (w : World) :
  connectionError (react (onclose captured code w)) = connectionError (react w) ∧
  reconnectAttempts (react (onclose captured code w)) = reconnectAttempts (react w) ∧
  isConnected (react (onclose captured code w)) = false ∧
  socket (react (onclose captured code w)) = None.
Proof. unfold onclose. destruct (_ && _); simpl; auto. Qed.

(** When the close handler schedules a reconnect: the code is not the normal
    closure code and the counter value its closure captured is below the
    maximum. *)
Lemma onclose_schedules (captured code : nat) (w : World) :
  scheduled (onclose captured code w)
  = scheduled w ++
    (if negb (code =? 1000) && (captured <? MAX_RECONNECT_ATTEMPTS)
     then [RECONNECT_DELAY] else []) ∧
  timers (onclose captured code w)
  = timers w ++
    (if negb (code =? 1000) && (captured <? MAX_RECONNECT_ATTEMPTS)
     then [captured] else []).
Proof.
  unfold onclose, scheduled. destruct (_ && _); simpl.
  - rewrite omap_app. auto.
  - rewrite !app_nil_r. auto.
Qed.

(** The retry chain that starts at mount: every socket of the chain was made
    by the [connect] of the first render, so every close handler of the chain
    reads the counter as 0. *)
Lemma closures_run (env : ConnectEnv) (cs : list (bool * nat)) :
  accepts env = true →
  Forall (λ c, c.2 ≠ 1000) cs →
  ∀ (first : nat) (w : World),
    sockets w !! first = Some 0 →
    length (sockets w) = S first →
    timers w = [] →
    let w' := run_events (closures first env cs) w in
    scheduled w' = scheduled w ++ replicate (length cs) RECONNECT_DELAY ∧
    sockets w' !! (first + length cs) = Some 0 ∧
    length (sockets w') = S (first + length cs) ∧
    timers w' = [] ∧
    reconnectAttempts (react w') = reconnectAttempts (react w) + length cs ∧
    connectionError (react w')
    = if existsb fst cs then Some transport_error else connectionError (react w).
Proof.
  intros Hacc Hcs.
  induction Hcs as [|[errored code] cs Hcode _ IH]; intros first w Hs Hl Ht.
  - simpl. rewrite app_nil_r, !Nat.add_0_r. repeat split; auto.
  - pose (w1 := run_events ((if errored then [Error first] else [])
                            ++ [Close first code; Timer env]) w).
    assert (Hrun : run_events (closures first env ((errored, code) :: cs)) w
                   = run_events (closures (S first) env cs) w1).
    { subst w1. unfold run_events. simpl closures.
      rewrite (fold_left_app _ (if errored then [Error first] else [])).
      rewrite (fold_left_app _ (if errored then [Error first] else [])).
      reflexivity. }
    cbv zeta. rewrite Hrun. clear Hrun.
    assert (H1 : scheduled w1 = scheduled w ++ [RECONNECT_DELAY] ∧
                 sockets w1 = sockets w ++ [0] ∧ timers w1 = [] ∧
                 reconnectAttempts (react w1) = S (reconnectAttempts (react w)) ∧
                 connectionError (react w1)
                 = if errored then Some transport_error else connectionError (react w)).
    { simpl in Hcode. apply Nat.eqb_neq in Hcode.
      subst w1. unfold run_events.
      destruct errored; simpl; rewrite ?Hs; simpl; unfold onclose; simpl;
        rewrite ?Hs, Hcode; simpl; rewrite Ht; simpl;
        unfold reconnect, connect; simpl; rewrite Hacc; simpl;
        unfold scheduled; simpl; rewrite !omap_app; simpl;
        rewrite app_nil_r; auto. }
    destruct H1 as (Hsch & Hsock & Htim & Hatt & Herr).
    destruct (IH (S first) w1) as (I1 & I2 & I3 & I4 & I5 & I6).
    + rewrite Hsock, lookup_app_r by lia. rewrite Hl, Nat.sub_diag. reflexivity.
    + rewrite Hsock, length_app, Hl. simpl. lia.
    + exact Htim.
    + simpl length.
      replace (first + S (length cs)) with (S first + length cs) by lia.
      rewrite I1, I2, I3, I4, I5, I6, Hsch, Hatt, Herr.
      rewrite <- app_assoc. simpl.
      repeat split; auto.
      destruct errored, (existsb fst cs); reflexivity.
Qed.

Lemma mounted_world (env : ConnectEnv) :
  accepts env = true →
  sockets (mounted env) = [0] ∧ timers (mounted env) = [] ∧
  scheduled (mounted env) = [] ∧
  reconnectAttempts (react (mounted env)) = 0 ∧
  connectionError (react (mounted env)) = None.
Proof. intros H. unfold mounted. simpl. unfold connect. rewrite H. simpl. auto. Qed.

(** C2, as the code has it.  After mount, five abnormal closures in a row
    (each possibly preceded by a transport error and followed by its reconnect
    timer firing) leave exactly five reconnect attempts scheduled, each with
    the fixed delay of 3000 ms, and the counter at 5.  The close handler never
    sets a connection error, whatever the counter: the only error there can be
    afterwards is the one a transport error surfaced.  A [connect()] whose
    socket then opens puts the counter back to 0, clears the connection error
    and reports Connected. *)
Theorem five_closures_schedule_five_attempts :
  ∀ (env : ConnectEnv) (cs : list (bool * nat)),
    accepts env = true →
    length cs = 5 →
    Forall (λ c, c.2 ≠ 1000) cs →
    let w := run_events (closures 0 env cs) (mounted env) in
    scheduled w = replicate 5 RECONNECT_DELAY ∧
    reconnectAttempts (react w) = 5 ∧
    connectionError (react w)
    = (if existsb fst cs then Some transport_error else None) ∧
    (∀ (captured code : nat) (w0 : World),
       connectionError (react (onclose captured code w0)) = connectionError (react w0)) ∧
    (∀ (w0 : World) (env0 : ConnectEnv),
       accepts env0 = true →
       let w1 := run_events [Connect env0; Open (length (sockets w0))] w0 in
       reconnectAttempts (react w1) = 0 ∧
       connectionError (react w1) = None ∧
       connectionState w1 = Connected).
Proof.
  intros env cs Hacc Hlen Hcs w.
  destruct (mounted_world env Hacc) as (Ms & Mt & Msch & Matt & Merr).
  destruct (closures_run env cs Hacc Hcs 0 (mounted env))
    as (H1 & _ & _ & _ & H5 & H6).
  { rewrite Ms. reflexivity. }
  { rewrite Ms. reflexivity. }
  { exact Mt. }
  fold w in H1, H5, H6. rewrite Hlen in H1, H5.
  rewrite Msch in H1. rewrite Matt in H5. rewrite Merr in H6.
  repeat split; auto.
  - apply onclose_react.
  - unfold run_events. simpl. unfold connect. rewrite H. simpl.
    rewrite lookup_app_r, Nat.sub_diag by lia. reflexivity.
  - unfold run_events. simpl. unfold connect. rewrite H. simpl.
    rewrite lookup_app_r, Nat.sub_diag by lia. reflexivity.
  - unfold run_events, connectionState. simpl. unfold connect. rewrite H. simpl.
    rewrite lookup_app_r, Nat.sub_diag by lia. reflexivity.
Qed.

(** The theorem at work on five closures with assorted abnormal codes, the
    first two after a transport error. *)
Lemma five_closures_schedule_five_attempts_witness :
  let cs := [(true, 1006); (true, 1006); (false, 1001); (false, 1011); (false, 1006)] in
  let w := run_events (closures 0 sample_env cs) (mounted sample_env) in
  scheduled w = replicate 5 RECONNECT_DELAY ∧
  reconnectAttempts (react w) = 5 ∧
  connectionError (react w)
  = (if existsb fst cs then Some transport_error else None) ∧
  (∀ (captured code : nat) (w0 : World),
     connectionError (react (onclose captured code w0)) = connectionError (react w0)) ∧
  (∀ (w0 : World) (env0 : ConnectEnv),
     accepts env0 = true →
     let w1 := run_events [Connect env0; Open (length (sockets w0))] w0 in
     reconnectAttempts (react w1) = 0 ∧
     connectionError (react w1) = None ∧
     connectionState w1 = Connected).
Proof.
  apply (five_closures_schedule_five_attempts sample_env
           [(true, 1006); (true, 1006); (false, 1001); (false, 1011); (false, 1006)]).
  - reflexivity.
  - reflexivity.
  - repeat constructor; discriminate.
Defined.

(** C2 fails as stated: a sixth abnormal closure in a row schedules a sixth
    reconnect attempt, although the counter has reached the maximum.  With a
    transport error before every closure the connection error is the one the
    first failure already surfaced; with none it is not set at all. *)
Lemma sixth_closure_schedules_sixth_attempt :
  let failed := run_events (closures 0 sample_env (replicate 6 (true, 1006)))
                           (mounted sample_env) in
  let dropped := run_events (closures 0 sample_env (replicate 6 (false, 1011)))
                            (mounted sample_env) in
  MAX_RECONNECT_ATTEMPTS = 5 ∧
  scheduled failed = replicate 6 RECONNECT_DELAY ∧
  reconnectAttempts (react failed) = 6 ∧
  connectionError (react failed) = Some transport_error ∧
  connectionError (react (run_events (closures 0 sample_env [(true, 1006)])
                                     (mounted sample_env))) = Some transport_error ∧
  scheduled dropped = replicate 6 RECONNECT_DELAY ∧
  reconnectAttempts (react dropped) = 6 ∧
  connectionError (react dropped) = None.
Proof. repeat split. Qed.

Lemma step_connected (w : World) (e : Event) :
  (isConnected (react (ConnRun.step w e)) = isConnected (react w) ∧
   socket (react (ConnRun.step w e)) = socket (react w) ∧
   opened (ConnRun.step w e) = opened w) ∨
  (∃ ws, socket (react (ConnRun.step w e)) = Some ws ∧ ws ∈ opened (ConnRun.step w e)) ∨
  (isConnected (react (ConnRun.step w e)) = false ∧
   socket (react (ConnRun.step w e)) = None).
Proof.
  destruct e as [env | ws | ws parsed | ws code | ws | env | | message]; simpl.
  - unfold connect. destruct (accepts env); simpl; auto.
  - destruct (sockets w !! ws); simpl; [|auto].
    right. left. exists ws. split; [reflexivity | set_solver].
  - destruct (sockets w !! ws); [|auto]. destruct parsed; simpl; auto.
  - destruct (sockets w !! ws) as [captured|]; [|auto].
    right. right. split; apply onclose_react.
  - destruct (sockets w !! ws); simpl; auto.
  - destruct (timers w); [auto|].
    unfold reconnect, connect. destruct (accepts env); simpl; auto.
  - unfold disconnect. destruct (socket (react w)) eqn:E; simpl; rewrite ?E; auto.
  - unfold sendMessage, socket_send.
    destruct (socket (react w)) eqn:E; [|rewrite E; auto].
    destruct (isConnected (react w)) eqn:E'; [|rewrite E, E'; auto].
    destruct (JSON_stringify message); simpl; [|rewrite E, E'; auto].
    case_bool_decide; simpl; rewrite E, E'; auto.
Qed.

Lemma step_holds_socket (w : World) (e : Event) :
  holds_socket w → holds_socket (ConnRun.step w e).
Proof.
  unfold holds_socket. intros [Hc Ho].
  destruct (step_connected w e) as [(H1 & H2 & H3) | [(ws & H1 & H2) | [H1 H2]]].
  - rewrite H1, H2, H3. auto.
  - split; [intros _; eauto|]. intros ws' Hws'. congruence.
  - split; [congruence|]. intros ws' Hws'. congruence.
Qed.

Lemma run_holds_socket (evs : list Event) (w : World) :
  holds_socket w → holds_socket (run_events evs w).
Proof.
  revert w. induction evs as [|e evs IH]; intros w Hw; [exact Hw|].
  apply IH, step_holds_socket, Hw.
Qed.

Lemma reachable_holds_socket (w : World) : reachable w → holds_socket w.
Proof.
  intros (env & evs & ->). apply run_holds_socket.
  unfold holds_socket, mounted. simpl. unfold connect.
  destruct (accepts env); simpl; split; discriminate.
Qed.

(** ** The JSON text of a command *)

Lemma append_cons (x : ascii) (a b : string) : String x a +:+ b = String x (a +:+ b).
Proof. reflexivity. Qed.

Lemma append_assoc (a b c : string) : (a +:+ b) +:+ c = a +:+ (b +:+ c).
Proof.
  induction a as [|x a IH]; [reflexivity|].
  rewrite !append_cons, IH. reflexivity.
Qed.

(** The decoder undoes the escaping of one character, whichever it is. *)
Lemma string_body_escape_char (c : ascii) (tail : string) :
  string_body (escape_char c +:+ tail)
  = '(body, t) ← string_body tail; Some (String c body, t).
Proof. destruct c as [[] [] [] [] [] [] [] []]; reflexivity. Qed.

Lemma string_body_escape (s rest : string) :
  string_body (escape s +:+ String dquote rest) = Some (s, rest).
Proof.
  induction s as [|c s IH]; [reflexivity|].
  simpl escape. rewrite append_assoc, string_body_escape_char, IH. reflexivity.
Qed.

(** Every string literal the encoder writes is read back as the string it
    came from. *)
Lemma value_quote (fuel : nat) (s rest : string) :
  value (S fuel) (quote s +:+ rest) = Some (JStr s, rest).
Proof.
  unfold quote. rewrite append_cons, append_assoc, append_cons.
  transitivity ('(str, tail) ← string_body (escape s +:+ String dquote ("" +:+ rest));
                Some (JStr str, tail)).
  - reflexivity.
  - rewrite string_body_escape. reflexivity.
Qed.

(** Both commands serialise, and the reference decoder gives back the very
    object that was serialised. *)
Lemma command_round_trip (cmd : OutboundCommand) :
  ∃ payload, JSON_stringify (command_message cmd) = Some payload ∧
             JSON_parse payload = Some (command_message cmd).
Proof.
  destruct cmd as [[]]; eexists; (split; [reflexivity | vm_compute; reflexivity]).
Qed.

Lemma command_message_inj (c1 c2 : OutboundCommand) :
  command_message c1 = command_message c2 → c1 = c2.
Proof. destruct c1 as [[]], c2 as [[]]; simpl; intros H; congruence. Qed.

(** Sockets stay open for good in the provider's books: no event takes a
    socket out of those whose [open] event has fired. *)
Lemma opened_grows (evs : list Event) (w : World) (ws : nat) :
  ws ∈ opened w → ws ∈ opened (run_events evs w).
Proof.
  revert w. induction evs as [|e evs IH]; intros w H; [exact H|].
  apply IH. clear IH.
  destruct e as [env | ws' | ws' parsed | ws' code | ws' | env | | message]; simpl.
  - unfold connect. destruct (accepts env); exact H.
  - destruct (sockets w !! ws'); [|exact H]. simpl.
    apply elem_of_union_r, H.
  - destruct (sockets w !! ws'); [|exact H]. destruct parsed; exact H.
  - destruct (sockets w !! ws'); [|exact H].
    unfold onclose. destruct (_ && _); exact H.
  - destruct (sockets w !! ws'); exact H.
  - destruct (timers w); [exact H|].
    unfold reconnect, connect. destruct (accepts env); exact H.
  - unfold disconnect. destruct (socket (react w)); exact H.
  - unfold sendMessage, socket_send.
    destruct (socket (react w)); [|exact H].
    destruct (isConnected (react w)); [|exact H].
    destruct (JSON_stringify message); simpl; [|exact H].
    case_bool_decide; exact H.
Qed.

(** [sendMessage] decides on the [socket] and [isConnected] of the render
    that made it, whatever the provider's state is when it is called.  Made by
    a render of a reachable world in which the provider was not connected, it
    returns [false] and leaves the world as it is.  Made by a render in which
    the provider was connected, it hands that render's socket the JSON text of
    the command and returns [true]; decoding the text gives the command back,
    and no other command has that text. *)
Lemma sendMessage_of_a_render (w0 : World) (during : list Event) (cmd : OutboundCommand) :
  reachable w0 →
  let w := run_events during w0 in
  let result := sendMessage (socket (react w0)) (isConnected (react w0))
                            (command_message cmd) w in
  (connectionState w0 ≠ Connected → result = Some (false, w)) ∧
  (connectionState w0 = Connected →
   ∃ ws payload,
     socket (react w0) = Some ws ∧
     result = Some (true, emit w (SocketSend ws payload)) ∧
     transmitted (emit w (SocketSend ws payload)) = transmitted w ++ [(ws, payload)] ∧
     JSON_parse payload = Some (command_message cmd) ∧
     (∀ cmd', JSON_parse payload = Some (command_message cmd') → cmd' = cmd)).
Proof.
  intros Hreach w result. subst result. unfold connectionState. split.
  - intros Hoff. destruct (isConnected (react w0)); [congruence|].
    unfold sendMessage. destruct (socket (react w0)); reflexivity.
  - intros Hon.
    destruct (isConnected (react w0)) eqn:Hc; [|discriminate].
    destruct (reachable_holds_socket w0 Hreach) as [Hsock Hopen].
    destruct (Hsock Hc) as [ws Hws].
    destruct (command_round_trip cmd) as (payload & Hs & Hp).
    exists ws, payload. rewrite Hws.
    unfold sendMessage, socket_send. rewrite Hs. simpl.
    rewrite bool_decide_eq_true_2 by (apply opened_grows, Hopen, Hws).
    repeat split; auto.
    + unfold transmitted, emit. simpl. rewrite omap_app. reflexivity.
    + intros cmd' H'. rewrite Hp in H'. injection H' as H'.
      symmetry. apply command_message_inj, H'.
Qed.

(** C4, as the code has it.  The tracker's [handleStartTracking()] goes on,
    after the REST call it awaited, with the [sendMessage] of the render that
    made it.  When the server accepts the call, what [sendMessage] does is
    settled by that render alone: made while the provider was connected, it
    returns [true] and hands the camera command to the socket of that render,
    whatever the events that arrived meanwhile have made of the connection;
    made while the provider was not connected, it returns [false] and sends
    nothing, even if the connection has opened meanwhile.  With no event in
    between this is what the claim says. *)
Theorem sendMessage_tests_the_render_not_the_connection :
  ∀ (API_BASE : string) (server : Request → FetchOutcome)
    (during : list Event) (a : App),
    reachable (conn a) →
    status_failure "Failed to start tracking"
      (server (start_request API_BASE (store (consumer a)))) = None →
    let w := run_events during (conn a) in
    let after := Awaiting.handleStartTracking API_BASE server during a in
    (connectionState (conn a) ≠ Connected →
     after.2 = Some false ∧ conn after.1 = w) ∧
    (connectionState (conn a) = Connected →
     ∃ ws payload,
       socket (react (conn a)) = Some ws ∧
       after.2 = Some true ∧
       conn after.1 = emit w (SocketSend ws payload) ∧
       JSON_parse payload = Some (command_message (CameraControl start))).
Proof.
  intros API_BASE server during a Hreach Hok w after. subst after w.
  unfold Awaiting.handleStartTracking.
  destruct (startTracking_run API_BASE server (store (consumer a)) (store (consumer a)))
    as [_ H].
  cbv zeta in H. rewrite Hok in H. destruct H as (_ & -> & _).
  destruct (sendMessage_of_a_render (conn a) during (CameraControl start) Hreach)
    as [Hoff Hon].
  split.
  - intros H. rewrite (Hoff H). split; reflexivity.
  - intros H. destruct (Hon H) as (ws & payload & Hws & -> & _ & Hp & _).
    exists ws, payload. repeat split; assumption.
Qed.

(** The theorem at work where the claim fails.  The handler is made while the
    first socket is open; the socket closes while the REST call is awaited, so
    the provider is disconnected when [sendMessage] runs; it returns [true]
    all the same and the command goes to the closed socket. *)
Lemma sendMessage_tests_the_render_not_the_connection_witness :
  let server := λ _ : Request, FetchResponse true (JsonValue JNull) in
  let during := [Close 0 1006] in
  let w := run_events during (conn sample_app) in
  let after := Awaiting.handleStartTracking "http://localhost:8000" server during
                 sample_app in
  connectionState w = Disconnected ∧
  ∃ ws payload,
    socket (react (conn sample_app)) = Some ws ∧
    after.2 = Some true ∧
    conn after.1 = emit w (SocketSend ws payload) ∧
    JSON_parse payload = Some (command_message (CameraControl start)).
Proof.
  split; [reflexivity|].
  apply (sendMessage_tests_the_render_not_the_connection "http://localhost:8000"
           (λ _ : Request, FetchResponse true (JsonValue JNull)) [Close 0 1006] sample_app).
  - exists sample_env, [Open 0]. reflexivity.
  - reflexivity.
  - reflexivity.
Defined.

(** C5, as the code has it.  [disconnect()] asks the current socket, when
    there is one, for a normal closure (code 1000) and does nothing when there
    is none, so it is safe when already disconnected.  It changes no React
    state and no timer: the pending reconnect timers stay pending, and the
    provider still reports what it reported before; a second call leaves the
    state as the first did.  The provider becomes Disconnected when the close
    event arrives, and a close event with code 1000 schedules no reconnect
    attempt. *)
Theorem disconnect_requests_normal_closure :
  ∀ (w : World),
    disconnect (socket (react w)) w
    = match socket (react w) with
      | Some ws => emit w (SocketClose ws 1000 "Manual disconnect")
      | None => w
      end ∧
    react (ConnRun.step w Disconnect) = react w ∧
    timers (ConnRun.step w Disconnect) = timers w ∧
    scheduled (ConnRun.step w Disconnect) = scheduled w ∧
    react (run_events [Disconnect; Disconnect] w) = react (run_events [Disconnect] w) ∧
    (∀ (captured code : nat),
       connectionState (onclose captured code w) = Disconnected ∧
       socket (react (onclose captured code w)) = None) ∧
    (∀ (captured : nat),
       scheduled (onclose captured 1000 w) = scheduled w ∧
       timers (onclose captured 1000 w) = timers w).
Proof.
  intros w.
  assert (Hd : ∀ w0, react (ConnRun.step w0 Disconnect) = react w0 ∧
                     timers (ConnRun.step w0 Disconnect) = timers w0 ∧
                     scheduled (ConnRun.step w0 Disconnect) = scheduled w0).
  { intros w0. simpl. unfold disconnect. destruct (socket (react w0)); auto.
    rewrite scheduled_emit, app_nil_r. auto. }
  destruct (Hd w) as (H1 & H2 & H3).
  repeat split; auto.
  - unfold run_events. simpl fold_left. apply Hd.
  - unfold connectionState.
    destruct (onclose_react captured code w) as (_ & _ & -> & _). reflexivity.
  - apply onclose_react.
Qed.

(** C5 fails as stated.  A socket closes abnormally, which schedules a
    reconnect; a caller connects by hand, the new socket opens, and the caller
    disconnects.  Right after [disconnect()] the provider still reports
    Connected and the reconnect timer is still pending.  The normal closure
    then arrives, the old timer fires, and a new socket is made. *)
Lemma disconnect_cancels_nothing :
  let w := run_events [Close 0 1006; Connect sample_env; Open 1; Disconnect]
                      (mounted sample_env) in
  let w' := run_events [Close 1 1000; Timer sample_env] w in
  connectionState w = Connected ∧
  timers w = [0] ∧
  last (effects w) = Some (SocketClose 1 1000 "Manual disconnect") ∧
  connectionState w' = Disconnected ∧
  last (effects w') = Some (NewWebSocket "ws://localhost:8000/ws/default") ∧
  length (sockets w') = 3.
Proof. repeat split. Qed.

(** C6, as the code has it.  A frame that does not parse is dropped: the
    world is left exactly as it was, so the connection stays as it is.  A
    frame that parses replaces [lastMessage], whatever its type, and changes
    nothing else of the provider.  [lastMessage] holds one frame: of two
    frames stored in a row only the second remains.  The tracker reads
    [lastMessage] when it renders, its effect running once for the frame it
    finds there; a frame whose type is not one of [action_detected],
    [feedback], [camera_status] leaves the tracker and the store untouched. *)
Theorem inbound_frame_handling :
  ∀ (w : World) (data data' : JsVal),
    onmessage None w = w ∧
    (let w' := onmessage (Some data) w in
     lastMessage (react w') = data ∧
     socket (react w') = socket (react w) ∧
     isConnected (react w') = isConnected (react w) ∧
     reconnectAttempts (react w') = reconnectAttempts (react w) ∧
     connectionError (react w') = connectionError (react w) ∧
     sockets w' = sockets w ∧ timers w' = timers w ∧ effects w' = effects w ∧
     opened w' = opened w) ∧
    lastMessage (react (onmessage (Some data') (onmessage (Some data) w))) = data' ∧
    (∀ (now : Z) (c : Consumer),
       acted_on (prop data "type") = false →
       onLastMessage data now c = Some c) ∧
    (∀ (a : App) (now : Z),
       handled a ≠ Some (frames (conn a)) →
       app_step a (Rerender now)
       = c' ← onLastMessage (lastMessage (react (conn a))) now (render (consumer a));
         Some (mkApp (conn a) c' (Some (frames (conn a))))) ∧
    (∀ (a : App) (now : Z),
       handled a = Some (frames (conn a)) →
       app_step a (Rerender now) = Some (mkApp (conn a) (render (consumer a)) (handled a))).
Proof.
  intros w data data'. repeat split.
  - intros now c H. unfold onLastMessage, acted_on in *.
    destruct (truthy data); [|reflexivity].
    destruct (strict_eq (prop data "type") (JStr "action_detected")); [discriminate|].
    destruct (strict_eq (prop data "type") (JStr "feedback")); [discriminate|].
    destruct (strict_eq (prop data "type") (JStr "camera_status")); [discriminate|].
    reflexivity.
  - intros a now H. simpl. rewrite bool_decide_eq_false_2 by exact H. reflexivity.
  - intros a now H. simpl. rewrite bool_decide_eq_true_2 by exact H. reflexivity.
Qed.

(** C6 fails as stated: two frames with recognised types arrive one after the
    other before the tracker renders.  The tracker then sees the second one
    only; the detected action of the first never reaches it, and the store
    counts nothing.  Had the tracker rendered in between, the action would
    have been counted. *)
Lemma overwritten_frame_is_never_published :
  let shot := action_frame (mkActionDetected "shot" true (Q2Qc (9 # 10)) JNull) in
  (∃ a, app_run [Frame 0 (Some shot); Frame 0 (Some feedback_frame);
                 Rerender 1000%Z] sample_app = Some a ∧
        recentActions (local (consumer a)) = [] ∧
        stats (store (consumer a)) !! "totalActions" = Some (JNum 0) ∧
        currentFeedback (local (consumer a)) = prop feedback_frame "data") ∧
  (∃ a, app_run [Frame 0 (Some shot); Rerender 500%Z;
                 Frame 0 (Some feedback_frame); Rerender 1000%Z] sample_app = Some a ∧
        length (recentActions (local (consumer a))) = 1 ∧
        stats (store (consumer a)) !! "totalActions" = Some (JNum 1) ∧
        currentFeedback (local (consumer a)) = prop feedback_frame "data").
Proof.
  split; (eexists; split; [vm_compute; reflexivity|]); vm_compute; repeat split.
Qed.

(** * Further properties of the store operations *)

(** How a run of an operation leaves the [error] cell: a thrown message is
    stored (and [loading] lowered), a normal return leaves the cell as it
    was, and the reducer never raises. *)
Definition reports {R} (st : State) (r : Run R) : Prop :=
  match run_outcome r with
  | Thrown msg => error (run_state r) = Some msg ∧ loading (run_state r) = false
  | Returned _ => error (run_state r) = error st
  | Crashed => False
  end.

(** What [stopTracking] and [getSession] ask of the server. *)
Definition stop_request (API_BASE : string) : Request :=
  mkRequest "POST" (API_BASE +:+ "/api/tracking/stop") NoBody.

Definition session_request (API_BASE sessionId : string) : Request :=
  mkRequest "GET" (API_BASE +:+ "/api/sessions/" +:+ sessionId) NoBody.

Definition analytics_request (API_BASE sessionId : string) : Request :=
  mkRequest "GET" (API_BASE +:+ "/api/analytics/session/" +:+ sessionId) NoBody.

(** Whatever is tried, the shared [catch] block stores the message it
    rethrows. *)
Lemma try_catch_report_thrown {R} (server : Request → FetchOutcome) (body : Op R) :
  ∀ (st : State) (msg : string),
    run_outcome (run server (try_catch body report) st) = Thrown msg →
    error (run_state (run server (try_catch body report) st)) = Some msg ∧
    loading (run_state (run server (try_catch body report) st)) = false.
Proof.
  induction body as [r | m | a k IH | req f IH]; intros st msg; simpl.
  - discriminate.
  - intros H. injection H as <-. auto.
  - destruct (sessionReducer st a) as [st'|]; simpl; [apply IH | discriminate].
  - apply IH.
Qed.

(** X1.  [stopTracking()] sends one POST to [/api/tracking/stop], without a
    body.  When the server accepts it the tracking flag is lowered and [true]
    is returned; otherwise the message is stored and thrown and the flag
    stays as it was.  Either way Stats, the current session and the session
    list are untouched. *)
Theorem stopTracking_outcomes :
  ∀ (API_BASE : string) (server : Request → FetchOutcome) (st : State),
    let r := run server (stopTracking API_BASE) st in
    requests r = [stop_request API_BASE] ∧
    stats (run_state r) = stats st ∧
    currentSession (run_state r) = currentSession st ∧
    sessions (run_state r) = sessions st ∧
    match status_failure "Failed to stop tracking" (server (stop_request API_BASE)) with
    | None =>
        run_outcome r = Returned true ∧
        dispatched r = [SET_TRACKING false] ∧
        isTracking (run_state r) = false ∧
        error (run_state r) = error st
    | Some msg =>
        run_outcome r = Thrown msg ∧
        dispatched r = [SET_ERROR (Some msg)] ∧
        isTracking (run_state r) = isTracking st ∧
        error (run_state r) = Some msg
    end.
Proof.
  intros API_BASE server st. simpl. unfold requests, dispatched, stop_request.
  destruct (server _) as [m | [] [v | m]]; simpl; repeat split.
Qed.

(** X2.  [getSession(id)] raises the loading flag and sends one GET to
    [/api/sessions/<id>].  When the server answers with a session, that
    session becomes the current one and is returned; the session list is not
    touched, and the loading flag stays raised.  Otherwise the message is
    stored and thrown, the loading flag is lowered, and the current session
    stays as it was. *)
Theorem getSession_outcomes :
  ∀ (API_BASE sessionId : string) (server : Request → FetchOutcome) (st : State),
    let r := run server (getSession API_BASE sessionId) st in
    head (run_trace r) = Some (Dispatched (SET_LOADING true)) ∧
    requests r = [session_request API_BASE sessionId] ∧
    sessions (run_state r) = sessions st ∧
    isTracking (run_state r) = isTracking st ∧
    match server (session_request API_BASE sessionId) with
    | FetchResponse true (JsonValue session) =>
        run_outcome r = Returned session ∧
        currentSession (run_state r) = session ∧
        loading (run_state r) = true ∧
        error (run_state r) = error st
    | failed =>
        ∃ msg, failure_of "Failed to fetch session" failed = Some msg ∧
               run_outcome r = Thrown msg ∧
               currentSession (run_state r) = currentSession st ∧
               loading (run_state r) = false ∧
               error (run_state r) = Some msg
    end.
Proof.
  intros API_BASE sessionId server st. simpl. unfold requests, session_request.
  destruct (server _) as [m | [] [v | m]]; simpl; repeat split; eauto 10.
Qed.

(** X3.  [createSession] raises the loading flag before anything else and
    only a failure lowers it: after a successful creation the flag is still
    raised, whatever it was before the call. *)
Theorem createSession_leaves_loading_raised :
  ∀ (API_BASE : string) (server : Request → FetchOutcome) (draft : JsVal) (st : State),
    let r := run server (createSession API_BASE draft) st in
    head (run_trace r) = Some (Dispatched (SET_LOADING true)) ∧
    match run_outcome r with
    | Returned _ =>
        loading (run_state r) = true ∧
        dispatched r = [SET_LOADING true; CREATE_SESSION (currentSession (run_state r))]
    | Thrown msg =>
        loading (run_state r) = false ∧
        dispatched r = [SET_LOADING true; SET_ERROR (Some msg)]
    | Crashed => False
    end.
Proof.
  intros API_BASE server draft st. simpl. unfold dispatched.
  destruct (server _) as [m | [] [v | m]]; simpl; repeat split.
Qed.

(** X4.  Each of the five REST operations either returns, leaving the [error]
    cell as it found it (a success never clears an earlier error), or throws
    a message that it has first stored in [error], with the loading flag
    lowered.  None of them makes the reducer raise. *)
Theorem operations_report_what_they_throw :
  ∀ (API_BASE sessionId : string) (server : Request → FetchOutcome)
    (draft : JsVal) (seen st : State),
    reports st (run server (createSession API_BASE draft) st) ∧
    reports st (run server (getSession API_BASE sessionId) st) ∧
    reports st (run server (startTracking API_BASE seen) st) ∧
    reports st (run server (stopTracking API_BASE) st) ∧
    reports st (run server (getAnalytics API_BASE sessionId) st) ∧
    run_state (run server (getAnalytics API_BASE sessionId) st)
    = match run_outcome (run server (getAnalytics API_BASE sessionId) st) with
      | Thrown msg =>
          mkState (currentSession st) (sessions st) (isTracking st) (selectedSport st)
                  (settings st) (stats st) false (Some msg)
      | _ => st
      end.
Proof.
  intros API_BASE sessionId server draft seen st. unfold reports. simpl.
  repeat split;
    match goal with
    | |- context [server ?q] => destruct (server q) as [m | [] [v | m]]; simpl; auto
    end.
Qed.

(** The store as it is once an error has been shown and cleared: everything
    as in [st], no error, loading lowered. *)
Definition settled (st : State) : State :=
  mkState (currentSession st) (sessions st) (isTracking st) (selectedSport st)
          (settings st) (stats st) false None.

(** X5.  A failed [createSession] or [startTracking] followed by
    [clearError()] (the session manager clears the error five seconds after
    it appears) leaves the store as it was before the call, except that no
    error is recorded and the loading flag is lowered. *)
Theorem failed_call_then_clearError :
  ∀ (API_BASE : string) (server : Request → FetchOutcome)
    (draft : JsVal) (seen st : State),
    let cleared {R} (op : Op R) :=
      run_state (run server clearError (run_state (run server op st))) in
    (failure_of "Failed to create session"
       (server (create_request API_BASE draft)) ≠ None →
     cleared (createSession API_BASE draft) = settled st) ∧
    (status_failure "Failed to start tracking"
       (server (start_request API_BASE seen)) ≠ None →
     cleared (startTracking API_BASE seen) = settled st).
Proof.
  intros API_BASE server draft seen st. simpl.
  unfold create_request, start_request, settled. split.
  - destruct (server _) as [m | [] [v | m]]; simpl; intros H; congruence.
  - destruct (server _) as [m | [] [v | m]]; simpl; intros H; congruence.
Qed.

(** Reading [.id] raises on these. *)
Definition nullish (v : JsVal) : bool :=
  match v with JUndefined | JNull => true | _ => false end.

Lemma get_nullish (v : JsVal) (k : string) :
  get v k = if nullish v then None else Some (prop v k).
Proof. destruct v; reflexivity. Qed.

Lemma replace_by_id_spec (payload pid : JsVal) (l : list JsVal) :
  replace_by_id payload pid l
  = if existsb nullish l then None
    else Some (map (λ s, if strict_eq (prop s "id") pid then payload else s) l).
Proof.
  induction l as [|s l IH]; [reflexivity|].
  simpl. rewrite get_nullish. destruct (nullish s); simpl; [reflexivity|].
  rewrite IH. destruct (existsb nullish l); reflexivity.
Qed.

(** X6.  The [UPDATE_SESSION] transition raises when the payload or an entry
    of the session list is [null] or [undefined].  Otherwise it keeps the
    list's length and order, puts the payload in place of exactly the entries
    whose [id] equals the payload's, makes the payload current when the
    current session has that [id], and changes nothing else.  A payload
    without an [id] is made current when there is no current session. *)
Theorem update_session_by_id :
  ∀ (st : State) (payload : JsVal),
    (sessionReducer st (UPDATE_SESSION payload)
     = if nullish payload || existsb nullish (sessions st) then None
       else
         Some (mkState
                 (if strict_eq (get_opt (currentSession st) "id") (prop payload "id")
                  then payload else currentSession st)
                 (map (λ s, if strict_eq (prop s "id") (prop payload "id")
                            then payload else s) (sessions st))
                 (isTracking st) (selectedSport st) (settings st) (stats st)
                 (loading st) (error st))) ∧
    (nullish payload = false → existsb nullish (sessions st) = false →
     prop payload "id" = JUndefined → nullish (currentSession st) = true →
     currentSession <$> sessionReducer st (UPDATE_SESSION payload) = Some payload) ∧
    (∀ st', sessionReducer st (UPDATE_SESSION payload) = Some st' →
            length (sessions st') = length (sessions st)).
Proof.
  intros st payload.
  assert (H : sessionReducer st (UPDATE_SESSION payload)
              = if nullish payload || existsb nullish (sessions st) then None
                else
                  Some (mkState
                          (if strict_eq (get_opt (currentSession st) "id")
                                        (prop payload "id")
                           then payload else currentSession st)
                          (map (λ s, if strict_eq (prop s "id") (prop payload "id")
                                     then payload else s) (sessions st))
                          (isTracking st) (selectedSport st) (settings st) (stats st)
                          (loading st) (error st))).
  { simpl. rewrite get_nullish. destruct (nullish payload); simpl; [reflexivity|].
    rewrite replace_by_id_spec. destruct (existsb nullish (sessions st)); reflexivity. }
  split; [exact H|]. split.
  - intros Hp Hl Hid Hc. rewrite H, Hp, Hl, Hid. simpl.
    destruct (currentSession st); try discriminate; reflexivity.
  - intros st' Hst'. rewrite H in Hst'.
    destruct (nullish payload || existsb nullish (sessions st)); [discriminate|].
    injection Hst' as <-. simpl. apply length_map.
Qed.

(** * Properties of the callers *)

(** X7.  The navigation bar's [handleTrackingToggle()] never throws and sends
    exactly one request: the stop request when its render saw tracking on,
    the start request otherwise.  When the server accepts, the tracking flag
    becomes the opposite of what the render saw; when it does not, the flag
    stays as it is in the store and the message is stored in [error]. *)
Theorem handleTrackingToggle_outcomes :
  ∀ (API_BASE : string) (server : Request → FetchOutcome) (seen st : State),
    let r := run server (Navigation.handleTrackingToggle API_BASE seen) st in
    let request :=
      if isTracking seen then stop_request API_BASE else start_request API_BASE seen in
    let failure :=
      if isTracking seen then "Failed to stop tracking" else "Failed to start tracking" in
    run_outcome r = Returned tt ∧
    requests r = [request] ∧
    match status_failure failure (server request) with
    | None =>
        isTracking (run_state r) = negb (isTracking seen) ∧
        error (run_state r) = error st
    | Some msg =>
        isTracking (run_state r) = isTracking st ∧
        error (run_state r) = Some msg
    end.
Proof.
  intros API_BASE server seen st.
  unfold Navigation.handleTrackingToggle, Seq.logged, Seq.await, requests,
    stop_request, start_request.
  destruct (isTracking seen); simpl;
    destruct (server _) as [m | [] [v | m]]; simpl; repeat split.
Qed.

(** Whether the session manager fetches the session before starting. *)
Definition fetches_first (seen : State) (sessionId : JsVal) : bool :=
  truthy sessionId && negb (strict_eq sessionId (get_opt (currentSession seen) "id")).

(** X8.  The session manager's [handleStartTracking(sessionId)] never throws.
    For the session that is already current (or no id) it sends the start
    request alone.  For another session it first fetches it: if the fetch
    fails, the message is stored, no start request is sent and the tracking
    flag is untouched; if it succeeds, the fetched session is made current
    and the start request follows, carrying the sport and settings of the
    render that made the handler. *)
Theorem session_manager_start_sequence :
  ∀ (API_BASE : string) (template : JsVal → string)
    (server : Request → FetchOutcome) (seen st : State) (sessionId : JsVal),
    let r := run server
               (SessionManager.handleStartTracking API_BASE seen template sessionId) st in
    let fetch := session_request API_BASE (template sessionId) in
    let start_ok :=
      bool_decide (status_failure "Failed to start tracking"
                     (server (start_request API_BASE seen)) = None) in
    run_outcome r = Returned tt ∧
    if fetches_first seen sessionId then
      match server fetch with
      | FetchResponse true (JsonValue session) =>
          requests r = [fetch; start_request API_BASE seen] ∧
          currentSession (run_state r) = session ∧
          isTracking (run_state r) = (if start_ok then true else isTracking st)
      | failed =>
          requests r = [fetch] ∧
          error (run_state r) = failure_of "Failed to fetch session" failed ∧
          currentSession (run_state r) = currentSession st ∧
          isTracking (run_state r) = isTracking st
      end
    else
      requests r = [start_request API_BASE seen] ∧
      currentSession (run_state r) = currentSession st ∧
      isTracking (run_state r) = (if start_ok then true else isTracking st).
Proof.
  intros API_BASE template server seen st sessionId.
  unfold SessionManager.handleStartTracking, Seq.logged, Seq.await, requests,
    session_request, start_request.
  fold (fetches_first seen sessionId).
  destruct (fetches_first seen sessionId); simpl.
  - destruct (server (mkRequest "GET" _ _)) as [m | [] [v | m]]; simpl;
      try (repeat split; fail).
    destruct (server (mkRequest "POST" _ _)) as [m | [] [v' | m]]; simpl;
      repeat split.
  - destruct (server _) as [m | [] [v' | m]]; simpl; repeat split.
Qed.

(** * Further properties of the connection *)

(** What one event does to the cells the senders read: nothing, or (an
    [open] event of an existing socket) the provider takes that socket and
    reports connected, or (a [close] event) it drops its socket and reports
    disconnected.  Sockets are only ever added. *)
Lemma step_socket_cells (w : World) (e : Event) :
  let w' := ConnRun.step w e in
  length (sockets w) ≤ length (sockets w') ∧
  ((isConnected (react w') = isConnected (react w) ∧
    socket (react w') = socket (react w) ∧ opened w' = opened w) ∨
   (∃ ws, ws < length (sockets w) ∧ isConnected (react w') = true ∧
          socket (react w') = Some ws ∧ opened w' = {[ws]} ∪ opened w) ∨
   (isConnected (react w') = false ∧ socket (react w') = None ∧
    opened w' = opened w)).
Proof.
  assert (Hsame : ∀ w0 : World,
            length (sockets w0) ≤ length (sockets w0) ∧
            ((isConnected (react w0) = isConnected (react w0) ∧
              socket (react w0) = socket (react w0) ∧ opened w0 = opened w0) ∨
             (∃ ws, ws < length (sockets w0) ∧ isConnected (react w0) = true ∧
                    socket (react w0) = Some ws ∧ opened w0 = {[ws]} ∪ opened w0) ∨
             (isConnected (react w0) = false ∧ socket (react w0) = None ∧
              opened w0 = opened w0))) by (intros w0; auto).
  destruct e as [env | ws | ws parsed | ws code | ws | env | | message]; simpl.
  - unfold connect. destruct (accepts env); simpl; rewrite ?length_app;
      (split; [lia | auto]).
  - destruct (sockets w !! ws) eqn:E; [|apply Hsame]. simpl. split; [lia|].
    right. left. exists ws. split; [eapply lookup_lt_Some, E | auto].
  - destruct (sockets w !! ws); [|apply Hsame]. destruct parsed; simpl; auto.
  - destruct (sockets w !! ws) as [captured|]; [|apply Hsame].
    unfold onclose. destruct (_ && _); simpl; (split; [lia | auto]).
  - destruct (sockets w !! ws); simpl; auto.
  - destruct (timers w); [apply Hsame|].
    unfold reconnect, connect. destruct (accepts env); simpl;
      rewrite ?length_app; (split; [lia | auto]).
  - unfold disconnect. destruct (socket (react w)) eqn:E; simpl; rewrite ?E; auto.
  - unfold sendMessage, socket_send.
    destruct (socket (react w)) eqn:E; [|rewrite E; auto].
    destruct (isConnected (react w)) eqn:E'; [|rewrite E, E'; auto].
    destruct (JSON_stringify message); simpl; [|rewrite E, E'; auto].
    case_bool_decide; simpl; rewrite E, E'; auto.
Qed.

(** The cells agree with each other and with the browser. *)
Definition coherent (w : World) : Prop :=
  (isConnected (react w) = true ↔ is_Some (socket (react w))) ∧
  (∀ ws, socket (react w) = Some ws → ws ∈ opened w) ∧
  (∀ ws, ws ∈ opened w → ws < length (sockets w)).

Lemma step_coherent (w : World) (e : Event) :
  coherent w → coherent (ConnRun.step w e).
Proof.
  intros (Hc & Ho & Hs).
  destruct (step_socket_cells w e)
    as (Hlen & [(H1 & H2 & H3) | [(ws & Hws & H1 & H2 & H3) | (H1 & H2 & H3)]]);
    unfold coherent; rewrite H1, H2, H3.
  - split; [exact Hc|]. split; [exact Ho|].
    intros ws Hws. specialize (Hs ws Hws). lia.
  - split; [split; eauto|]. split.
    + intros ws' [= <-]. apply elem_of_union_l, elem_of_singleton. reflexivity.
    + intros ws' Hin. apply elem_of_union in Hin as [Hin | Hin].
      * apply elem_of_singleton in Hin. lia.
      * specialize (Hs ws' Hin). lia.
  - split; [split; [discriminate | intros [? [=]]]|]. split; [discriminate|].
    intros ws Hws. specialize (Hs ws Hws). lia.
Qed.

Lemma run_coherent (evs : list Event) (w : World) :
  coherent w → coherent (run_events evs w).
Proof.
  revert w. induction evs as [|e evs IH]; intros w Hw; [exact Hw|].
  apply IH, step_coherent, Hw.
Qed.

Lemma mounted_coherent (env : ConnectEnv) : coherent (mounted env).
Proof.
  unfold coherent, mounted. simpl. unfold connect.
  destruct (accepts env); simpl;
    (split; [split; [discriminate | intros [? [=]]]|]);
    (split; [discriminate | set_solver]).
Qed.

(** X9.  Whatever events follow the mount, the provider reports Connected
    exactly when it holds a socket, and the socket it holds is one it created
    and whose [open] event has fired: the two tests of [sendMessage] and the
    test of [disconnect] always agree. *)
Theorem connected_iff_socket_held :
  ∀ (env : ConnectEnv) (evs : list Event),
    let w := run_events evs (mounted env) in
    (connectionState w = Connected ↔ is_Some (socket (react w))) ∧
    (∀ ws, socket (react w) = Some ws → ws ∈ opened w ∧ ws < length (sockets w)).
Proof.
  intros env evs w.
  destruct (run_coherent evs (mounted env) (mounted_coherent env)) as (Hc & Ho & Hs).
  fold w in Hc, Ho, Hs. unfold connectionState. split.
  - rewrite <- Hc. destruct (isConnected (react w)); split; congruence.
  - intros ws Hws. split; [apply Ho, Hws | apply Hs, Ho, Hws].
Qed.

(** An event other than a call of [connect]. *)
Definition not_a_connect (e : Event) : Prop :=
  match e with Connect _ => False | _ => True end.

(** X10.  When the [WebSocket] constructor throws at mount, the provider
    shows "Unable to establish connection" and schedules nothing: no event
    other than a new call of [connect] changes anything afterwards. *)
Theorem failed_constructor_is_never_retried :
  ∀ (env : ConnectEnv) (evs : list Event),
    accepts env = false →
    Forall not_a_connect evs →
    run_events evs (mounted env) = mounted env ∧
    connectionError (react (mounted env)) = Some "Unable to establish connection" ∧
    scheduled (mounted env) = [] ∧
    effects (mounted env) = [].
Proof.
  intros env evs Hacc Hevs.
  assert (Hm : sockets (mounted env) = [] ∧ timers (mounted env) = [] ∧
               socket (react (mounted env)) = None).
  { unfold mounted. simpl. unfold connect. rewrite Hacc. auto. }
  split.
  - destruct Hm as (Hs & Ht & Hk). revert Hs Ht Hk.
    generalize (mounted env) as w. intros w Hs Ht Hk.
    induction Hevs as [|e evs He _ IH]; [reflexivity|].
    assert (Hstep : ConnRun.step w e = w).
    { destruct e; simpl in *; rewrite ?Hs, ?Ht, ?Hk; simpl; tauto. }
    unfold run_events in *. simpl. rewrite Hstep. exact IH.
  - unfold mounted. simpl. unfold connect. rewrite Hacc. auto.
Qed.

Lemma failed_constructor_is_never_retried_witness :
  let env := mkEnv None false in
  run_events [Open 0; Error 0; Close 0 1006; Timer sample_env; Disconnect;
              Send (command_message (CameraControl start))] (mounted env)
  = mounted env ∧
  connectionError (react (mounted env)) = Some "Unable to establish connection" ∧
  scheduled (mounted env) = [] ∧
  effects (mounted env) = [].
Proof.
  apply (failed_constructor_is_never_retried (mkEnv None false)
           [Open 0; Error 0; Close 0 1006; Timer sample_env; Disconnect;
            Send (command_message (CameraControl start))]).
  - reflexivity.
  - repeat constructor.
Defined.

(** An event other than the [open] event of a socket. *)
Definition not_an_open (e : Event) : Prop :=
  match e with Open _ => False | _ => True end.

Lemma step_counter (w : World) (e : Event) :
  not_an_open e →
  let w' := ConnRun.step w e in
  reconnectAttempts (react w') + length (timers w') + length (scheduled w)
  = reconnectAttempts (react w) + length (timers w) + length (scheduled w').
Proof.
  intros He.
  destruct e as [env | ws | ws parsed | ws code | ws | env | | message];
    simpl in *; try tauto.
  - unfold connect, scheduled. destruct (accepts env); simpl;
      rewrite ?omap_app; simpl; rewrite ?app_nil_r; lia.
  - destruct (sockets w !! ws); [|lia]. destruct parsed; simpl; unfold scheduled; simpl; lia.
  - destruct (sockets w !! ws) as [captured|]; [|lia].
    destruct (onclose_schedules captured code w) as [-> ->].
    destruct (onclose_react captured code w) as (_ & -> & _).
    destruct (_ && _); rewrite !length_app; simpl; lia.
  - destruct (sockets w !! ws); simpl; unfold scheduled; simpl; lia.
  - destruct (timers w) as [|captured rest] eqn:Ht; [rewrite Ht; lia|].
    unfold reconnect, connect, scheduled. destruct (accepts env); simpl;
      rewrite ?omap_app; simpl; rewrite ?app_nil_r; lia.
  - unfold disconnect. destruct (socket (react w)); [|lia].
    rewrite scheduled_emit, app_nil_r. simpl. lia.
  - unfold sendMessage, socket_send.
    destruct (socket (react w)); [|lia].
    destruct (isConnected (react w)); [|lia].
    destruct (JSON_stringify message); simpl; [|lia].
    case_bool_decide; [|lia].
    rewrite scheduled_emit, app_nil_r. simpl. lia.
Qed.

(** X11.  As long as no socket opens, the counter [reconnectAttempts] counts
    the reconnect timers that have fired: every attempt scheduled since then
    is either still pending or has raised the counter by one.  No other event
    (close, error, message, send, connect, disconnect) moves the counter. *)
Theorem counter_counts_fired_timers :
  ∀ (evs : list Event) (w : World),
    Forall not_an_open evs →
    let w' := run_events evs w in
    reconnectAttempts (react w') + length (timers w') + length (scheduled w)
    = reconnectAttempts (react w) + length (timers w) + length (scheduled w').
Proof.
  intros evs w Hevs. revert w.
  induction Hevs as [|e evs He _ IH]; intros w; [reflexivity|].
  pose proof (step_counter w e He) as Hstep.
  specialize (IH (ConnRun.step w e)).
  unfold run_events in *. simpl in *. lia.
Qed.

Lemma counter_counts_fired_timers_witness :
  let evs := [Error 0; Close 0 1006; Timer sample_env; Close 1 1011;
              Send JNull; Close 1 1006; Timer sample_env] in
  let w := mounted sample_env in
  let w' := run_events evs w in
  reconnectAttempts (react w') + length (timers w') + length (scheduled w)
  = reconnectAttempts (react w) + length (timers w) + length (scheduled w').
Proof.
  apply (counter_counts_fired_timers
           [Error 0; Close 0 1006; Timer sample_env; Close 1 1011;
            Send JNull; Close 1 1006; Timer sample_env]
           (mounted sample_env)).
  repeat constructor.
Defined.

Lemma step_sessionId (w : World) (e : Event) :
  sessionId (react (ConnRun.step w e)) = sessionId (react w).
Proof.
  destruct e as [env | ws | ws parsed | ws code | ws | env | | message]; simpl.
  - unfold connect. destruct (accepts env); reflexivity.
  - destruct (sockets w !! ws); reflexivity.
  - destruct (sockets w !! ws); [|reflexivity]. destruct parsed; reflexivity.
  - destruct (sockets w !! ws); [|reflexivity].
    unfold onclose. destruct (_ && _); reflexivity.
  - destruct (sockets w !! ws); reflexivity.
  - destruct (timers w); [reflexivity|].
    unfold reconnect, connect. destruct (accepts env); reflexivity.
  - unfold disconnect. destruct (socket (react w)); reflexivity.
  - unfold sendMessage, socket_send.
    destruct (socket (react w)); [|reflexivity].
    destruct (isConnected (react w)); [|reflexivity].
    destruct (JSON_stringify message); simpl; [|reflexivity].
    case_bool_decide; reflexivity.
Qed.

(** The session id a call of [connect] puts in the URL: the persisted one
    when there is one at that time, the one read at mount otherwise. *)
Definition resolved_id (at_mount now : option string) : string :=
  match now with
  | Some s => if String.eqb s "" then sessionId (initialWs at_mount) else s
  | None => sessionId (initialWs at_mount)
  end.

(** X12.  Every socket is created for
    [ws://localhost:8000/ws/<id>], where the id is the persisted session id
    as it is when [connect] runs (by hand or from a reconnect timer) and,
    when none is persisted then, the id the provider read at mount; that id
    is never empty. *)
Theorem socket_url_resolution :
  ∀ (env0 env : ConnectEnv) (evs : list Event),
    accepts env = true →
    let w := run_events evs (mounted env0) in
    let url := "ws://localhost:8000/ws/" +:+ resolved_id (stored_id env0) (stored_id env) in
    effects (ConnRun.step w (Connect env)) = effects w ++ [NewWebSocket url] ∧
    (timers w ≠ [] → effects (ConnRun.step w (Timer env)) = effects w ++ [NewWebSocket url]) ∧
    resolved_id (stored_id env0) (stored_id env) ≠ "".
Proof.
  intros env0 env evs Hacc w url.
  assert (Hid : sessionId (react w) = sessionId (initialWs (stored_id env0))).
  { subst w.
    assert (H0 : sessionId (react (mounted env0)) = sessionId (initialWs (stored_id env0)))
      by apply step_sessionId.
    revert H0. generalize (mounted env0).
    induction evs as [|e evs IH]; intros w0 H0; [exact H0|].
    apply IH. rewrite step_sessionId. exact H0. }
  assert (Hurl : getWsUrl (stored_id env) (sessionId (react w)) = url).
  { subst url. unfold getWsUrl, resolved_id. rewrite Hid. reflexivity. }
  split; [|split].
  - simpl. unfold connect. rewrite Hacc, Hurl. reflexivity.
  - intros Ht. simpl. destruct (timers w); [congruence|].
    unfold reconnect, connect. rewrite Hacc. simpl. rewrite Hurl. reflexivity.
  - unfold resolved_id, initialWs. simpl.
    destruct (stored_id env) as [s|], (stored_id env0) as [s0|];
      repeat (match goal with
              | |- context [String.eqb ?a ?b] => destruct (String.eqb_spec a b)
              end); try congruence; discriminate.
Qed.

Lemma socket_url_resolution_witness :
  let env0 := mkEnv None true in
  let env := mkEnv (Some "s42") true in
  let w := run_events [Close 0 1006] (mounted env0) in
  let url := "ws://localhost:8000/ws/" +:+ resolved_id (stored_id env0) (stored_id env) in
  effects (ConnRun.step w (Connect env)) = effects w ++ [NewWebSocket url] ∧
  (timers w ≠ [] → effects (ConnRun.step w (Timer env)) = effects w ++ [NewWebSocket url]) ∧
  resolved_id (stored_id env0) (stored_id env) ≠ "".
Proof.
  apply (socket_url_resolution (mkEnv None true) (mkEnv (Some "s42") true) [Close 0 1006]).
  reflexivity.
Defined.

(** X13.  The close handler of a socket reads the counter as it was in the
    render whose [connect] created the socket, not as it is when the socket
    closes.  A socket created by a call of [connect()] closes abnormally: a
    reconnect is scheduled exactly when the counter was below the maximum at
    the time of the call, even if the socket has opened in between and put
    the counter back to 0. *)
Theorem close_handler_reads_counter_of_its_connect :
  ∀ (w : World) (env : ConnectEnv) (opens : bool) (code : nat),
    accepts env = true →
    let ws := length (sockets w) in
    let w' := run_events (Connect env :: (if opens then [Open ws] else [])
                            ++ [Close ws code]) w in
    scheduled w'
    = scheduled w ++
      (if negb (code =? 1000) && (reconnectAttempts (react w) <? MAX_RECONNECT_ATTEMPTS)
       then [RECONNECT_DELAY] else []) ∧
    reconnectAttempts (react w') = (if opens then 0 else reconnectAttempts (react w)) ∧
    connectionState w' = Disconnected.
Proof.
  intros w env opens code Hacc ws w'. subst w' ws.
  unfold run_events, connectionState.
  destruct opens; simpl; unfold connect; rewrite Hacc; simpl;
    rewrite ?lookup_app_r, ?Nat.sub_diag by lia; simpl;
    rewrite ?lookup_app_r, ?Nat.sub_diag by lia; simpl;
    unfold onclose; simpl;
    destruct (negb (code =? 1000) && (reconnectAttempts (react w) <? MAX_RECONNECT_ATTEMPTS));
    unfold scheduled; simpl; rewrite ?omap_app; simpl; rewrite ?app_nil_r; auto.
Qed.

Lemma close_handler_reads_counter_of_its_connect_witness :
  let w := run_events (closures 0 sample_env (replicate 5 (false, 1006)))
                      (mounted sample_env) in
  let ws := length (sockets w) in
  let w' := run_events [Connect sample_env; Open ws; Close ws 1006] w in
  scheduled w'
  = scheduled w ++
    (if negb (1006 =? 1000) && (reconnectAttempts (react w) <? MAX_RECONNECT_ATTEMPTS)
     then [RECONNECT_DELAY] else []) ∧
  reconnectAttempts (react w') = 0 ∧
  connectionState w' = Disconnected.
Proof.
  exact (close_handler_reads_counter_of_its_connect
           (run_events (closures 0 sample_env (replicate 5 (false, 1006)))
                       (mounted sample_env))
           sample_env true 1006 eq_refl).
Defined.

(** X14.  A close event of any socket the provider created leaves the
    provider Disconnected and without a socket, even when the socket it held
    was another one that is still open.  From then on [sendMessage] refuses
    every message although that socket could take it, and [disconnect()]
    does nothing, so the provider cannot close it. *)
Theorem close_of_any_socket_disconnects :
  ∀ (w : World) (old held captured code : nat),
    sockets w !! old = Some captured →
    socket (react w) = Some held →
    held ∈ opened w →
    let w' := ConnRun.step w (Close old code) in
    connectionState w' = Disconnected ∧
    socket (react w') = None ∧
    held ∈ opened w' ∧
    (∀ message, ConnRun.step w' (Send message) = w') ∧
    ConnRun.step w' Disconnect = w' ∧
    transmitted w' = transmitted w.
Proof.
  intros w old held captured code Hold Hheld Hopen w'. subst w'.
  simpl. rewrite Hold.
  destruct (onclose_react captured code w) as (_ & _ & Hc & Hs).
  unfold connectionState. rewrite Hc, Hs. simpl.
  repeat split.
  - unfold onclose. destruct (_ && _); exact Hopen.
  - unfold onclose, transmitted. destruct (_ && _); simpl; [|reflexivity].
    rewrite omap_app. simpl. rewrite app_nil_r. reflexivity.
Qed.

Lemma close_of_any_socket_disconnects_witness :
  let w := run_events [Connect sample_env; Open 1] (mounted sample_env) in
  let w' := ConnRun.step w (Close 0 1006) in
  connectionState w = Connected ∧
  connectionState w' = Disconnected ∧
  socket (react w') = None ∧
  1 ∈ opened w' ∧
  (∀ message, ConnRun.step w' (Send message) = w') ∧
  ConnRun.step w' Disconnect = w' ∧
  transmitted w' = transmitted w.
Proof.
  split; [reflexivity|].
  apply (close_of_any_socket_disconnects
           (run_events [Connect sample_env; Open 1] (mounted sample_env)) 0 1 0 1006).
  - reflexivity.
  - reflexivity.
  - apply (bool_decide_unpack _). vm_compute. exact I.
Defined.

(** * Further properties of the tracker *)

(** The record [handleActionDetected] makes of one event. *)
Definition recorded (actionData : JsVal) (now : Z) : NewAction := {|
  na_id := now;
  na_type := prop actionData "action";
  na_successful := prop actionData "successful";
  na_confidence := prop actionData "confidence";
  na_timestamp := now;
  na_details := js_or (prop actionData "details") (JObj [])
|}.

(** The records of the events a schedule hands to the handler, newest
    first. *)
Definition recent (steps : list Step) : list NewAction :=
  rev (flat_map (λ s, match s with
                      | Render => []
                      | Deliver actionData now => [recorded actionData now]
                      end) steps).

Definition succeeded (a : NewAction) : bool := truthy (na_successful a).

(** The length of the run of successes a list starts with. *)
Fixpoint run_length (l : list NewAction) : nat :=
  match l with
  | a :: rest => if succeeded a then S (run_length rest) else 0
  | [] => 0
  end.

Lemma handler_local (stats : gmap string JsVal) (data : JsVal) (now : Z)
    (t t' : Local) (payload : gmap string JsVal) :
  handleActionDetected stats data now t = Some (t', payload) →
  t' = mkLocal (cameraActive t)
         (recorded data now :: take 9 (recentActions t))
         (currentFeedback t)
         (mkPerf (if succeeded (recorded data now)
                  then S (streak (performanceData t)) else 0)
                 (Some (recorded data now))
                 (S (sessionActions (performanceData t)))
                 (sessionSuccesses (performanceData t)
                  + (if succeeded (recorded data now) then 1 else 0)))
         (feedbackTimers t).
Proof.
  unfold handleActionDetected. intros H.
  destruct (get data "action") as [action|] eqn:Ha; [|discriminate].
  assert (action = prop data "action") as ->.
  { unfold get in Ha. destruct data; try discriminate; injection Ha as <-; reflexivity. }
  simpl in H.
  destruct (aggregate _ _ _) as [p|]; [|discriminate].
  simpl in H. injection H as <- _. reflexivity.
Qed.

Lemma take_ten_of_kept (l old : list NewAction) (a : NewAction) :
  take 10 (l ++ a :: take 9 old) = take 10 (l ++ a :: old).
Proof.
  destruct (decide (10 ≤ length l)) as [Hl | Hl].
  - rewrite !(take_app_le l) by lia. reflexivity.
  - rewrite !(take_app_ge l) by lia.
    destruct (10 - length l) as [|k] eqn:Hk; [lia|].
    simpl. rewrite take_take. replace (k `min` 9) with k by lia. reflexivity.
Qed.

Lemma run_length_app (l x : list NewAction) :
  run_length (l ++ x)
  = if forallb succeeded l then length l + run_length x else run_length l.
Proof.
  induction l as [|a l IH]; [reflexivity|].
  simpl. destruct (succeeded a); [|reflexivity].
  rewrite IH. simpl. destruct (forallb succeeded l); reflexivity.
Qed.

(** X15.  The tracker's own record of a session.  After any schedule of
    renders and handler calls that goes through, [recentActions] holds the
    ten most recent records, newest first; [sessionActions] has grown by the
    number of events and [sessionSuccesses] by the number of successful ones;
    [streak] is the length of the run of successes that ends with the newest
    event (added to the earlier streak when every event succeeded); and
    [lastAction] is the newest record.  These cells are kept with functional
    updates, so no event is lost whichever render's handler took it. *)
Theorem tracker_local_record :
  ∀ (steps : list Step) (c c' : Consumer),
    length (recentActions (local c)) ≤ 10 →
    schedule steps c = Some c' →
    let t := local c in
    let t' := local c' in
    recentActions t' = take 10 (recent steps ++ recentActions t) ∧
    sessionActions (performanceData t')
    = sessionActions (performanceData t) + length (recent steps) ∧
    sessionSuccesses (performanceData t')
    = sessionSuccesses (performanceData t) + length (List.filter succeeded (recent steps)) ∧
    streak (performanceData t')
    = (if forallb succeeded (recent steps)
       then length (recent steps) + streak (performanceData t)
       else run_length (recent steps)) ∧
    lastAction (performanceData t')
    = match recent steps with
      | a :: _ => Some a
      | [] => lastAction (performanceData t)
      end.
Proof.
  induction steps as [|s steps IH]; intros c c' Hlen H; cbv zeta.
  - injection H as <-. unfold recent. simpl.
    rewrite Nat.add_0_r, take_ge by exact Hlen. auto.
  - destruct s as [|data now].
    + simpl in H. apply IH in H; [|exact Hlen]. exact H.
    + simpl in H. destruct (deliver data now c) as [c1|] eqn:Hd; [|discriminate].
      simpl in H.
      apply deliver_unfold in Hd as (t1 & payload & Hh & ->).
      apply handler_local in Hh. subst t1.
      apply IH in H; [|simpl; rewrite length_take; lia].
      cbv zeta in H. simpl in H.
      destruct H as (H1 & H2 & H3 & H4 & H5).
      set (a := recorded data now) in *.
      assert (Hrec : recent (Deliver data now :: steps) = recent steps ++ [a]) by reflexivity.
      rewrite Hrec, H1, H2, H3, H4, H5. clear H1 H2 H3 H4 H5 Hrec.
      rewrite <- app_assoc, take_ten_of_kept, length_app, List.filter_app,
        length_app, forallb_app, run_length_app.
      simpl. repeat split.
      * lia.
      * destruct (succeeded a); simpl; lia.
      * destruct (forallb succeeded (recent steps)), (succeeded a); simpl; lia.
      * destruct (recent steps); reflexivity.
Qed.

Lemma tracker_local_record_witness :
  let steps := unobserved sample_events in
  let c' := default initialConsumer (schedule steps initialConsumer) in
  let t := local initialConsumer in
  let t' := local c' in
  recentActions t' = take 10 (recent steps ++ recentActions t) ∧
  sessionActions (performanceData t')
  = sessionActions (performanceData t) + length (recent steps) ∧
  sessionSuccesses (performanceData t')
  = sessionSuccesses (performanceData t) + length (List.filter succeeded (recent steps)) ∧
  streak (performanceData t')
  = (if forallb succeeded (recent steps)
     then length (recent steps) + streak (performanceData t)
     else run_length (recent steps)) ∧
  lastAction (performanceData t')
  = match recent steps with
    | a :: _ => Some a
    | [] => lastAction (performanceData t)
    end.
Proof.
  apply (tracker_local_record (unobserved sample_events) initialConsumer
           (default initialConsumer (schedule (unobserved sample_events) initialConsumer))).
  - simpl. lia.
  - vm_compute. reflexivity.
Defined.

(** * Further properties of the assembled application *)

(** Frames that arrive one after the other: each replaces the one before in
    [lastMessage], and the tracker is not told. *)
Lemma app_run_frame (ws : nat) (parsed : option JsVal) (rest : list AppStep) (a : App) :
  app_run (Frame ws parsed :: rest) a
  = app_run rest (mkApp (ConnRun.step (conn a) (Message ws parsed)) (consumer a) (handled a)).
Proof. reflexivity. Qed.

Lemma frames_in_a_row (ws : nat) (events : list (ActionDetected * Z))
    (e : ActionDetected) (t : Z) (a : App) :
  is_Some (sockets (conn a) !! ws) →
  ∃ a', app_run (map (λ '(e, _), Frame ws (Some (action_frame e))) (events ++ [(e, t)])) a
        = Some a' ∧
        consumer a' = consumer a ∧ handled a' = handled a ∧
        lastMessage (react (conn a')) = action_frame e ∧
        frames (conn a') = frames (conn a) + S (length events).
Proof.
  revert a. induction events as [|[e0 t0] events IH]; intros a [captured Hws].
  - eexists. simpl. rewrite Hws. simpl. split; [reflexivity|].
    repeat split. simpl. lia.
  - set (a1 := mkApp (ConnRun.step (conn a) (Message ws (Some (action_frame e0))))
                     (consumer a) (handled a)).
    assert (H1 : sockets (conn a1) = sockets (conn a) ∧
                 frames (conn a1) = S (frames (conn a))).
    { subst a1. simpl. rewrite Hws. auto. }
    destruct H1 as [Hs Hf1].
    destruct (IH a1) as (a' & Hrun & Hc & Hh & Hl & Hf).
    { exists captured. rewrite Hs. exact Hws. }
    exists a'. split.
    + change (app_run (Frame ws (Some (action_frame e0))
                       :: map (λ '(e, _), Frame ws (Some (action_frame e)))
                              (events ++ [(e, t)])) a = Some a').
      rewrite app_run_frame. exact Hrun.
    + rewrite Hc, Hh, Hl, Hf, Hf1. simpl. repeat split. lia.
Qed.

(** X16.  Of a burst of [action_detected] frames that arrive before the
    tracker renders, only the last one reaches the handler: the tracker and
    the store end as if that frame had arrived alone. *)
Theorem burst_handles_only_last_frame :
  ∀ (ws : nat) (events : list (ActionDetected * Z)) (e : ActionDetected)
    (t now : Z) (a : App),
    is_Some (sockets (conn a) !! ws) →
    up_to_date a →
    consumer <$> app_run (burst ws (events ++ [(e, t)]) now) a
    = consumer <$> app_run (burst ws [(e, t)] now) a ∧
    consumer <$> app_run (burst ws (events ++ [(e, t)]) now) a
    = onLastMessage (action_frame e) now (render (consumer a)).
Proof.
  intros ws events e t now a Hws Hup.
  assert (Hone : ∀ evs,
            consumer <$> app_run (burst ws (evs ++ [(e, t)]) now) a
            = onLastMessage (action_frame e) now (render (consumer a))).
  { intros evs. unfold burst. rewrite app_run_app.
    destruct (frames_in_a_row ws evs e t a Hws) as (a' & -> & Hc & Hh & Hl & Hf).
    simpl. rewrite bool_decide_eq_false_2.
    - rewrite Hl, Hc. destruct (onLastMessage _ _ _); reflexivity.
    - rewrite Hh, Hf. intros Hk. apply Hup in Hk. lia. }
  split; [|apply Hone].
  rewrite (Hone events). symmetry. apply (Hone []).
Qed.

Lemma burst_handles_only_last_frame_witness :
  let e := mkActionDetected "serve" true (Q2Qc (8 # 10)) JNull in
  consumer <$> app_run (burst 0 (sample_events ++ [(e, 3000%Z)]) 4000%Z) sample_app
  = consumer <$> app_run (burst 0 [(e, 3000%Z)] 4000%Z) sample_app ∧
  consumer <$> app_run (burst 0 (sample_events ++ [(e, 3000%Z)]) 4000%Z) sample_app
  = onLastMessage (action_frame e) 4000%Z (render (consumer sample_app)).
Proof.
  apply (burst_handles_only_last_frame 0 sample_events
           (mkActionDetected "serve" true (Q2Qc (8 # 10)) JNull) 3000%Z 4000%Z sample_app).
  - exists 0. reflexivity.
  - intros k Hk. discriminate Hk.
Defined.

(** Two store states that differ in Stats at most. *)
Definition same_but_stats (st st' : State) : Prop :=
  currentSession st' = currentSession st ∧ sessions st' = sessions st ∧
  isTracking st' = isTracking st ∧ selectedSport st' = selectedSport st ∧
  settings st' = settings st ∧ loading st' = loading st ∧ error st' = error st.

(** Two worlds that differ in the stored frame at most. *)
Definition same_but_frame (w w' : World) : Prop :=
  socket (react w') = socket (react w) ∧
  isConnected (react w') = isConnected (react w) ∧
  reconnectAttempts (react w') = reconnectAttempts (react w) ∧
  connectionError (react w') = connectionError (react w) ∧
  sockets w' = sockets w ∧ timers w' = timers w ∧
  effects w' = effects w ∧ opened w' = opened w.

Lemma onLastMessage_store (frame : JsVal) (now : Z) (c c' : Consumer) :
  onLastMessage frame now c = Some c' → same_but_stats (store c) (store c').
Proof.
  unfold onLastMessage, same_but_stats. intros H.
  destruct (truthy frame); [|injection H as <-; tauto].
  destruct (strict_eq _ (JStr "action_detected")).
  { apply deliver_unfold in H as (t & payload & _ & ->). simpl. tauto. }
  destruct (strict_eq _ (JStr "feedback")); [injection H as <-; simpl; tauto|].
  destruct (strict_eq _ (JStr "camera_status")); [|injection H as <-; tauto].
  destruct (get _ "active"); [|discriminate].
  injection H as <-. simpl. tauto.
Qed.

(** X17.  Inbound frames are read-only for everything but Stats and the
    stored frame.  In every run of arriving frames and renders of the tracker
    that goes through, that is, in which no effect raises and the handler's
    arithmetic stays within the finite numbers, the store keeps its current
    session, session list, tracking flag, sport, settings, loading flag and
    error, and the connection keeps its socket, its status, its counter, its
    error and its timers; in particular the tracker sends nothing in
    reply. *)
Theorem frames_touch_stats_only :
  ∀ (steps : list AppStep) (a a' : App),
    app_run steps a = Some a' →
    same_but_stats (store (consumer a)) (store (consumer a')) ∧
    same_but_frame (conn a) (conn a') ∧
    transmitted (conn a') = transmitted (conn a).
Proof.
  assert (Hstep : ∀ s a a', app_step a s = Some a' →
            same_but_stats (store (consumer a)) (store (consumer a')) ∧
            same_but_frame (conn a) (conn a')).
  { intros [ws parsed | now] a a' H; simpl in H.
    - injection H as <-. simpl. split; [unfold same_but_stats; tauto|].
      unfold same_but_frame.
      destruct (sockets (conn a) !! ws); [|tauto].
      destruct parsed; simpl; tauto.
    - case_bool_decide.
      + injection H as <-. simpl. unfold same_but_stats, same_but_frame. tauto.
      + destruct (onLastMessage _ _ _) as [c'|] eqn:E; [|discriminate].
        injection H as <-. simpl.
        apply onLastMessage_store in E. simpl in E.
        unfold same_but_frame. tauto. }
  assert (Hrun : ∀ steps a a', app_run steps a = Some a' →
            same_but_stats (store (consumer a)) (store (consumer a')) ∧
            same_but_frame (conn a) (conn a')).
  { induction steps as [|s steps IH]; intros a a' H.
    - injection H as <-. unfold same_but_stats, same_but_frame. tauto.
    - simpl in H. destruct (app_step a s) as [a1|] eqn:E; [|discriminate].
      simpl in H. apply Hstep in E. apply IH in H.
      unfold same_but_stats, same_but_frame in *.
      destruct E as [E1 E2], H as [H1 H2].
      split; intuition congruence. }
  intros steps a a' H. destruct (Hrun steps a a' H) as [H1 H2].
  split; [exact H1|]. split; [exact H2|].
  unfold transmitted. destruct H2 as (_ & _ & _ & _ & _ & _ & -> & _). reflexivity.
Qed.

Lemma frames_touch_stats_only_witness :
  let steps := arrivals 0 sample_events ++ [Frame 0 (Some feedback_frame); Rerender 5000%Z] in
  let a' := default sample_app (app_run steps sample_app) in
  same_but_stats (store (consumer sample_app)) (store (consumer a')) ∧
  same_but_frame (conn sample_app) (conn a') ∧
  transmitted (conn a') = transmitted (conn sample_app).
Proof.
  apply (frames_touch_stats_only
           (arrivals 0 sample_events ++ [Frame 0 (Some feedback_frame); Rerender 5000%Z])
           sample_app).
  vm_compute. reflexivity.
Defined.

(** X18.  A frame whose [data] is missing.  For the types
    [action_detected] and [camera_status] the tracker's effect reads a
    property of [undefined] and raises; for [feedback] it stores the missing
    value as the current feedback and starts the timer that will clear it;
    the store is not touched. *)
Theorem frame_without_data :
  ∀ (frame : JsVal) (now : Z) (c : Consumer),
    truthy frame = true →
    nullish (prop frame "data") = true →
    onLastMessage frame now c
    = if strict_eq (prop frame "type") (JStr "action_detected") ||
         strict_eq (prop frame "type") (JStr "camera_status")
      then None
      else if strict_eq (prop frame "type") (JStr "feedback")
      then Some (mkConsumer (snapshot c)
                   (mkLocal (cameraActive (local c)) (recentActions (local c))
                            (prop frame "data") (performanceData (local c))
                            (S (feedbackTimers (local c))))
                   (store c))
      else Some c.
Proof.
  intros frame now c Ht Hd. unfold onLastMessage. rewrite Ht.
  destruct (strict_eq _ (JStr "action_detected")) eqn:E1; simpl.
  { unfold deliver, handleActionDetected.
    destruct (prop frame "data"); try discriminate; reflexivity. }
  destruct (strict_eq _ (JStr "feedback")) eqn:E2.
  { destruct (strict_eq _ (JStr "camera_status")) eqn:E3; [|reflexivity].
    destruct (prop frame "type") as [| | | |s| |]; try discriminate.
    simpl in E2, E3. apply String.eqb_eq in E2, E3. congruence. }
  destruct (strict_eq _ (JStr "camera_status")); [|reflexivity].
  destruct (prop frame "data"); try discriminate; reflexivity.
Qed.

Lemma frame_without_data_witness :
  let frame := JObj [("type", JStr "camera_status")] in
  onLastMessage frame 0%Z initialConsumer = None.
Proof.
  apply (frame_without_data (JObj [("type", JStr "camera_status")]) 0%Z initialConsumer);
    reflexivity.
Defined.

Lemma arrival_last (ws : nat) (e : ActionDetected) (now : Z) (a a' : App) :
  is_Some (sockets (conn a) !! ws) →
  app_run [Frame ws (Some (action_frame e)); Rerender now] a = Some a' →
  lastMessage (react (conn a')) = action_frame e.
Proof.
  intros [captured Hws] H. rewrite app_run_frame in H. simpl in H.
  rewrite Hws in H. simpl in H.
  case_bool_decide; [injection H as <-; reflexivity|].
  destruct (onLastMessage _ _ _); [|discriminate].
  injection H as <-. reflexivity.
Qed.

(** X19.  Leaving the tracker page and coming back counts the last action
    again.  The provider keeps the last frame while the tracker is unmounted;
    the effect of the newly mounted tracker runs for it.  So after N events
    that were each seen in turn (N + 1 at most [2^53], confidences of
    magnitude at most [2^j]), the first render after the return raises
    [totalActions] from N to N + 1 and counts the last event's success a
    second time, while the tracker's own list starts over with that one
    record. *)
Theorem remount_counts_last_action_again :
  ∀ (ws : nat) (events : list (ActionDetected * Z)) (e : ActionDetected)
    (t now : Z) (a0 : App) (j : Z),
    is_Some (sockets (conn a0) !! ws) →
    up_to_date a0 →
    stats (store (consumer a0)) = initialStats →
    (Z.of_nat (length events + 2) ≤ 2 ^ 53)%Z →
    (-1074 ≤ j ≤ 970)%Z →
    bounded j (events ++ [(e, t)]) →
    let seen := successes (events ++ [(e, t)]) in
    ∃ a a',
      app_run (arrivals ws (events ++ [(e, t)])) a0 = Some a ∧
      stats (store (consumer a)) !! "totalActions"
      = Some (JNum (of_nat (length events + 1))) ∧
      stats (store (consumer a)) !! "successfulActions" = Some (JNum (of_nat seen)) ∧
      app_step (Remount.mount_tracker a) (Rerender now) = Some a' ∧
      stats (store (consumer a')) !! "totalActions"
      = Some (JNum (of_nat (length events + 2))) ∧
      stats (store (consumer a')) !! "successfulActions"
      = Some (JNum (of_nat (seen + (if ad_successful e then 1 else 0)))) ∧
      recentActions (local (consumer a')) = [recorded (actionData e) now].
Proof.
  intros ws events e t now a0 j Hws Hup H0 Hn Hj Hb seen. subst seen.
  rewrite tally_initial in H0.
  pose proof Hb as Hb'. apply bounded_app in Hb' as [Hb1 Hbe].
  destruct (arrivals_from ws j events [] a0) as (a1 & Hrun1 & Hst1 & Hw1 & Hs1 & Hup1);
    auto using within_zero.
  { simpl. lia. }
  simpl in Hst1, Hw1.
  assert (Hws1 : is_Some (sockets (conn a1) !! ws)) by (rewrite Hs1; exact Hws).
  assert (Hce : within 1 j (ad_confidence e)).
  { unfold bounded in Hbe. simpl in Hbe. apply Forall_inv in Hbe. exact Hbe. }
  assert (Hroom : room j events e).
  { split; [lia|]. split; [exact Hj|]. split; assumption. }
  destruct (arrival_tally ws events e t j a1 Hroom Hws1 Hup1 Hst1)
    as (a & Hrun & Hst & Hw & _ & _).
  pose proof (arrival_last ws e t a1 a Hws1 Hrun) as Hlast.
  set (c := mkConsumer (stats (store (consumer a))) initialLocal (store (consumer a))).
  assert (Hroom' : room j (events ++ [(e, t)]) e).
  { split; [rewrite length_app; simpl; lia|]. split; [exact Hj|]. split; assumption. }
  destruct (deliver_tally (events ++ [(e, t)]) e now j c Hroom' Hst Hst)
    as (c' & Hd & Hc' & _).
  exists a, (mkApp (conn a) c' (Some (frames (conn a)))).
  split; [|split; [|split; [|split; [|split; [|split]]]]].
  - unfold arrivals. rewrite flat_map_app, app_run_app.
    fold (arrivals ws events). rewrite Hrun1. simpl flat_map.
    exact Hrun.
  - rewrite Hst. unfold tally_of. rewrite length_app. simpl length. reflexivity.
  - rewrite Hst. reflexivity.
  - unfold Remount.mount_tracker. simpl.
    rewrite Hlast. unfold onLastMessage. simpl.
    fold c. change (render c) with c. rewrite Hd. reflexivity.
  - simpl. rewrite Hc'. unfold tally_of. rewrite !length_app. simpl length.
    replace (length events + 1 + 1) with (length events + 2) by lia. reflexivity.
  - simpl. rewrite Hc'. unfold tally_of. rewrite (successes_snoc (events ++ [(e, t)])).
    reflexivity.
  - simpl. apply deliver_unfold in Hd as (t1 & payload & Hh & ->).
    apply handler_local in Hh. subst t1. reflexivity.
Qed.

Lemma remount_counts_last_action_again_witness :
  let e := mkActionDetected "shot" true (double 9 10) JNull in
  let seen := successes ([] ++ [(e, 1000%Z)]) in
  ∃ a a',
    app_run (arrivals 0 ([] ++ [(e, 1000%Z)])) sample_app = Some a ∧
    stats (store (consumer a)) !! "totalActions" = Some (JNum (of_nat (0 + 1))) ∧
    stats (store (consumer a)) !! "successfulActions" = Some (JNum (of_nat seen)) ∧
    app_step (Remount.mount_tracker a) (Rerender 2000%Z) = Some a' ∧
    stats (store (consumer a')) !! "totalActions" = Some (JNum (of_nat (0 + 2))) ∧
    stats (store (consumer a')) !! "successfulActions"
    = Some (JNum (of_nat (seen + (if ad_successful e then 1 else 0)))) ∧
    recentActions (local (consumer a')) = [recorded (actionData e) 2000%Z].
Proof.
  apply (remount_counts_last_action_again 0 []
           (mkActionDetected "shot" true (double 9 10) JNull) 1000%Z 2000%Z sample_app 0).
  - exists 0. reflexivity.
  - intros k Hk. discriminate Hk.
  - reflexivity.
  - vm_compute. discriminate.
  - lia.
  - repeat constructor; apply Qle_bool_imp_le; vm_compute; reflexivity.
Defined.

(** X20.  While the tracker stays mounted a frame is handled once: after a
    render whose effect has run, any number of further renders without a new
    frame leave the connection, the store and the tracker's own state as they
    are. *)
Theorem frame_handled_once_per_mount :
  ∀ (a a1 : App) (now : Z) (renders : list Z),
    app_step a (Rerender now) = Some a1 →
    ∃ a2, app_run (map Rerender renders) a1 = Some a2 ∧
          conn a2 = conn a1 ∧ handled a2 = handled a1 ∧
          store (consumer a2) = store (consumer a1) ∧
          local (consumer a2) = local (consumer a1).
Proof.
  intros a a1 now renders H.
  assert (Hh : handled a1 = Some (frames (conn a1))).
  { simpl in H. case_bool_decide as Hd.
    - injection H as <-. exact Hd.
    - destruct (onLastMessage _ _ _); [|discriminate]. injection H as <-. reflexivity. }
  clear H. revert a1 Hh.
  induction renders as [|t renders IH]; intros a1 Hh.
  - exists a1. auto.
  - destruct (IH (mkApp (conn a1) (render (consumer a1)) (handled a1)) Hh)
      as (a2 & Hrun & H1 & H2 & H3 & H4).
    exists a2. split; [|auto].
    simpl. rewrite bool_decide_eq_true_2 by exact Hh. exact Hrun.
Qed.

Lemma frame_handled_once_per_mount_witness :
  let a1 := default sample_app (app_run [Frame 0 (Some feedback_frame); Rerender 10%Z]
                                        sample_app) in
  ∃ a2, app_run (map Rerender [20%Z; 30%Z; 40%Z]) a1 = Some a2 ∧
        conn a2 = conn a1 ∧ handled a2 = handled a1 ∧
        store (consumer a2) = store (consumer a1) ∧
        local (consumer a2) = local (consumer a1).
Proof.
  apply (frame_handled_once_per_mount
           (default sample_app (app_run [Frame 0 (Some feedback_frame)] sample_app))
           _ 10%Z [20%Z; 30%Z; 40%Z]).
  vm_compute. reflexivity.
Defined.

(** X21.  The tracker's [handleStartTracking()], no connection event
    arriving meanwhile.  The command to the camera is sent only after the
    REST call has succeeded: when the call fails, the failure is stored in
    the store and nothing is sent.  When it succeeds while the provider is
    not connected, the store goes to tracking and the command is dropped
    without a trace; when the provider is connected, the socket is handed
    exactly the camera command.  The component's own state is not touched. *)
Theorem tracker_start_outcomes :
  ∀ (API_BASE : string) (server : Request → FetchOutcome) (a : App),
    let st := store (consumer a) in
    let a' := App.handleStartTracking API_BASE server a in
    local (consumer a') = local (consumer a) ∧
    match status_failure "Failed to start tracking" (server (start_request API_BASE st)) with
    | Some msg =>
        conn a' = conn a ∧
        error (store (consumer a')) = Some msg ∧
        isTracking (store (consumer a')) = isTracking st
    | None =>
        isTracking (store (consumer a')) = true ∧
        (connectionState (conn a) ≠ Connected → conn a' = conn a) ∧
        (reachable (conn a) → connectionState (conn a) = Connected →
         ∃ ws payload,
           socket (react (conn a)) = Some ws ∧
           conn a' = emit (conn a) (SocketSend ws payload) ∧
           JSON_parse payload = Some (command_message (CameraControl start)))
    end.
Proof.
  intros API_BASE server a st a'. subst a' st.
  unfold App.handleStartTracking.
  destruct (startTracking_run API_BASE server (store (consumer a)) (store (consumer a)))
    as [_ H].
  cbv zeta in H.
  destruct (status_failure _ _) as [msg|].
  - destruct H as (_ & -> & Hst). simpl.
    simpl in Hst. injection Hst as <-. auto.
  - destruct H as (_ & -> & Hst). simpl.
    simpl in Hst. injection Hst as <-. simpl.
    split; [reflexivity|]. split; [reflexivity|]. split.
    + unfold connectionState, send_command, sendMessage. intros Hoff.
      destruct (isConnected (react (conn a))); [congruence|].
      destruct (socket (react (conn a))); reflexivity.
    + unfold connectionState. intros Hreach Hon.
      destruct (isConnected (react (conn a))) eqn:Hc; [|discriminate].
      destruct (reachable_holds_socket (conn a) Hreach) as [Hsock Hopen].
      destruct (Hsock Hc) as [ws Hws].
      destruct (command_round_trip (CameraControl start)) as (payload & Hs & Hp).
      exists ws, payload. split; [exact Hws|]. split; [|exact Hp].
      unfold send_command, sendMessage, socket_send. rewrite Hws, Hc, Hs. simpl.
      rewrite bool_decide_eq_true_2 by (apply Hopen, Hws). reflexivity.
Qed.

(** X22.  The tracker's [handleStopTracking()], no connection event arriving
    meanwhile.  When the REST call fails, the failure is stored, no command
    is sent and the camera flag keeps its value.  When it succeeds, the store
    leaves tracking and the camera flag is lowered, whether or not the stop
    command could be sent: with the provider not connected the command is
    dropped. *)
Theorem tracker_stop_outcomes :
  ∀ (API_BASE : string) (server : Request → FetchOutcome) (a : App),
    let st := store (consumer a) in
    let a' := App.handleStopTracking API_BASE server a in
    recentActions (local (consumer a')) = recentActions (local (consumer a)) ∧
    performanceData (local (consumer a')) = performanceData (local (consumer a)) ∧
    match status_failure "Failed to stop tracking" (server (stop_request API_BASE)) with
    | Some msg =>
        conn a' = conn a ∧
        cameraActive (local (consumer a')) = cameraActive (local (consumer a)) ∧
        error (store (consumer a')) = Some msg ∧
        isTracking (store (consumer a')) = isTracking st
    | None =>
        isTracking (store (consumer a')) = false ∧
        cameraActive (local (consumer a')) = JBool false ∧
        conn a' = send_command (CameraControl stop) (conn a) ∧
        (connectionState (conn a) ≠ Connected → conn a' = conn a)
    end.
Proof.
  intros API_BASE server a st a'. subst a' st.
  unfold App.handleStopTracking, stop_request. simpl.
  destruct (server _) as [m | [] [v | m]]; simpl; repeat split;
    unfold connectionState, send_command, sendMessage; intros Hoff;
    (destruct (isConnected (react (conn a))); [congruence|]);
    destruct (socket (react (conn a))); reflexivity.
Qed.

(** * Properties of the settings panel *)

Lemma strict_eq_str (x : JsVal) (s : string) :
  strict_eq x (JStr s) = true ↔ x = JStr s.
Proof.
  destruct x; simpl; try (split; [discriminate|discriminate]).
  rewrite String.eqb_eq. split; congruence.
Qed.

Lemma includes_filter_other (items : list JsVal) (type other : string) :
  other ≠ type →
  Panel.includes (List.filter (λ t, negb (strict_eq t (JStr type))) items) other
  = Panel.includes items other.
Proof.
  intros Hne. unfold Panel.includes.
  induction items as [|x items IH]; [reflexivity|].
  simpl. destruct (strict_eq x (JStr type)) eqn:E; simpl; rewrite IH; [|reflexivity].
  apply strict_eq_str in E as ->. simpl.
  destruct (String.eqb_spec type other); [congruence | reflexivity].
Qed.

Lemma includes_filter_self (items : list JsVal) (type : string) :
  Panel.includes (List.filter (λ t, negb (strict_eq t (JStr type))) items) type = false.
Proof.
  unfold Panel.includes.
  induction items as [|x items IH]; [reflexivity|].
  simpl. destruct (strict_eq x (JStr type)) eqn:E; simpl; rewrite ?E; exact IH.
Qed.

Lemma filter_absent (items : list JsVal) (type : string) :
  Panel.includes items type = false →
  List.filter (λ t, negb (strict_eq t (JStr type))) items = items.
Proof.
  unfold Panel.includes.
  induction items as [|x items IH]; [reflexivity|].
  simpl. destruct (strict_eq x (JStr type)); simpl; [discriminate|].
  intros H. rewrite IH by exact H. reflexivity.
Qed.

(** X23.  [handleFeedbackTypeToggle(type)] flips the membership of [type] in
    the list of feedback types and of no other type: a type that is listed
    is removed (every copy of it), one that is not is added at the end, so
    that toggling an absent type twice gives the list back.  The handler
    marks the panel as changed and touches no other setting. *)
Theorem feedback_toggle_flips_membership :
  ∀ (items : list JsVal) (type : string),
    Panel.includes (Panel.toggled items type) type = negb (Panel.includes items type) ∧
    (∀ other, other ≠ type →
       Panel.includes (Panel.toggled items type) other = Panel.includes items other) ∧
    (Panel.includes items type = false →
       Panel.toggled (Panel.toggled items type) type = items) ∧
    (∀ (seen : gmap string JsVal) (p : Panel.Panel),
       seen !! "feedbackTypes" = Some (JArr items) →
       ∃ p', Panel.handleFeedbackTypeToggle seen type p = Some p' ∧
             Panel.localSettings p' !! "feedbackTypes"
             = Some (JArr (Panel.toggled items type)) ∧
             (∀ k, k ≠ "feedbackTypes" →
                   Panel.localSettings p' !! k = Panel.localSettings p !! k) ∧
             Panel.hasChanges p' = true).
Proof.
  intros items type.
  assert (Hself : Panel.includes (items ++ [JStr type]) type = true).
  { unfold Panel.includes. rewrite existsb_app. simpl.
    rewrite String.eqb_refl. apply orb_true_r. }
  split; [|split; [|split]].
  - unfold Panel.toggled.
    destruct (Panel.includes items type) eqn:E; simpl.
    + apply includes_filter_self.
    + exact Hself.
  - intros other Hne. unfold Panel.toggled.
    destruct (Panel.includes items type) eqn:E.
    + apply includes_filter_other, Hne.
    + unfold Panel.includes. rewrite existsb_app. simpl.
      destruct (String.eqb_spec type other); [congruence|].
      rewrite !orb_false_r. reflexivity.
  - intros Habs. unfold Panel.toggled. rewrite Habs, Hself.
    rewrite List.filter_app. simpl. rewrite String.eqb_refl. simpl.
    rewrite app_nil_r. apply filter_absent, Habs.
  - intros seen p Hseen. unfold Panel.handleFeedbackTypeToggle. rewrite Hseen.
    eexists. split; [reflexivity|]. simpl. split; [|split].
    + apply lookup_insert_eq.
    + intros k Hk. apply lookup_insert_ne. congruence.
    + reflexivity.
Qed.

Lemma assoc_obj_assign (fields : list (string * JsVal)) (setting k : string) (value : JsVal) :
  assoc k (Panel.obj_assign fields setting value)
  = if String.eqb k setting then Some value else assoc k fields.
Proof.
  induction fields as [|[k' v'] fields IH]; simpl.
  - destruct (String.eqb k setting); reflexivity.
  - destruct (String.eqb_spec setting k') as [<- | Hne]; simpl.
    + destruct (String.eqb k setting); reflexivity.
    + rewrite IH. destruct (String.eqb_spec k k') as [-> | Hk]; [|reflexivity].
      destruct (String.eqb_spec k' setting); [congruence | reflexivity].
Qed.

(** X24.  [handleSettingChange(category, setting, value)] with a category:
    the object under [category] gets [value] at [setting] and keeps its other
    properties, a property that was there keeping its place; every other
    top-level setting is left alone, and the panel is marked as changed.
    When nothing is stored under [category] yet, the object is created with
    that one property. *)
Theorem category_change_is_local :
  ∀ (category setting : string) (value : JsVal) (p : Panel.Panel),
    category ≠ "" →
    let old := default JUndefined (Panel.localSettings p !! category) in
    let p' := Panel.handleSettingChange (Some category) setting value p in
    ∃ fields,
      Panel.localSettings p' !! category = Some (JObj fields) ∧
      prop (JObj fields) setting = value ∧
      (∀ k, k ≠ setting → assoc k fields = assoc k (Panel.spread_fields old)) ∧
      length fields
      = match assoc setting (Panel.spread_fields old) with
        | Some _ => length (Panel.spread_fields old)
        | None => S (length (Panel.spread_fields old))
        end ∧
      (∀ c, c ≠ category → Panel.localSettings p' !! c = Panel.localSettings p !! c) ∧
      Panel.hasChanges p' = true.
Proof.
  intros category setting value p Hc old p'. subst p' old.
  unfold Panel.handleSettingChange, Panel.change. simpl.
  destruct (String.eqb_spec category ""); [congruence|].
  eexists. split; [apply lookup_insert_eq|].
  generalize (Panel.spread_fields (default JUndefined (Panel.localSettings p !! category))).
  intros fields. repeat split.
  - simpl. rewrite assoc_obj_assign, String.eqb_refl. reflexivity.
  - intros k Hk. rewrite assoc_obj_assign.
    destruct (String.eqb_spec k setting); [congruence | reflexivity].
  - induction fields as [|[k' v'] fields IH]; [reflexivity|].
    simpl. destruct (String.eqb setting k'); [reflexivity|].
    simpl. rewrite IH. destruct (assoc setting fields); reflexivity.
  - intros c Hne. apply lookup_insert_ne. congruence.
Qed.

Lemma category_change_is_local_witness :
  let p := Panel.initialPanel in
  let old := default JUndefined (Panel.localSettings p !! "sportSettings") in
  let p' := Panel.handleSettingChange (Some "sportSettings") "tennis" JNull p in
  ∃ fields,
    Panel.localSettings p' !! "sportSettings" = Some (JObj fields) ∧
    prop (JObj fields) "tennis" = JNull ∧
    (∀ k, k ≠ "tennis" → assoc k fields = assoc k (Panel.spread_fields old)) ∧
    length fields
    = match assoc "tennis" (Panel.spread_fields old) with
      | Some _ => length (Panel.spread_fields old)
      | None => S (length (Panel.spread_fields old))
      end ∧
    (∀ c, c ≠ "sportSettings" → Panel.localSettings p' !! c = Panel.localSettings p !! c) ∧
    Panel.hasChanges p' = true.
Proof.
  apply (category_change_is_local "sportSettings" "tennis" JNull Panel.initialPanel).
  discriminate.
Defined.

(** Two store states that differ in the settings at most. *)
Definition same_but_settings (st st' : State) : Prop :=
  currentSession st' = currentSession st ∧ sessions st' = sessions st ∧
  isTracking st' = isTracking st ∧ selectedSport st' = selectedSport st ∧
  stats st' = stats st ∧ loading st' = loading st ∧ error st' = error st.

(** X25.  Saving cannot fail and brings the panel and the store together.
    [handleSaveSettings()] of a render that saw the panel's current settings
    lays them over the store's settings, always reports "success" and clears
    the changed mark; nothing else in the store moves.  When the effect that
    watches the store's settings has run, the panel's settings are exactly
    the store's. *)
Theorem save_brings_panel_and_store_together :
  ∀ (p : Panel.Panel) (st : State),
    let saved := Panel.handleSaveSettings (Panel.localSettings p) p st in
    let p' := Panel.sync (settings saved.2) saved.1 in
    settings saved.2 = spread (settings st) (Panel.localSettings p) ∧
    same_but_settings st saved.2 ∧
    Panel.saveStatus saved.1 = Some "success" ∧
    Panel.hasChanges saved.1 = false ∧
    Panel.statusTimers saved.1 = S (Panel.statusTimers p) ∧
    Panel.localSettings saved.1 = Panel.localSettings p ∧
    Panel.localSettings p' = settings saved.2.
Proof.
  intros p st. simpl. unfold same_but_settings. simpl. repeat split.
  unfold spread. apply map_eq. intros k. rewrite !lookup_union.
  destruct (Panel.localSettings p !! k), (settings st !! k); reflexivity.
Qed.

(** * Properties of the analytics page *)

Lemma representable_finite (r : Qc) (n : nat) :
  (Z.of_nat n ≤ 2 ^ 53)%Z → within n 0 r → Binary64.finite r = Some r.
Proof.
  intros Hn [Hlo Hhi].
  apply (finite_within r (scaled n 0)); [|assumption..].
  apply scaled_below_overflow; lia.
Qed.

Lemma div_by_nonzero (a b : Qc) :
  Qc_eq_bool b 0 = false →
  Binary64.div a b = Binary64.finite (Binary64.nearest (a / b)).
Proof. intros H. unfold Binary64.div. rewrite H. reflexivity. Qed.

(** X26.  [calculateTrend] in binary64.  With fewer than two points the
    trend is 0.  With exactly two points, of rates [r1] and [r2] that are
    binary64 values between 0 and 100, it is [(r1 + r2) / 3 - r1] with each
    operation rounded: the recent sum is divided by 3 although it has two
    terms, and the earlier mean is the first point alone.  Hence two equal
    rates never give a positive trend. *)
Theorem trend_of_two_points :
  ∀ (p1 p2 : Analytics.TimelinePoint),
    let r1 := Analytics.successRate p1 in
    let r2 := Analytics.successRate p2 in
    representable r1 → representable r2 →
    (0 ≤ r1)%Qc → (r1 ≤ Qc_of_Z 100)%Qc → (0 ≤ r2)%Qc → (r2 ≤ Qc_of_Z 100)%Qc →
    Analytics.calculateTrend [] = Some 0%Qc ∧
    Analytics.calculateTrend [p1] = Some 0%Qc ∧
    Analytics.calculateTrend [p1; p2]
    = Some (Binary64.nearest
              (Binary64.nearest (Binary64.nearest (r1 + r2) / Qc_of_Z 3) - r1)) ∧
    (r1 = r2 →
     ∃ trend, Analytics.calculateTrend [p1; p2] = Some trend ∧ (trend ≤ 0)%Qc).
Proof.
  intros p1 p2 r1 r2 Hr1 Hr2 H1lo H1hi H2lo H2hi.
  assert (Hthree : Qc_eq_bool (Qc_of_Z 3) 0 = false) by reflexivity.
  assert (Hone : Qc_eq_bool (of_nat 1) 0 = false) by reflexivity.
  assert (W1 : within 100 0 r1).
  { split; underlying; change (inject_Z (Z.of_nat 100) * Binary64.pow2 0)%Q with 100%Q;
      change (this 0%Qc) with 0%Q in *; set (R := this r1) in *; lra. }
  assert (W2 : within 100 0 r2).
  { split; underlying; change (inject_Z (Z.of_nat 100) * Binary64.pow2 0)%Q with 100%Q;
      change (this 0%Qc) with 0%Q in *; set (R := this r2) in *; lra. }
  assert (Wsum : within 200 0 (r1 + r2)).
  { destruct W1 as [A1 B1], W2 as [A2 B2].
    split; underlying;
      change (inject_Z (Z.of_nat 100) * Binary64.pow2 0)%Q with 100%Q in *;
      change (inject_Z (Z.of_nat 200) * Binary64.pow2 0)%Q with 200%Q;
      set (R1 := this r1) in *; set (R2 := this r2) in *; lra. }
  destruct (within_rounded _ 200 0 ltac:(lia) ltac:(lia) Wsum) as [Fsum Wsum'].
  assert (Wthird : within 200 0 (Binary64.nearest (r1 + r2) / Qc_of_Z 3)).
  { destruct Wsum' as [A B]. revert A B. generalize (Binary64.nearest (r1 + r2)).
    intros s A B.
    split; underlying;
      change (inject_Z (Z.of_nat 200) * Binary64.pow2 0)%Q with 200%Q in *;
      change (this (Qc_of_Z 3)) with 3%Q; set (X := this s) in *.
    - apply Qle_shift_div_l; [reflexivity | lra].
    - apply Qle_shift_div_r; [reflexivity | lra]. }
  destruct (within_rounded _ 200 0 ltac:(lia) ltac:(lia) Wthird) as [Fthird Wthird'].
  assert (Wdiff : within 300 0
                    (Binary64.nearest (Binary64.nearest (r1 + r2) / Qc_of_Z 3) - r1)).
  { destruct Wthird' as [A B], W1 as [A1 B1]. revert A B.
    generalize (Binary64.nearest (Binary64.nearest (r1 + r2) / Qc_of_Z 3)).
    intros q A B. unfold Qcminus.
    split; underlying;
      change (inject_Z (Z.of_nat 100) * Binary64.pow2 0)%Q with 100%Q in *;
      change (inject_Z (Z.of_nat 200) * Binary64.pow2 0)%Q with 200%Q in *;
      change (inject_Z (Z.of_nat 300) * Binary64.pow2 0)%Q with 300%Q;
      set (X := this q) in *; set (R1 := this r1) in *; lra. }
  destruct (within_rounded _ 300 0 ltac:(lia) ltac:(lia) Wdiff) as [Fdiff _].
  assert (Hfirst : Analytics.rate_sum [p1] = Some r1).
  { unfold Analytics.rate_sum. simpl. unfold Binary64.add. fold r1.
    replace (0 + r1)%Qc with r1 by ring.
    rewrite (nearest_exact r1 Hr1).
    apply (representable_finite r1 100); [lia | exact W1]. }
  assert (Hearlier : Binary64.div r1 (of_nat 1) = Some r1).
  { rewrite (div_by_nonzero _ _ Hone).
    replace (r1 / of_nat 1)%Qc with r1 by (rewrite of_nat_1; field; discriminate).
    rewrite (nearest_exact r1 Hr1).
    apply (representable_finite r1 100); [lia | exact W1]. }
  assert (Hboth : Analytics.rate_sum [p1; p2] = Some (Binary64.nearest (r1 + r2))).
  { unfold Analytics.rate_sum. simpl. fold r1 r2.
    unfold Binary64.add at 2. replace (0 + r1)%Qc with r1 by ring.
    rewrite (nearest_exact r1 Hr1), (representable_finite r1 100) by (lia || exact W1).
    simpl. unfold Binary64.add. exact Fsum. }
  assert (Htrend : Analytics.calculateTrend [p1; p2]
                   = Some (Binary64.nearest
                             (Binary64.nearest (Binary64.nearest (r1 + r2) / Qc_of_Z 3) - r1))).
  { unfold Analytics.calculateTrend.
    change (length [p1; p2] <? 2) with false. cbv iota.
    change (drop (length [p1; p2] - 3) [p1; p2]) with [p1; p2].
    change (take (Nat.max 1 (length [p1; p2] - 3)) [p1; p2]) with [p1].
    change (Nat.max 1 (length [p1; p2] - 3)) with 1.
    rewrite Hboth. cbn [mbind option_bind].
    rewrite (div_by_nonzero _ _ Hthree), Fthird. cbn [mbind option_bind].
    rewrite Hfirst. cbn [mbind option_bind].
    rewrite Hearlier. cbn [mbind option_bind].
    unfold Binary64.sub. exact Fdiff. }
  split; [reflexivity|]. split; [reflexivity|]. split; [exact Htrend|].
  intros Heq. eexists. split; [exact Htrend|].
  rewrite <- Heq.
  assert (Hdouble : representable (r1 + r1)).
  { destruct Hr1 as (m & p & Hm & Hp & E). exists m, (p + 1)%Z.
    split; [exact Hm|]. split; [lia|].
    rewrite this_plus, E, pow2_add. change (Binary64.pow2 1) with 2%Q. ring. }
  rewrite (nearest_exact _ Hdouble).
  assert (Hq : (Binary64.nearest ((r1 + r1) / Qc_of_Z 3) ≤ r1)%Qc).
  { apply nearest_le; [exact Hr1|].
    underlying. change (this (Qc_of_Z 3)) with 3%Q. change (this 0%Qc) with 0%Q in *.
    set (R := this r1) in *.
    apply Qle_shift_div_r; [reflexivity | lra]. }
  apply nearest_le; [exists 0%Z, 0%Z; split; [lia | split; [lia | reflexivity]]|].
  revert Hq. generalize (Binary64.nearest ((r1 + r1) / Qc_of_Z 3)). intros q Hq.
  unfold Qcminus. underlying. change (this 0%Qc) with 0%Q.
  set (X := this q) in *. set (R := this r1) in *. lra.
Qed.

(** The theorem at work on two points at 50: the trend is
    -16.666666666666664. *)
Lemma trend_of_two_points_witness :
  let p1 := Analytics.mkPoint "3/1/2024" (Qc_of_Z 4) (Q2Qc 50) (Q2Qc 80) in
  let p2 := Analytics.mkPoint "3/2/2024" (Qc_of_Z 6) (Q2Qc 50) (Q2Qc 75) in
  Analytics.calculateTrend [p1; p2]
  = Some (Q2Qc (-2345624805922133 # 140737488355328)) ∧
  Analytics.calculateTrend [] = Some 0%Qc ∧
  Analytics.calculateTrend [p1] = Some 0%Qc ∧
  Analytics.calculateTrend [p1; p2]
  = Some (Binary64.nearest
            (Binary64.nearest (Binary64.nearest (Q2Qc 50 + Q2Qc 50) / Qc_of_Z 3)
             - Q2Qc 50)) ∧
  (Q2Qc 50 = Q2Qc 50 →
   ∃ trend, Analytics.calculateTrend [p1; p2] = Some trend ∧ (trend ≤ 0)%Qc).
Proof.
  split; [vm_compute; reflexivity|].
  apply (trend_of_two_points
           (Analytics.mkPoint "3/1/2024" (Qc_of_Z 4) (Q2Qc 50) (Q2Qc 80))
           (Analytics.mkPoint "3/2/2024" (Qc_of_Z 6) (Q2Qc 50) (Q2Qc 75)));
    try (apply Qle_bool_imp_le; vm_compute; reflexivity);
    exists 50%Z, 0%Z; (split; [lia | split; [lia | reflexivity]]).
Defined.
